(** * Markdown-to-styled-HTML rendering pipeline: a shallow embedding

    The development follows the TypeScript sources of the renderer
    ([initRenderer], [transform], [preprocessCjkEmphasis], [renderMarkdown],
    [normalizeCssText], [normalizeInlineCss], [modifyHtmlStructure]), of the
    command line and the settings file ([parseArgs], [parseExtendYaml],
    [loadExtendConfig]), of the themes ([resolveThemeNames], [loadThemeCss],
    [stripOutputScope]), of the document builder ([removeFirstHeading]) and
    of two helpers of the image providers ([getBaseUrl], [parseModelId]).

    Conventions of the model.
    - A JavaScript string is a [string]: the model covers the strings whose
      code units are below 256, one [ascii] per code unit.  The
      characters the functions embedded here test for lie in that range.
    - A JavaScript number used as a counter is a [nat].
    - [null]/[undefined] are [None]; a truthiness test on a string is
      "present and non-empty".
    - Mutable closure state of [initRenderer] is a record that every
      operation takes and returns. *)

From Stdlib Require Import String Ascii List Bool Arith Lia.
From Stdlib Require Import DecimalString.
Import ListNotations.

Local Open Scope list_scope.
Local Open Scope string_scope.

Set Implicit Arguments.

(** ** Strings *)

Module Str.

(** The double-quote character, as a one-character string. *)
Definition dq : string := String (ascii_of_nat 34) EmptyString.

(** Template-literal rendering of a non-negative integer. *)
Definition of_nat (n : nat) : string :=
  NilEmpty.string_of_uint (Nat.to_uint n).

(** [s.startsWith(p)], also the anchored test of a literal pattern. *)
Fixpoint starts_with (p s : string) : bool :=
  match p with
  | EmptyString => true
  | String a p' =>
      match s with
      | EmptyString => false
      | String b s' => Ascii.eqb a b && starts_with p' s'
      end
  end.

(** [s.slice(n)]. *)
Fixpoint drop (n : nat) (s : string) : string :=
  match n, s with
  | S n', String _ s' => drop n' s'
  | _, _ => s
  end.

(** [s.includes(p)]. *)
Fixpoint includes (p s : string) : bool :=
  starts_with p s ||
  match s with
  | EmptyString => false
  | String _ s' => includes p s'
  end.

(** Characters removed by [String.prototype.trim] in the 8-bit range:
    TAB, LF, VT, FF, CR, SPACE and NBSP. *)
Definition is_space (c : ascii) : bool :=
  let n := nat_of_ascii c in
  (((9 <=? n) && (n <=? 13)) || (n =? 32) || (n =? 160))%nat.

Fixpoint trim_start (s : string) : string :=
  match s with
  | EmptyString => EmptyString
  | String c s' => if is_space c then trim_start s' else s
  end.

Fixpoint rev_onto (s acc : string) : string :=
  match s with
  | EmptyString => acc
  | String c s' => rev_onto s' (String c acc)
  end.

Definition rev (s : string) : string := rev_onto s EmptyString.

Definition trim (s : string) : string :=
  rev (trim_start (rev (trim_start s))).

(** [s.split(sep)] for a one-character separator. *)
Fixpoint split_on (sep : ascii) (s : string) : list string :=
  match s with
  | EmptyString => [EmptyString]
  | String c s' =>
      if Ascii.eqb c sep then EmptyString :: split_on sep s'
      else match split_on sep s' with
           | [] => [String c EmptyString]
           | w :: ws => String c w :: ws
           end
  end.

(** [s.replace(/a/g, b)] for single characters [a], [b]. *)
Fixpoint map_char (f : ascii -> ascii) (s : string) : string :=
  match s with
  | EmptyString => EmptyString
  | String c s' => String (f c) (map_char f s')
  end.

(** A string used as a condition: [s ? .. : ..]. *)
Definition truthy (s : string) : bool :=
  match s with EmptyString => false | _ => true end.

(** An optional string used as a condition. *)
Definition otruthy (s : option string) : bool :=
  match s with Some t => truthy t | None => false end.

(** [a || b] on an optional string and a string. *)
Definition or_else (a : option string) (b : string) : string :=
  match a with
  | Some t => if truthy t then t else b
  | None => b
  end.

End Str.

(** ** Render options

    [IOpts] has only optional properties.  An object of that type may lack a
    property, or carry it with the value [undefined]; object spread copies
    every own property, whatever its value.  A slot is [None] when the
    property is absent and [Some v] when present, [v] being [None] for
    [undefined]. *)

Inductive ThemeMode := light | dark.

Definition slot (T : Type) := option (option T).

Definition read {T : Type} (s : slot T) : option T :=
  match s with Some v => v | None => None end.

Record IOpts := mkOpts {
  legend : slot string;
  citeStatus : slot bool;
  countStatus : slot bool;
  isMacCodeBlock : slot bool;
  isShowLineNumber : slot bool;
  themeMode : slot ThemeMode
}.

Definition no_opts : IOpts := mkOpts None None None None None None.

(** One property of [{ ...a, ...b }]. *)
Definition spread1 {T : Type} (a b : slot T) : slot T :=
  match b with Some v => Some v | None => a end.

(** [{ ...a, ...b }]. *)
Definition spread (a b : IOpts) : IOpts :=
  mkOpts (spread1 (legend a) (legend b))
         (spread1 (citeStatus a) (citeStatus b))
         (spread1 (countStatus a) (countStatus b))
         (spread1 (isMacCodeBlock a) (isMacCodeBlock b))
         (spread1 (isShowLineNumber a) (isShowLineNumber b))
         (spread1 (themeMode a) (themeMode b)).

(** A boolean option used as a condition. *)
Definition flag (s : slot bool) : bool :=
  match read s with Some b => b | None => false end.

(** ** Renderer state: the closure variables of [initRenderer] *)

Definition Footnote : Type := nat * string * string.

Definition fn_index (f : Footnote) : nat := fst (fst f).
Definition fn_title (f : Footnote) : string := snd (fst f).
Definition fn_link (f : Footnote) : string := snd f.

Record Renderer := mkRenderer {
  footnotes : list Footnote;
  footnoteIndex : nat;
  opts : IOpts
}.

(** [initRenderer(opts)]: an empty registry and a zero counter. *)
Definition initRenderer (o : IOpts) : Renderer := mkRenderer [] 0 o.

(** [addFootnote(title, link)]: the index returned and the state left. *)
Definition addFootnote (title link : string) (r : Renderer) : nat * Renderer :=
  match find (fun f => fn_link f =? link) (footnotes r) with
  | Some existingFootnote => (fn_index existingFootnote, r)
  | None =>
      let i := S (footnoteIndex r) in
      (i, mkRenderer (footnotes r ++ [(i, title, link)])%list i (opts r))
  end.

(** [setOptions(newOpts)]; the calls to [marked.use] re-register extensions
    of the external Markdown engine and do not touch the renderer state. *)
Definition setOptions (newOpts : IOpts) (r : Renderer) : Renderer :=
  mkRenderer (footnotes r) (footnoteIndex r) (spread (opts r) newOpts).

(** [reset(newOpts)]. *)
Definition reset (newOpts : IOpts) (r : Renderer) : Renderer :=
  setOptions newOpts (mkRenderer [] 0 (opts r)).

(** A render pass cites links one after the other. *)
Fixpoint cite_all (cs : list (string * string)) (r : Renderer)
  : list nat * Renderer :=
  match cs with
  | [] => ([], r)
  | (title, link) :: cs' =>
      let (i, r1) := addFootnote title link r in
      let (rest, r2) := cite_all cs' r1 in
      (i :: rest, r2)
  end.

(** Links in order of first appearance: [see] adds a link not seen yet. *)
Definition see (acc : list string) (l : string) : list string :=
  if existsb (fun k => k =? l) acc then acc else (acc ++ [l])%list.

Definition first_seen (ls : list string) : list string :=
  fold_left see ls [].

(** The registry invariant: dense indices from 1, a counter equal to the
    number of entries, links without repetition. *)
Record registry_ok (r : Renderer) : Prop := {
  ok_dense : map fn_index (footnotes r) = seq 1 (length (footnotes r));
  ok_counter : footnoteIndex r = length (footnotes r);
  ok_unique : NoDup (map fn_link (footnotes r))
}.

(** ** Regular expressions

    The program's patterns are embedded as backtracking matchers in
    continuation-passing style, one combinator per regular-expression
    construct, tried in the order the ECMAScript matcher tries them.  A
    matcher takes the remaining input and a continuation for what follows
    it in the pattern; a capturing construct hands the text it consumed to
    its continuation. *)

Module Rx.

Section Matchers.
Variable R : Type.

(** A literal, case-sensitive. *)
Fixpoint lit (w s : string) (k : string -> option R) : option R :=
  match w with
  | EmptyString => k s
  | String a w' =>
      match s with
      | EmptyString => None
      | String b s' => if Ascii.eqb a b then lit w' s' k else None
      end
  end.

(** Canonicalisation under the [i] flag: ASCII letters to upper case. *)
Definition upper (c : ascii) : ascii :=
  let n := nat_of_ascii c in
  if ((97 <=? n) && (n <=? 122))%nat then ascii_of_nat (n - 32) else c.

Definition eqb_ci (a b : ascii) : bool := Ascii.eqb (upper a) (upper b).

(** A literal under the [i] flag; the continuation gets the text matched. *)
Fixpoint lit_ci (w s : string) (k : string -> string -> option R)
  : option R :=
  match w with
  | EmptyString => k EmptyString s
  | String a w' =>
      match s with
      | EmptyString => None
      | String b s' =>
          if eqb_ci a b then lit_ci w' s' (fun m r => k (String b m) r)
          else None
      end
  end.

(** [c?] for one character, greedy. *)
Definition opt_char (c : ascii) (s : string) (k : string -> option R)
  : option R :=
  match s with
  | String b s' =>
      if Ascii.eqb c b
      then match k s' with Some x => Some x | None => k s end
      else k s
  | EmptyString => k s
  end.

(** [[class]*], greedy: the longest run first, then shorter ones. *)
Fixpoint star (p : ascii -> bool) (s : string)
         (k : string -> string -> option R) : option R :=
  match s with
  | String c s' =>
      if p c
      then match star p s' (fun m r => k (String c m) r) with
           | Some x => Some x
           | None => k EmptyString s
           end
      else k EmptyString s
  | EmptyString => k EmptyString s
  end.

(** [[class]+], greedy. *)
Definition plus (p : ascii -> bool) (s : string)
           (k : string -> string -> option R) : option R :=
  match s with
  | String c s' =>
      if p c then star p s' (fun m r => k (String c m) r) else None
  | EmptyString => None
  end.

(** [[class]*?], lazy: the shortest run first, then longer ones. *)
Fixpoint star_lazy (p : ascii -> bool) (s : string)
         (k : string -> string -> option R) : option R :=
  match k EmptyString s with
  | Some x => Some x
  | None =>
      match s with
      | String c s' =>
          if p c then star_lazy p s' (fun m r => k (String c m) r)
          else None
      | EmptyString => None
      end
  end.

(** One character of a class. *)
Definition one (p : ascii -> bool) (s : string) (k : string -> option R)
  : option R :=
  match s with
  | String c s' => if p c then k s' else None
  | EmptyString => None
  end.

(** [$] without the [m] flag: the end of the input. *)
Definition eoi (s : string) (k : option R) : option R :=
  match s with EmptyString => k | String _ _ => None end.

(** [a|b]: the left alternative first. *)
Definition alt (a b : option R) : option R :=
  match a with Some x => Some x | None => b end.

(** An unanchored match: the leftmost start position that succeeds;
    the text skipped before it comes with the result. *)
Fixpoint search (m : string -> option R) (s : string)
  : option (string * R) :=
  match m s with
  | Some r => Some (EmptyString, r)
  | None =>
      match s with
      | String c s' =>
          match search m s' with
          | Some (pre, r) => Some (String c pre, r)
          | None => None
          end
      | EmptyString => None
      end
  end.

End Matchers.

(** Character classes. *)
Definition any (_ : ascii) : bool := true.
Definition none_of (cs : string) (c : ascii) : bool :=
  negb (Str.includes (String c EmptyString) cs).
(** [\s] in the 8-bit range. *)
Definition space : ascii -> bool := Str.is_space.
(** [\d]. *)
Definition digit (c : ascii) : bool :=
  let n := nat_of_ascii c in ((48 <=? n) && (n <=? 57))%nat.

(** [re.test(s)] for a matcher already placed at its start positions. *)
Definition test (X : Type) (r : option X) : bool :=
  match r with Some _ => true | None => false end.

(** [s.replace(re, ..)] under the [g] flag, for a pattern that matches no
    empty string.  [m] matches at the current position and returns what
    it captured and the input left after the match; [rep] builds the
    replacement text from the captures, the input before the match and
    the input after it.  [skip] counts the characters of an earlier match
    still to pass over and [before] is the input already scanned. *)
Fixpoint replace_go (X : Type) (m : string -> option (X * string))
         (rep : X -> string -> string -> string)
         (skip : nat) (before s : string) : string :=
  match s with
  | EmptyString => EmptyString
  | String c s' =>
      let before' := before ++ String c EmptyString in
      match skip with
      | S n => replace_go m rep n before' s'
      | O =>
          match m s with
          | Some (x, rest) =>
              rep x before rest
              ++ replace_go m rep
                   (String.length s - String.length rest - 1) before' s'
          | None => String c (replace_go m rep 0 before' s')
          end
      end
  end.

Definition replace_all (X : Type) (m : string -> option (X * string))
           (rep : X -> string -> string -> string) (s : string) : string :=
  replace_go m rep 0 EmptyString s.

(** A replacement string for a pattern without capture groups: [$$] is a
    dollar sign, [$&] the text matched, [$`] the input before the match,
    [$'] the input after it; any other character stands for itself. *)
Fixpoint expand (t matched before after : string) : string :=
  match t with
  | EmptyString => EmptyString
  | String c t' =>
      if Ascii.eqb c "$" then
        match t' with
        | String d t'' =>
            if Ascii.eqb d "$" then
              String "$" (expand t'' matched before after)
            else if Ascii.eqb d "&" then
              matched ++ expand t'' matched before after
            else if Ascii.eqb d "`" then
              before ++ expand t'' matched before after
            else if Ascii.eqb d "'" then
              after ++ expand t'' matched before after
            else String c (expand t' matched before after)
        | EmptyString => String c EmptyString
        end
      else String c (expand t' matched before after)
  end.

(** A literal pattern [/w/], matched at the current position. *)
Definition literal (w : string) (s : string) : option (string * string) :=
  lit w s (fun rest => Some (w, rest)).

(** [s.replace(/w/g, v)] for a literal [w] and a replacement string [v]. *)
Definition replace_literal (w v s : string) : string :=
  replace_all (literal w) (expand v) s.

End Rx.

(** ** Rendering rules of [initRenderer] *)

Import Str.

(** [styledContent(styleLabel, content, tagName?)]. *)
Definition styledContent (styleLabel content : string) (tagName : option string)
  : string :=
  let tag := match tagName with Some t => t | None => styleLabel end in
  let className :=
    map_char (fun c => if Ascii.eqb c "_" then "-"%char else c) styleLabel in
  let headingAttr :=
    if Rx.test (Rx.lit "h" tag (fun s1 =>
                Rx.one Rx.digit s1 (fun s2 => Rx.eoi s2 (Some tt))))
    then " data-heading=" ++ dq ++ "true" ++ dq
    else EmptyString in
  "<" ++ tag ++ " class=" ++ dq ++ className ++ dq ++ headingAttr ++ ">"
  ++ content ++ "</" ++ tag ++ ">".

(** The [paragraph] rule; [text] is the result of
    [this.parser.parseInline(tokens)], computed by the Markdown engine. *)
Definition paragraph (text : string) : string :=
  let isFigureImage := includes "<figure" text && includes "<img" text in
  let isEmpty := trim text =? EmptyString in
  if isFigureImage || isEmpty then text
  else styledContent "p" text None.

(** [transform(legend, text, title)]: the loop over [legend.split("-")]. *)
Fixpoint transform_options (options : list string) (text title : option string)
  : string :=
  match options with
  | [] => EmptyString
  | option :: rest =>
      if (option =? "alt") && otruthy text then
        match text with Some t => t | None => EmptyString end
      else if (option =? "title") && otruthy title then
        match title with Some t => t | None => EmptyString end
      else transform_options rest text title
  end.

Definition transform (legend : string) (text title : option string) : string :=
  transform_options (split_on "-" legend) text title.

(** The [image] rule. *)
Definition image_caption (o : IOpts) (title : option string) (text : string)
  : string :=
  match read (legend o) with
  | Some l => if truthy l then transform l (Some text) title else EmptyString
  | None => EmptyString
  end.

Definition image (o : IOpts) (href : string) (title : option string)
           (text : string) : string :=
  let newText := image_caption o title text in
  let subText :=
    if truthy newText then styledContent "figcaption" newText None else EmptyString in
  let titleAttr :=
    match title with
    | Some t => if truthy t then " title=" ++ dq ++ t ++ dq else EmptyString
    | None => EmptyString
    end in
  "<figure><img src=" ++ dq ++ href ++ dq ++ titleAttr
  ++ " alt=" ++ dq ++ text ++ dq ++ "/>" ++ subText ++ "</figure>".

(** [/^https?:\/\/mp\.weixin\.qq\.com/.test(href)]. *)
Definition is_weixin (href : string) : bool :=
  Rx.test (Rx.lit "http" href (fun s1 =>
           Rx.opt_char "s" s1 (fun s2 =>
           Rx.lit "://mp.weixin.qq.com" s2 (fun _ => Some tt)))).

Definition anchor (href : string) (title : option string)
           (text inner : string) : string :=
  "<a href=" ++ dq ++ href ++ dq ++ " title=" ++ dq ++ or_else title text ++ dq
  ++ ">" ++ inner ++ "</a>".

(** The [link] rule; [parsedText] is the result of
    [this.parser.parseInline(tokens)].  The rule may register a footnote,
    so it returns the renderer state as well. *)
Definition link (href : string) (title : option string)
           (text parsedText : string) (r : Renderer) : string * Renderer :=
  if is_weixin href then (anchor href title text parsedText, r)
  else if href =? text then (parsedText, r)
  else if flag (citeStatus (opts r)) then
    let (ref, r') := addFootnote (or_else title text) href r in
    (anchor href title text
       (parsedText ++ "<sup>[" ++ of_nat ref ++ "]</sup>"), r')
  else (anchor href title text parsedText, r).

(** ** The CJK emphasis normaliser

    A node of the Markdown syntax tree: its [type], its [value] when it has
    one and its [children] when it has that property. *)

Inductive node : Type :=
| Node (type : string) (value : option string) (children : option (list node)).

Definition text_node (v : string) : node := Node "text" (Some v) None.
Definition html_node (v : string) : node := Node "html" (Some v) None.

(** [[..].join(E)], [E] the empty string. *)
Definition join (l : list string) : string := String.concat EmptyString l.

(** [extractText(node)]; a missing [value] joins as the empty string. *)
Fixpoint extractText (n : node) : string :=
  match n with
  | Node type value children =>
      if type =? "text" then match value with Some v => v | None => EmptyString end
      else match children with
           | Some cs => join (map extractText cs)
           | None => EmptyString
           end
  end.

(** [visit(node, parent, index)] for a node that has a parent: the node
    left in [parent.children[index]].  The children are visited, and
    replaced in place, before the node itself is looked at. *)
Fixpoint visit (n : node) : node :=
  match n with
  | Node type value children =>
      let n' := Node type value (option_map (map visit) children) in
      if type =? "strong" then
        html_node ("<strong>" ++ extractText n' ++ "</strong>")
      else if type =? "emphasis" then
        html_node ("<em>" ++ extractText n' ++ "</em>")
      else n'
  end.

(** [visit(tree)]: the root has no parent and is never replaced. *)
Definition visit_root (n : node) : node :=
  match n with
  | Node type value children => Node type value (option_map (map visit) children)
  end.

(** What the rewrite is described to do: every [strong]/[emphasis] node is
    replaced by an HTML node around the flattened text of that node. *)
Fixpoint replace_emphasis (n : node) : node :=
  match n with
  | Node type value children =>
      if type =? "strong" then
        html_node ("<strong>" ++ extractText n ++ "</strong>")
      else if type =? "emphasis" then
        html_node ("<em>" ++ extractText n ++ "</em>")
      else Node type value (option_map (map replace_emphasis) children)
  end.

Definition replace_emphasis_root (n : node) : node :=
  match n with
  | Node type value children =>
      Node type value (option_map (map replace_emphasis) children)
  end.

(** All the text of a tree, whatever the node that carries it. *)
Fixpoint all_text (n : node) : string :=
  match n with
  | Node _ value children =>
      match value with Some v => v | None => EmptyString end
      ++ match children with
         | Some cs => join (map all_text cs)
         | None => EmptyString
         end
  end.

(** ** The pipeline around the renderer

    The Markdown parser and serialiser (remark), the front-matter splitter,
    the reading-time estimator and the Markdown engine (marked) are
    libraries: they are parameters here.  Each call to one of them is
    recorded, with its argument, in a log that the pipeline threads. *)

Inductive Call : Type :=
| CallRemarkParse (markdown : string)
| CallFrontMatter (text : string)
| CallReadingTime (text : string)
| CallMarkedParse (markdown : string).

(** A computation that logs the library calls it makes. *)
Definition Logged (A : Type) : Type := A * list Call.

Definition ret {A : Type} (a : A) : Logged A := (a, []).

Definition bind {A B : Type} (m : Logged A) (f : A -> Logged B) : Logged B :=
  let (a, l1) := m in
  let (b, l2) := f a in
  (b, (l1 ++ l2)%list).

Definition call {A : Type} (c : Call) (a : A) : Logged A := (a, [c]).

Definition calls {A : Type} (m : Logged A) : list Call := snd m.
Definition value {A : Type} (m : Logged A) : A := fst m.

Notation "x <- m ;; k" := (bind m (fun x => k))
  (at level 61, m at next level, right associativity).

(** [index] of the first call for which [p] holds. *)
Fixpoint call_index (p : Call -> bool) (l : list Call) : option nat :=
  match l with
  | [] => None
  | c :: l' =>
      if p c then Some 0
      else match call_index p l' with Some n => Some (S n) | None => None end
  end.

Definition is_front_matter (c : Call) : bool :=
  match c with CallFrontMatter _ => true | _ => false end.

Definition is_remark_parse (c : Call) : bool :=
  match c with CallRemarkParse _ => true | _ => false end.

(** The texts the CJK normaliser was run on. *)
Definition normalised_texts (l : list Call) : list string :=
  flat_map (fun c => match c with CallRemarkParse t => [t] | _ => [] end) l.

(** [parseInt(hex, 16)] on a string of hexadecimal digits. *)
Definition hex_value (c : ascii) : nat :=
  let n := nat_of_ascii c in
  if ((48 <=? n) && (n <=? 57))%nat then n - 48
  else if ((65 <=? n) && (n <=? 70))%nat then n - 55
  else n - 87.

Fixpoint parse_hex (acc : nat) (s : string) : nat :=
  match s with
  | EmptyString => acc
  | String c s' => parse_hex (16 * acc + hex_value c) s'
  end.

(** [[0-9A-Fa-f]]. *)
Definition hex_digit (c : ascii) : bool :=
  let n := nat_of_ascii c in
  (((48 <=? n) && (n <=? 57)) || ((65 <=? n) && (n <=? 70))
   || ((97 <=? n) && (n <=? 102)))%nat.

(** [/&#x([0-9A-Fa-f]+);/] at the current position. *)
Definition hex_entity (s : string) : option (string * string) :=
  Rx.lit "&#x" s (fun s1 =>
  Rx.plus hex_digit s1 (fun hex s2 =>
  Rx.lit ";" s2 (fun rest => Some (hex, rest)))).

Record ParseResult (Yaml RT : Type) := mkParseResult {
  yamlData : Yaml;
  markdownContent : string;
  readingTime : RT
}.

Section Pipeline.

Variables Yaml RT : Type.
(** [{}], the metadata of a document without a valid metadata block. *)
Variable empty_yaml : Yaml.
(** [frontMatter(text)]: attributes and body, or an exception. *)
Variable frontMatter : string -> option (Yaml * string).
(** [readingTime(text)]. *)
Variable reading_time : string -> RT.
(** [unified().use(remarkParse).use(remarkCjkFriendly).parse(markdown)]. *)
Variable remark_parse : string -> node.
(** [unified().use(remarkStringify).stringify(tree)]. *)
Variable remark_stringify : node -> string.
(** [marked.parse(markdown)]. *)
Variable marked_parse : string -> string.
(** [String.fromCodePoint(n)]. *)
Variable fromCodePoint : nat -> string.

(** [parseFrontMatterAndContent(markdownText)]. *)
Definition parseFrontMatterAndContent (markdownText : string)
  : Logged (ParseResult Yaml RT) :=
  parsed <- call (CallFrontMatter markdownText) (frontMatter markdownText) ;;
  match parsed with
  | Some (attributes, body) =>
      rt <- call (CallReadingTime body) (reading_time body) ;;
      ret (mkParseResult attributes body rt)
  | None =>
      rt <- call (CallReadingTime markdownText) (reading_time markdownText) ;;
      ret (mkParseResult empty_yaml markdownText rt)
  end.

(** [preprocessCjkEmphasis(markdown)]. *)
Definition preprocessCjkEmphasis (markdown : string) : Logged string :=
  tree <- call (CallRemarkParse markdown) (remark_parse markdown) ;;
  let result := remark_stringify (visit_root tree) in
  ret (Rx.replace_all hex_entity
         (fun hex _ _ => fromCodePoint (parse_hex 0 hex)) result).

(** [renderMarkdown(raw, renderer)] of the stand-alone converter script. *)
Definition renderMarkdown_script (raw : string) : Logged (string * RT) :=
  preprocessed <- preprocessCjkEmphasis raw ;;
  r <- parseFrontMatterAndContent preprocessed ;;
  html <- call (CallMarkedParse (markdownContent r))
               (marked_parse (markdownContent r)) ;;
  ret (html, readingTime r).

(** [renderMarkdown(raw, renderer)] of [md/renderer.ts]. *)
Definition renderMarkdown (raw : string) : Logged (string * RT) :=
  r <- parseFrontMatterAndContent raw ;;
  preprocessed <- preprocessCjkEmphasis (markdownContent r) ;;
  html <- call (CallMarkedParse preprocessed) (marked_parse preprocessed) ;;
  ret (html, readingTime r).

(** The body the front-matter splitter separates off. *)
Definition body_of (text : string) : string :=
  match frontMatter text with
  | Some (_, body) => body
  | None => text
  end.

End Pipeline.

(** ** CSS normalisation *)

Record StyleConfig := mkStyle {
  primaryColor : string;
  fontFamily : string;
  fontSize : string;
  foreground : string;
  blockquoteBackground : string;
  accentColor : string;
  containerBg : string
}.

(** [FONT_FAMILY_MAP.sans]. *)
Definition font_sans : string :=
  "-apple-system-font,BlinkMacSystemFont, Helvetica Neue, PingFang SC, Hiragino Sans GB , Microsoft YaHei UI , Microsoft YaHei ,Arial,sans-serif".

Definition DEFAULT_STYLE : StyleConfig :=
  mkStyle "#0F4C81" font_sans "16px" "0 0% 3.9%" "#f7f7f7" "#6B7280"
          "transparent".

(** [THEME_STYLE_DEFAULTS.modern] over [DEFAULT_STYLE]. *)
Definition MODERN_STYLE : StyleConfig :=
  mkStyle "#D97757" font_sans "15px" "0 0% 3.9%" "rgba(255, 255, 255, 0.6)"
          "#E4B1A0" "rgba(250, 249, 245, 1)".

(** [/--name:\s*[^;Q']+;?/] at the current position, [Q] standing for the
    double quote. *)
Definition declaration (name : string) (s : string) : option (unit * string) :=
  Rx.lit ("--" ++ name ++ ":") s (fun s1 =>
  Rx.star Rx.space s1 (fun _ s2 =>
  Rx.plus (Rx.none_of (";" ++ dq ++ "'")) s2 (fun _ s3 =>
  Rx.opt_char ";" s3 (fun rest => Some (tt, rest))))).

(** [s.replace(/--name:\s*[^;Q']+;?/g, E)], [E] the empty string. *)
Definition strip_declaration (name : string) (s : string) : string :=
  Rx.replace_all (declaration name) (fun _ _ _ => EmptyString) s.

(** [s.replace(/var\(--name\)/g, v)]. *)
Definition resolve_var (name v : string) (s : string) : string :=
  Rx.replace_literal ("var(--" ++ name ++ ")") v s.

(** The custom properties whose declarations [normalizeCssText] strips. *)
Definition stripped_properties : list string :=
  [ "md-primary-color"; "md-font-family"; "md-font-size";
    "blockquote-background"; "md-accent-color"; "md-container-bg";
    "foreground" ].

(** [normalizeCssText(cssText, style)]: the chain of [replace] calls. *)
Definition normalizeCssText (cssText : string) (style : StyleConfig) : string :=
  let s1 := resolve_var "md-primary-color" (primaryColor style) cssText in
  let s2 := resolve_var "md-font-family" (fontFamily style) s1 in
  let s3 := resolve_var "md-font-size" (fontSize style) s2 in
  let s4 := resolve_var "blockquote-background" (blockquoteBackground style) s3 in
  let s5 := resolve_var "md-accent-color" (accentColor style) s4 in
  let s6 := resolve_var "md-container-bg" (containerBg style) s5 in
  let s7 := Rx.replace_literal "hsl(var(--foreground))" "#3f3f3f" s6 in
  let s8 := strip_declaration "md-primary-color" s7 in
  let s9 := strip_declaration "md-font-family" s8 in
  let s10 := strip_declaration "md-font-size" s9 in
  let s11 := strip_declaration "blockquote-background" s10 in
  let s12 := strip_declaration "md-accent-color" s11 in
  let s13 := strip_declaration "md-container-bg" s12 in
  strip_declaration "foreground" s13.

(** [/<style( [^>]* )>( [\s\S]*? )<\/style>/i] at the current position (the
    pattern is written here with a space inside each group). *)
Definition style_block (s : string) : option ((string * string) * string) :=
  Rx.lit_ci "<style" s (fun _ s1 =>
  Rx.star (Rx.none_of ">") s1 (fun attrs s2 =>
  Rx.lit ">" s2 (fun s3 =>
  Rx.star_lazy Rx.any s3 (fun cssText s4 =>
  Rx.lit_ci "</style>" s4 (fun _ rest => Some ((attrs, cssText), rest)))))).

(** [/style=Q( [^Q]* )Q/i] at the current position, [Q] a quote character. *)
Definition style_attribute (q : string) (s : string) : option (string * string) :=
  Rx.lit_ci ("style=" ++ q) s (fun _ s1 =>
  Rx.star (Rx.none_of q) s1 (fun cssText s2 =>
  Rx.lit q s2 (fun rest => Some (cssText, rest)))).

(** [normalizeInlineCss(html, style)]. *)
Definition normalizeInlineCss (html : string) (style : StyleConfig) : string :=
  let output1 :=
    Rx.replace_all style_block
      (fun x _ _ =>
         "<style" ++ fst x ++ ">" ++ normalizeCssText (snd x) style ++ "</style>")
      html in
  let output2 :=
    Rx.replace_all (style_attribute dq)
      (fun cssText _ _ =>
         "style=" ++ dq ++ normalizeCssText cssText style ++ dq)
      output1 in
  Rx.replace_all (style_attribute "'")
    (fun cssText _ _ => "style='" ++ normalizeCssText cssText style ++ "'")
    output2.

(** A textual scan for a remaining reference [var(--..)]. *)
Definition has_var_reference (s : string) : bool := includes "var(--" s.

(** ** HTML structure repair *)

(** The captures of the pattern of [modifyHtmlStructure]. *)
Record LiMatch := mkLiMatch {
  li_attrs : string;    (* $1 *)
  li_content : string;  (* $2 *)
  li_sublist : string;  (* $3 *)
  li_after : string     (* the input after the match *)
}.

(** [<ul[\s\S]*?<\/ul>] (or the same for [ol]) followed by what [k] matches. *)
Definition sublist (open close : string) (s : string)
           (k : string -> string -> option LiMatch) : option LiMatch :=
  Rx.lit_ci open s (fun o s1 =>
  Rx.star_lazy Rx.any s1 (fun body s2 =>
  Rx.lit_ci close s2 (fun c s3 => k (o ++ body ++ c) s3))).

(** [/<li( [^>]* )>( [\s\S]*? )( <ul[\s\S]*?<\/ul>|<ol[\s\S]*?<\/ol> )<\/li>/i]
    at the current position (written with a space inside each group). *)
Definition li_pattern (s : string) : option LiMatch :=
  Rx.lit_ci "<li" s (fun _ s1 =>
  Rx.star (Rx.none_of ">") s1 (fun attrs s2 =>
  Rx.lit ">" s2 (fun s3 =>
  Rx.star_lazy Rx.any s3 (fun content s4 =>
    let closing := fun l s5 =>
      Rx.lit_ci "</li>" s5 (fun _ rest =>
        Some (mkLiMatch attrs content l rest)) in
    Rx.alt (sublist "<ul" "</ul>" s4 closing)
           (sublist "<ol" "</ol>" s4 closing))))).

(** [pattern.test(output)]. *)
Definition li_test (output : string) : bool :=
  Rx.test (Rx.search li_pattern output).

(** [output.replace(pattern, "<li$1>$2</li>$3")]: the first match only. *)
Definition li_replace (output : string) : string :=
  match Rx.search li_pattern output with
  | Some (before, m) =>
      before ++ "<li" ++ li_attrs m ++ ">" ++ li_content m ++ "</li>"
      ++ li_sublist m ++ li_after m
  | None => output
  end.

(** The [while] loop of [modifyHtmlStructure], run for at most [fuel]
    tests of its condition; [None] when the fuel does not suffice. *)
Fixpoint modify_loop (fuel : nat) (output : string) : option string :=
  match fuel with
  | O => None
  | S fuel' =>
      if li_test output then modify_loop fuel' (li_replace output)
      else Some output
  end.

(** The text with its ASCII letters in upper case. *)
Definition up (s : string) : string := map_char Rx.upper s.

(** The sum of the positions at which [w] occurs in [t], positions counted
    from [i]. *)
Fixpoint occ_weight (w : string) (i : nat) (t : string) : nat :=
  match t with
  | EmptyString => 0
  | String _ t' => (if starts_with w t then i else 0) + occ_weight w (S i) t'
  end.

(** The part of [occ_weight w i (a ++ b)] due to the positions inside [a]. *)
Fixpoint weight_in (w : string) (i : nat) (a b : string) : nat :=
  match a with
  | EmptyString => 0
  | String _ a' =>
      (if starts_with w (a ++ b) then i else 0) + weight_in w (S i) a' b
  end.

(** The number of positions inside [a] at which [w] occurs in [a ++ b]. *)
Fixpoint count_in (w : string) (a b : string) : nat :=
  match a with
  | EmptyString => 0
  | String _ a' => (if starts_with w (a ++ b) then 1 else 0) + count_in w a' b
  end.

(** The measure of the repair loop: the sum of the positions at which the
    closing tag of a list item occurs, letter case ignored. *)
Definition li_weight (s : string) : nat := occ_weight "</LI>" 0 (up s).

(** [modifyHtmlStructure(htmlString)], with fuel for one more test than the
    weight of the input. *)
Definition modifyHtmlStructure (htmlString : string) : option string :=
  modify_loop (S (li_weight htmlString)) htmlString.

(** ** The legend policy, as described

    The value a token of the policy stands for, when it has one; the
    caption is the first such value in the order of the tokens. *)

Definition token_value (text title : option string) (token : string)
  : option string :=
  if token =? "alt" then (if otruthy text then text else None)
  else if token =? "title" then (if otruthy title then title else None)
  else None.

Fixpoint first_some {A B : Type} (f : A -> option B) (l : list A) : option B :=
  match l with
  | [] => None
  | a :: l' => match f a with Some b => Some b | None => first_some f l' end
  end.

Definition legend_caption (legend : string) (text title : option string)
  : string :=
  match first_some (token_value text title) (split_on "-" legend) with
  | Some v => v
  | None => EmptyString
  end.

(** A string made of white space only. *)
Fixpoint all_space (s : string) : bool :=
  match s with
  | EmptyString => true
  | String c s' => is_space c && all_space s'
  end.

(** A tree without [strong] or [emphasis] nodes. *)
Fixpoint plain (n : node) : bool :=
  match n with
  | Node type _ children =>
      negb (type =? "strong") && negb (type =? "emphasis")
      && match children with
         | Some cs => forallb plain cs
         | None => true
         end
  end.

(** A tree in which no [strong] or [emphasis] node lies inside another. *)
Fixpoint flat (n : node) : bool :=
  match n with
  | Node type _ children =>
      match children with
      | Some cs =>
          if (type =? "strong") || (type =? "emphasis")
          then forallb plain cs
          else forallb flat cs
      | None => true
      end
  end.

(** Induction on syntax trees, the hypothesis holding of every child. *)
Fixpoint node_induction (P : node -> Prop)
         (leaf : forall t v, P (Node t v None))
         (inner : forall t v cs, Forall P cs -> P (Node t v (Some cs)))
         (n : node) : P n :=
  match n with
  | Node t v None => leaf t v
  | Node t v (Some cs) =>
      inner t v cs
        ((fix all (l : list node) : Forall P l :=
            match l with
            | [] => @Forall_nil node P
            | c :: l' =>
                @Forall_cons node P c l'
                  (@node_induction P leaf inner c) (all l')
            end) cs)
  end.

(** The document the nested-emphasis examples use: a paragraph whose
    [outer] node holds text, an [inner] node and text. *)
Definition nested_emphasis (outer inner : string) : node :=
  Node "root" None (Some [
    Node "paragraph" None (Some [
      Node outer None (Some [
        text_node "foo ";
        Node inner None (Some [text_node "bar"]);
        text_node " baz" ]) ]) ]).

(** ** CSS text as pieces

    The custom properties [normalizeCssText] resolves, the field of the
    style configuration each one stands for, and a CSS text seen as a
    sequence of fragments, references to those properties and the
    colour [hsl(var(--foreground))]. *)

Inductive property : Type :=
| PrimaryColor | FontFamily | FontSize
| BlockquoteBackground | AccentColor | ContainerBg.

Definition property_name (p : property) : string :=
  match p with
  | PrimaryColor => "md-primary-color"
  | FontFamily => "md-font-family"
  | FontSize => "md-font-size"
  | BlockquoteBackground => "blockquote-background"
  | AccentColor => "md-accent-color"
  | ContainerBg => "md-container-bg"
  end.

Definition property_value (style : StyleConfig) (p : property) : string :=
  match p with
  | PrimaryColor => primaryColor style
  | FontFamily => fontFamily style
  | FontSize => fontSize style
  | BlockquoteBackground => blockquoteBackground style
  | AccentColor => accentColor style
  | ContainerBg => containerBg style
  end.


Inductive piece : Type :=
| Text (t : string)
| Var (p : property)
| HslForeground.

Definition render_piece (x : piece) : string :=
  match x with
  | Text t => t
  | Var p => "var(--" ++ property_name p ++ ")"
  | HslForeground => "hsl(var(--foreground))"
  end.

Fixpoint render (ps : list piece) : string :=
  match ps with
  | [] => EmptyString
  | x :: ps' => render_piece x ++ render ps'
  end.




(** Every reference resolved. *)
Definition resolve_piece (style : StyleConfig) (x : piece) : piece :=
  match x with
  | Text t => Text t
  | Var p => Text (property_value style p)
  | HslForeground => Text "#3f3f3f"
  end.

(** The CSS text with its references replaced by their values. *)
Definition resolved (style : StyleConfig) (ps : list piece) : string :=
  render (map (resolve_piece style) ps).






(** [w] and [c] differ at a position both have. *)
Fixpoint clash (w c : string) : bool :=
  match w, c with
  | String a w', String b c' => negb (Ascii.eqb a b) || clash w' c'
  | _, _ => false
  end.

(** [w] clashes with [c] at every position of [c]: it occurs nowhere in
    [c], and no occurrence begins in [c] whatever text follows. *)
Fixpoint all_clash (w c : string) : bool :=
  match c with
  | EmptyString => true
  | String _ c' => clash w c && all_clash w c'
  end.


(** ** Escaping of inline code *)

(** [escapeHtml(text)]: the chain of six [replace] calls. *)
Definition escapeHtml (text : string) : string :=
  let s1 := Rx.replace_literal "&" "&amp;" text in
  let s2 := Rx.replace_literal "<" "&lt;" s1 in
  let s3 := Rx.replace_literal ">" "&gt;" s2 in
  let s4 := Rx.replace_literal dq "&quot;" s3 in
  let s5 := Rx.replace_literal "'" "&#39;" s4 in
  Rx.replace_literal "`" "&#96;" s5.

(** The [codespan] rule. *)
Definition codespan (text : string) : string :=
  styledContent "codespan" (escapeHtml text) (Some "code").

(** Every occurrence of the character [c] replaced by the text [v]. *)
Fixpoint subst_char (c : ascii) (v s : string) : string :=
  match s with
  | EmptyString => EmptyString
  | String d s' =>
      (if Ascii.eqb c d then v else String d EmptyString) ++ subst_char c v s'
  end.

(** The entity that stands for a character, or the character itself. *)
Definition escape_char (c : ascii) : string :=
  if Ascii.eqb "&" c then "&amp;"
  else if Ascii.eqb "<" c then "&lt;"
  else if Ascii.eqb ">" c then "&gt;"
  else if Ascii.eqb (ascii_of_nat 34) c then "&quot;"
  else if Ascii.eqb "'" c then "&#39;"
  else if Ascii.eqb "`" c then "&#96;"
  else String c EmptyString.

Fixpoint escape_chars (s : string) : string :=
  match s with
  | EmptyString => EmptyString
  | String c s' => escape_char c ++ escape_chars s'
  end.

(** The characters [escapeHtml] replaces, the ampersand apart. *)
Definition markup_chars : list ascii :=
  [ "<"%char; ">"%char; ascii_of_nat 34; "'"%char; "`"%char ].

(** ** Lists

    The two stacks of [initRenderer] that number list items: arrays, the
    last element on top. *)

Record ListState := mkListState {
  listOrderedStack : list bool;
  listCounters : list nat
}.

(** [a[a.length - 1]], [undefined] on an empty array. *)
Definition top {A : Type} (a : list A) : option A :=
  match List.rev a with
  | [] => None
  | x :: _ => Some x
  end.

(** [a[a.length - 1] = v]: on an empty array the assignment makes a
    property named -1 and no element. *)
Definition set_top {A : Type} (a : list A) (v : A) : list A :=
  match a with
  | [] => []
  | _ => (removelast a ++ [v])%list
  end.

(** The rendering of the content of a list item by the Markdown engine
    ([this.parser.parseInline(token.tokens)], or on failure
    [this.parser.parse(token.tokens)] without its paragraph tag): it may run
    the list rule for a nested list, so it takes and returns the stacks. *)
Definition Content : Type := ListState -> string * ListState.

Section ListRules.

(** The bullet prefix of an unordered item, a constant of the source made
    of a character above the 8-bit range and a space. *)
Variable bullet : string.

(** The [listitem] rule. *)
Definition listitem (content : Content) (st : ListState) : string * ListState :=
  let ordered := top (listOrderedStack st) in
  let idx := top (listCounters st) in
  let st1 :=
    match idx with
    | Some i => mkListState (listOrderedStack st) (set_top (listCounters st) (i + 1))
    | None => st
    end in
  let prefix :=
    match ordered with
    | Some true =>
        match idx with
        | Some i => of_nat i ++ ". "
        | None => "undefined. "
        end
    | _ => bullet
    end in
  let (text, st2) := content st1 in
  (styledContent "listitem" (prefix ++ text) (Some "li"), st2).

(** [items.map((item) => this.listitem(item)).join(E)], [E] the empty
    string. *)
Fixpoint listitems (items : list Content) (st : ListState)
  : string * ListState :=
  match items with
  | [] => (EmptyString, st)
  | item :: rest =>
      let (html, st1) := listitem item st in
      let (htmls, st2) := listitems rest st1 in
      (html ++ htmls, st2)
  end.

(** The [list] rule; [start] is [Number(start)]. *)
Definition list_rule (ordered : bool) (start : nat) (items : list Content)
           (st : ListState) : string * ListState :=
  let st1 := mkListState (listOrderedStack st ++ [ordered])%list
                         (listCounters st ++ [start])%list in
  let (html, st2) := listitems items st1 in
  let st3 := mkListState (removelast (listOrderedStack st2))
                         (removelast (listCounters st2)) in
  (styledContent (if ordered then "ol" else "ul") html None, st3).

(** The stacks while the item numbered [n] of a list is rendered. *)
Definition in_list (st : ListState) (ordered : bool) (n : nat) : ListState :=
  mkListState (listOrderedStack st ++ [ordered])%list
              (listCounters st ++ [n])%list.

(** The prefix of the item numbered [n]. *)
Definition item_prefix (ordered : bool) (n : nat) : string :=
  if ordered then of_nat n ++ ". " else bullet.

(** The items of a list numbered from [n] on, each content rendered with
    the stacks it finds. *)
Fixpoint numbered_items (ordered : bool) (n : nat) (items : list Content)
         (st : ListState) : string :=
  match items with
  | [] => EmptyString
  | item :: rest =>
      styledContent "listitem"
        (item_prefix ordered n ++ fst (item (in_list st ordered (S n))))
        (Some "li")
      ++ numbered_items ordered (S n) rest st
  end.

End ListRules.

(** A content that leaves the stacks as it found them. *)
Definition balanced (c : Content) : Prop := forall st, snd (c st) = st.

(** ** Settings file and command line *)

(** [s.endsWith(p)]. *)
Definition ends_with (p s : string) : bool :=
  (String.length p <=? String.length s)%nat
  && (drop (String.length s - String.length p) s =? p).

(** [a.includes(x)] on an array of strings. *)
Definition array_includes (a : list string) (x : string) : bool :=
  existsb (String.eqb x) a.

(** What reading a property of an object literal with string values gives:
    the value of an own property, or a member that every object inherits
    from [Object.prototype], which is no string. *)
Inductive Looked :=
| Own (value : string)
| Inherited (name : string).

(** The names of the members of [Object.prototype]. *)
Definition OBJECT_PROTOTYPE : list string :=
  ["constructor"; "__defineGetter__"; "__defineSetter__"; "hasOwnProperty";
   "__lookupGetter__"; "__lookupSetter__"; "isPrototypeOf";
   "propertyIsEnumerable"; "toString"; "valueOf"; "__proto__";
   "toLocaleString"].

(** [o[key]]; [None] is [undefined]. *)
Definition lookup (o : list (string * string)) (key : string)
  : option Looked :=
  match find (fun kv => fst kv =? key) o with
  | Some kv => Some (Own (snd kv))
  | None =>
      if array_includes OBJECT_PROTOTYPE key then Some (Inherited key)
      else None
  end.

Definition FONT_FAMILY_MAP : list (string * string) :=
  [("sans", font_sans);
   ("serif",
    "Optima-Regular, Optima, PingFangSC-light, PingFangTC-light, 'PingFang SC', Cambria, Cochin, Georgia, Times, 'Times New Roman', serif");
   ("serif-cjk",
    dq ++ "Source Han Serif SC" ++ dq ++ ", " ++ dq ++ "Noto Serif CJK SC" ++ dq
    ++ ", " ++ dq ++ "Source Han Serif CN" ++ dq ++ ", STSong, SimSun, serif");
   ("mono", "Menlo, Monaco, 'Courier New', monospace")].

Definition FONT_SIZE_OPTIONS : list string :=
  ["14px"; "15px"; "16px"; "17px"; "18px"].

Definition COLOR_PRESETS : list (string * string) :=
  [("blue", "#0F4C81"); ("green", "#009874"); ("vermilion", "#FA5151");
   ("yellow", "#FECE00"); ("purple", "#92617E"); ("sky", "#55C9EA");
   ("rose", "#B76E79"); ("olive", "#556B2F"); ("black", "#333333");
   ("gray", "#A9A9A9"); ("pink", "#FFB7C5"); ("red", "#A93226");
   ("orange", "#D97757")].

Definition CODE_BLOCK_THEMES : list string :=
  ["1c-light"; "a11y-dark"; "a11y-light"; "agate"; "an-old-hope";
   "androidstudio"; "arduino-light"; "arta"; "ascetic";
   "atom-one-dark-reasonable"; "atom-one-dark"; "atom-one-light";
   "brown-paper"; "codepen-embed"; "color-brewer"; "dark"; "default";
   "devibeans"; "docco"; "far"; "felipec"; "foundation";
   "github-dark-dimmed"; "github-dark"; "github"; "gml"; "googlecode";
   "gradient-dark"; "gradient-light"; "grayscale"; "hybrid"; "idea";
   "intellij-light"; "ir-black"; "isbl-editor-dark"; "isbl-editor-light";
   "kimbie-dark"; "kimbie-light"; "lightfair"; "lioshi"; "magula";
   "mono-blue"; "monokai-sublime"; "monokai"; "night-owl"; "nnfx-dark";
   "nnfx-light"; "nord"; "obsidian"; "panda-syntax-dark";
   "panda-syntax-light"; "paraiso-dark"; "paraiso-light"; "pojoaque";
   "purebasic"; "qtcreator-dark"; "qtcreator-light"; "rainbow"; "routeros";
   "school-book"; "shades-of-purple"; "srcery"; "stackoverflow-dark";
   "stackoverflow-light"; "sunburst"; "tokyo-night-dark"; "tokyo-night-light";
   "tomorrow-night-blue"; "tomorrow-night-bright"; "vs"; "vs2015"; "xcode";
   "xt256"].

(** The values [--legend] accepts. *)
Definition LEGEND_VALUES : list string :=
  ["title-alt"; "alt-title"; "title"; "alt"; "none"].

Module Extend.

(** [Partial<ExtendConfig>]: a property is [None] when it is absent or
    [null]; the code reads them with [??] or as a condition only. *)
Record ExtendConfig := mkExtend {
  default_theme : option string;
  default_color : option string;
  default_font_family : option string;
  default_font_size : option string;
  default_code_theme : option string;
  mac_code_block : option bool;
  show_line_number : option bool;
  cite : option bool;
  count : option bool;
  legend : option string;
  keep_title : option bool
}.

(** The empty object. *)
Definition empty : ExtendConfig :=
  mkExtend None None None None None None None None None None None.

End Extend.

Module Cli.

Record CliOptions := mkCli {
  inputPath : string;
  theme : string;
  keepTitle : bool;
  primaryColor : option Looked;
  fontFamily : option Looked;
  fontSize : option string;
  codeTheme : string;
  isMacCodeBlock : bool;
  isShowLineNumber : bool;
  citeStatus : bool;
  countStatus : bool;
  legend : string
}.

(** Assignments to the variables of [parseArgs]. *)
Definition set_inputPath (v : string) (o : CliOptions) : CliOptions :=
  mkCli v (theme o) (keepTitle o) (primaryColor o) (fontFamily o) (fontSize o)
        (codeTheme o) (isMacCodeBlock o) (isShowLineNumber o) (citeStatus o)
        (countStatus o) (legend o).
Definition set_theme (v : string) (o : CliOptions) : CliOptions :=
  mkCli (inputPath o) v (keepTitle o) (primaryColor o) (fontFamily o)
        (fontSize o) (codeTheme o) (isMacCodeBlock o) (isShowLineNumber o)
        (citeStatus o) (countStatus o) (legend o).
Definition set_keepTitle (v : bool) (o : CliOptions) : CliOptions :=
  mkCli (inputPath o) (theme o) v (primaryColor o) (fontFamily o) (fontSize o)
        (codeTheme o) (isMacCodeBlock o) (isShowLineNumber o) (citeStatus o)
        (countStatus o) (legend o).
Definition set_primaryColor (v : option Looked) (o : CliOptions)
  : CliOptions :=
  mkCli (inputPath o) (theme o) (keepTitle o) v (fontFamily o) (fontSize o)
        (codeTheme o) (isMacCodeBlock o) (isShowLineNumber o) (citeStatus o)
        (countStatus o) (legend o).
Definition set_fontFamily (v : option Looked) (o : CliOptions) : CliOptions :=
  mkCli (inputPath o) (theme o) (keepTitle o) (primaryColor o) v (fontSize o)
        (codeTheme o) (isMacCodeBlock o) (isShowLineNumber o) (citeStatus o)
        (countStatus o) (legend o).
Definition set_fontSize (v : option string) (o : CliOptions) : CliOptions :=
  mkCli (inputPath o) (theme o) (keepTitle o) (primaryColor o) (fontFamily o)
        v (codeTheme o) (isMacCodeBlock o) (isShowLineNumber o) (citeStatus o)
        (countStatus o) (legend o).
Definition set_codeTheme (v : string) (o : CliOptions) : CliOptions :=
  mkCli (inputPath o) (theme o) (keepTitle o) (primaryColor o) (fontFamily o)
        (fontSize o) v (isMacCodeBlock o) (isShowLineNumber o) (citeStatus o)
        (countStatus o) (legend o).
Definition set_isMacCodeBlock (v : bool) (o : CliOptions) : CliOptions :=
  mkCli (inputPath o) (theme o) (keepTitle o) (primaryColor o) (fontFamily o)
        (fontSize o) (codeTheme o) v (isShowLineNumber o) (citeStatus o)
        (countStatus o) (legend o).
Definition set_isShowLineNumber (v : bool) (o : CliOptions) : CliOptions :=
  mkCli (inputPath o) (theme o) (keepTitle o) (primaryColor o) (fontFamily o)
        (fontSize o) (codeTheme o) (isMacCodeBlock o) v (citeStatus o)
        (countStatus o) (legend o).
Definition set_citeStatus (v : bool) (o : CliOptions) : CliOptions :=
  mkCli (inputPath o) (theme o) (keepTitle o) (primaryColor o) (fontFamily o)
        (fontSize o) (codeTheme o) (isMacCodeBlock o) (isShowLineNumber o) v
        (countStatus o) (legend o).
Definition set_countStatus (v : bool) (o : CliOptions) : CliOptions :=
  mkCli (inputPath o) (theme o) (keepTitle o) (primaryColor o) (fontFamily o)
        (fontSize o) (codeTheme o) (isMacCodeBlock o) (isShowLineNumber o)
        (citeStatus o) v (legend o).
Definition set_legend (v : string) (o : CliOptions) : CliOptions :=
  mkCli (inputPath o) (theme o) (keepTitle o) (primaryColor o) (fontFamily o)
        (fontSize o) (codeTheme o) (isMacCodeBlock o) (isShowLineNumber o)
        (citeStatus o) (countStatus o) v.

(** [parseArgValue(argv, i, flag)]; [None] is [null].  [parseArgs] calls it
    with the index of an argument only. *)
Definition parseArgValue (argv : list string) (i : nat) (flag : string)
  : option string :=
  match nth_error argv i with
  | Some arg =>
      if includes "=" arg then Some (drop (String.length flag + 1) arg)
      else nth_error argv (i + 1)
  | None => None
  end.

Definition resolveFontFamily (value : string) : Looked :=
  match lookup FONT_FAMILY_MAP value with
  | Some v => v
  | None => Own value
  end.

Definition resolveColor (value : string) : Looked :=
  match lookup COLOR_PRESETS value with
  | Some v => v
  | None => Own value
  end.

(** [a ?? b]. *)
Definition nullish {T : Type} (a : option T) (b : T) : T :=
  match a with Some v => v | None => b end.

(** The variables of [parseArgs] before its loop. *)
Definition initial (ext : Extend.ExtendConfig) : CliOptions :=
  mkCli EmptyString
        (nullish (Extend.default_theme ext) "default")
        (nullish (Extend.keep_title ext) false)
        (match Extend.default_color ext with
         | Some c => if truthy c then Some (resolveColor c) else None
         | None => None
         end)
        (match Extend.default_font_family ext with
         | Some f => if truthy f then Some (resolveFontFamily f) else None
         | None => None
         end)
        (Extend.default_font_size ext)
        (nullish (Extend.default_code_theme ext) "github")
        (nullish (Extend.mac_code_block ext) true)
        (nullish (Extend.show_line_number ext) false)
        (nullish (Extend.cite ext) false)
        (nullish (Extend.count ext) false)
        (nullish (Extend.legend ext) "alt").

(** What one run of the body of the loop ends with: [continue], after
    which the index moves by one, or by two when the argument took the
    next one as its value ([skip]); or [return null], after a message on
    the error stream or without one. *)
Inductive Step :=
| Continue (o : CliOptions) (skip : bool)
| Return (message : option string).

(** [arg === flag || arg.startsWith(flag + Q=Q)], [Q] the quote. *)
Definition is_flag (flag arg : string) : bool :=
  (arg =? flag) || starts_with (flag ++ "=") arg.

(** The body of the loop of [parseArgs] at index [i]. *)
Definition body (argv : list string) (i : nat) (o : CliOptions) : Step :=
  match nth_error argv i with
  | None => Continue o false
  | Some arg =>
      if negb (starts_with "--" arg) && negb (truthy (inputPath o)) then
        Continue (set_inputPath arg o) false
      else if (arg =? "--help") || (arg =? "-h") then Return None
      else if arg =? "--keep-title" then Continue (set_keepTitle true o) false
      else if arg =? "--mac-code-block" then
        Continue (set_isMacCodeBlock true o) false
      else if arg =? "--no-mac-code-block" then
        Continue (set_isMacCodeBlock false o) false
      else if arg =? "--line-number" then
        Continue (set_isShowLineNumber true o) false
      else if arg =? "--cite" then Continue (set_citeStatus true o) false
      else if arg =? "--count" then Continue (set_countStatus true o) false
      else if is_flag "--theme" arg then
        let val := parseArgValue argv i "--theme" in
        if negb (otruthy val) then Return (Some "Missing value for --theme")
        else Continue (set_theme (nullish val EmptyString) o)
                      (negb (includes "=" arg))
      else if is_flag "--color" arg then
        let val := parseArgValue argv i "--color" in
        if negb (otruthy val) then Return (Some "Missing value for --color")
        else Continue
               (set_primaryColor
                  (Some (resolveColor (nullish val EmptyString))) o)
               (negb (includes "=" arg))
      else if is_flag "--font-family" arg then
        let val := parseArgValue argv i "--font-family" in
        if negb (otruthy val) then
          Return (Some "Missing value for --font-family")
        else Continue
               (set_fontFamily
                  (Some (resolveFontFamily (nullish val EmptyString))) o)
               (negb (includes "=" arg))
      else if is_flag "--font-size" arg then
        let val := parseArgValue argv i "--font-size" in
        if negb (otruthy val) then
          Return (Some "Missing value for --font-size")
        else
          let v := nullish val EmptyString in
          let size := if ends_with "px" v then v else v ++ "px" in
          if negb (array_includes FONT_SIZE_OPTIONS size) then
            Return (Some ("Invalid font size: " ++ size ++ ". Valid: "
                          ++ String.concat ", " FONT_SIZE_OPTIONS))
          else Continue (set_fontSize (Some size) o)
                        (negb (includes "=" arg))
      else if is_flag "--code-theme" arg then
        let val := parseArgValue argv i "--code-theme" in
        if negb (otruthy val) then
          Return (Some "Missing value for --code-theme")
        else
          let v := nullish val EmptyString in
          if negb (array_includes CODE_BLOCK_THEMES v) then
            Return (Some ("Unknown code theme: " ++ v))
          else Continue (set_codeTheme v o) (negb (includes "=" arg))
      else if is_flag "--legend" arg then
        let val := parseArgValue argv i "--legend" in
        if negb (otruthy val) then Return (Some "Missing value for --legend")
        else
          let v := nullish val EmptyString in
          if negb (array_includes LEGEND_VALUES v) then
            Return (Some ("Invalid legend: " ++ v ++ ". Valid: "
                          ++ String.concat ", " LEGEND_VALUES))
          else Continue (set_legend v o) (negb (includes "=" arg))
      else Return (Some ("Unknown argument: " ++ arg))
  end.

(** What [parseArgs] returns: the options, or [null] after a message on
    the error stream or without one. *)
Inductive Parsed :=
| Options (o : CliOptions)
| Null (message : option string).

(** The loop of [parseArgs] from index [i] on, for at most [fuel] runs of
    its body; [None] when the fuel runs out. *)
Fixpoint loop (fuel : nat) (argv : list string) (i : nat) (o : CliOptions)
  : option (CliOptions + option string) :=
  if (length argv <=? i)%nat then Some (inl o)
  else
    match fuel with
    | O => None
    | S fuel' =>
        match body argv i o with
        | Continue o' skip =>
            loop fuel' argv (if skip then i + 1 + 1 else i + 1) o'
        | Return message => Some (inr message)
        end
    end.

Section ParseArgs.

(** The names of the themes found when the program starts. *)
Variable THEME_NAMES : list string.

(** The part of [parseArgs] after its loop. *)
Definition finish (o : CliOptions) : Parsed :=
  if negb (truthy (inputPath o)) then Null None
  else if negb (array_includes THEME_NAMES (theme o)) then
    Null (Some ("Unknown theme: " ++ theme o))
  else Options o.

(** [parseArgs(argv)], [ext] being what [loadExtendConfig()] returns; every
    run of the body moves the index, so the length of [argv] is fuel
    enough. *)
Definition parseArgs (ext : Extend.ExtendConfig) (argv : list string)
  : option Parsed :=
  match loop (length argv) argv 0 (initial ext) with
  | Some (inl o) => Some (finish o)
  | Some (inr message) => Some (Null message)
  | None => None
  end.

End ParseArgs.

End Cli.

(** ** The list of footnotes *)

(** The line feed, as a one-character string. *)
Definition lf : string := String (ascii_of_nat 10) EmptyString.

(** The line of one footnote in [buildFootnoteArray]. *)
Definition footnote_line (f : Footnote) : string :=
  if fn_link f =? fn_title f then
    "<code style=" ++ dq ++ "font-size: 90%; opacity: 0.6;" ++ dq ++ ">["
    ++ of_nat (fn_index f) ++ "]</code>: <i style=" ++ dq
    ++ "word-break: break-all" ++ dq ++ ">" ++ fn_title f ++ "</i><br/>"
  else
    "<code style=" ++ dq ++ "font-size: 90%; opacity: 0.6;" ++ dq ++ ">["
    ++ of_nat (fn_index f) ++ "]</code> " ++ fn_title f ++ ": <i style=" ++ dq
    ++ "word-break: break-all" ++ dq ++ ">" ++ fn_link f ++ "</i><br/>".

(** [buildFootnoteArray(footnotes)]. *)
Definition buildFootnoteArray (footnotes : list Footnote) : string :=
  String.concat lf (map footnote_line footnotes).

Section Footnotes.

(** The heading over the footnotes, a constant of the source made of
    characters above the 8-bit range. *)
Variable footnotes_heading : string.

(** [buildFootnotes()]. *)
Definition buildFootnotes (r : Renderer) : string :=
  match footnotes r with
  | [] => EmptyString
  | _ =>
      styledContent "h4" footnotes_heading None
      ++ styledContent "footnotes" (buildFootnoteArray (footnotes r))
           (Some "p")
  end.

End Footnotes.

(** ** The settings file *)

(** [s.indexOf(c)] for one character; [None] is -1. *)
Fixpoint index_of (c : ascii) (s : string) : option nat :=
  match s with
  | EmptyString => None
  | String d s' =>
      if Ascii.eqb d c then Some 0
      else match index_of c s' with
           | Some n => Some (S n)
           | None => None
           end
  end.

(** [s.slice(0, n)]. *)
Fixpoint take (n : nat) (s : string) : string :=
  match n, s with
  | S n', String c s' => String c (take n' s')
  | _, _ => EmptyString
  end.

(** [s.replace(re, ..)] under the [g] flag as [Rx.replace_go] has it, for a
    pattern with the anchor [^]: the matcher is given the input already
    scanned, empty at the start of the input only. *)
Fixpoint replace_anchored_go (X : Type)
         (m : string -> string -> option (X * string))
         (rep : X -> string -> string -> string)
         (skip : nat) (before s : string) : string :=
  match s with
  | EmptyString => EmptyString
  | String c s' =>
      let before' := before ++ String c EmptyString in
      match skip with
      | S n => replace_anchored_go m rep n before' s'
      | O =>
          match m before s with
          | Some (x, rest) =>
              rep x before rest
              ++ replace_anchored_go m rep
                   (String.length s - String.length rest - 1) before' s'
          | None => String c (replace_anchored_go m rep 0 before' s')
          end
      end
  end.

(** The class of the two quote characters. *)
Definition is_quote (c : ascii) : bool :=
  Ascii.eqb c "'" || Ascii.eqb c (ascii_of_nat 34).

(** [/^[Q']|[Q']$/], [Q] standing for the double quote, at the current
    position. *)
Definition quote_at_edge (before s : string) : option (unit * string) :=
  Rx.alt
    (match before with
     | EmptyString => Rx.one is_quote s (fun r => Some (tt, r))
     | String _ _ => None
     end)
    (Rx.one is_quote s (fun r => Rx.eoi r (Some (tt, r)))).

(** [value.replace(/^[Q']|[Q']$/g, E)], [E] the empty string. *)
Definition strip_edge_quotes (value : string) : string :=
  replace_anchored_go quote_at_edge (fun _ _ _ => EmptyString) 0
                      EmptyString value.

(** The chain of assignments at the end of the loop body of
    [parseExtendYaml]. *)
Definition assign (key value : string) (config : Extend.ExtendConfig)
  : Extend.ExtendConfig :=
  match config with
  | Extend.mkExtend theme color family size code mac line cite count legend
                    keep =>
      if key =? "default_theme" then
        Extend.mkExtend (Some value) color family size code mac line cite
                        count legend keep
      else if key =? "default_color" then
        Extend.mkExtend theme (Some value) family size code mac line cite
                        count legend keep
      else if key =? "default_font_family" then
        Extend.mkExtend theme color (Some value) size code mac line cite
                        count legend keep
      else if key =? "default_font_size" then
        Extend.mkExtend theme color family
                        (Some (if ends_with "px" value then value
                               else value ++ "px"))
                        code mac line cite count legend keep
      else if key =? "default_code_theme" then
        Extend.mkExtend theme color family size (Some value) mac line cite
                        count legend keep
      else if key =? "mac_code_block" then
        Extend.mkExtend theme color family size code (Some (value =? "true"))
                        line cite count legend keep
      else if key =? "show_line_number" then
        Extend.mkExtend theme color family size code mac
                        (Some (value =? "true")) cite count legend keep
      else if key =? "cite" then
        Extend.mkExtend theme color family size code mac line
                        (Some (value =? "true")) count legend keep
      else if key =? "count" then
        Extend.mkExtend theme color family size code mac line cite
                        (Some (value =? "true")) legend keep
      else if key =? "legend" then
        Extend.mkExtend theme color family size code mac line cite count
                        (Some value) keep
      else if key =? "keep_title" then
        Extend.mkExtend theme color family size code mac line cite count
                        legend (Some (value =? "true"))
      else config
  end.

(** The body of the loop of [parseExtendYaml] for one line. *)
Definition parse_line (line : string) (config : Extend.ExtendConfig)
  : Extend.ExtendConfig :=
  let trimmed := trim line in
  if negb (truthy trimmed) || starts_with "#" trimmed then config
  else
    match index_of ":" trimmed with
    | None => config
    | Some colonIdx =>
        let key := trim (take colonIdx trimmed) in
        let value :=
          strip_edge_quotes (trim (drop (colonIdx + 1) trimmed)) in
        if (value =? "null") || (value =? EmptyString) then config
        else assign key value config
    end.

(** [parseExtendYaml(yaml)]. *)
Definition parseExtendYaml (yaml : string) : Extend.ExtendConfig :=
  fold_left (fun config line => parse_line line config)
            (split_on (ascii_of_nat 10) yaml) Extend.empty.

(** What [parseExtendYaml] keeps true of the settings it collects. *)
Definition settings_ok (c : Extend.ExtendConfig) : Prop :=
  (forall v,
     In (Some v) [Extend.default_theme c; Extend.default_color c;
                  Extend.default_font_family c; Extend.default_font_size c;
                  Extend.default_code_theme c; Extend.legend c] ->
     v <> EmptyString /\ v <> "null")
  /\ (forall v, Extend.default_font_size c = Some v ->
                ends_with "px" v = true).

(** ** The first heading *)

(** The [heading] rule; [text] is the result of
    [this.parser.parseInline(tokens)]. *)
Definition heading (depth : nat) (text : string) : string :=
  styledContent ("h" ++ of_nat depth) text None.

(** The class [[12]]. *)
Definition one_or_two (c : ascii) : bool :=
  Ascii.eqb c "1" || Ascii.eqb c "2".

(** [/<h[12][^>]*>[\s\S]*?<\/h[12]>/] at the current position; the result
    is the input left after the match. *)
Definition heading_pattern (s : string) : option string :=
  Rx.lit "<h" s (fun s1 =>
  Rx.one one_or_two s1 (fun s2 =>
  Rx.star (Rx.none_of ">") s2 (fun _ s3 =>
  Rx.lit ">" s3 (fun s4 =>
  Rx.star_lazy Rx.any s4 (fun _ s5 =>
  Rx.lit "</h" s5 (fun s6 =>
  Rx.one one_or_two s6 (fun s7 =>
  Rx.lit ">" s7 (fun rest => Some rest)))))))).

(** [removeFirstHeading(html)]: the first match is replaced by the empty
    string. *)
Definition removeFirstHeading (html : string) : string :=
  match Rx.search heading_pattern html with
  | Some (before, after) => before ++ after
  | None => html
  end.

(** ** The scope of the theme style sheets *)

(** [/#output\s*\{/] at the current position. *)
Definition output_block (s : string) : option (unit * string) :=
  Rx.lit "#output" s (fun s1 =>
  Rx.star Rx.space s1 (fun _ s2 =>
  Rx.lit "{" s2 (fun rest => Some (tt, rest)))).

(** [/#output\s+/] at the current position. *)
Definition output_prefix (s : string) : option (unit * string) :=
  Rx.lit "#output" s (fun s1 =>
  Rx.plus Rx.space s1 (fun _ rest => Some (tt, rest))).

(** [^] under the [m] flag: the start of the input or the position behind
    a line feed or a carriage return; [before] is the input before the
    position. *)
Definition line_start (before : string) : bool :=
  match Str.rev before with
  | EmptyString => true
  | String c _ => Ascii.eqb c (ascii_of_nat 10) || Ascii.eqb c (ascii_of_nat 13)
  end.

(** [/^#output\s*/m] at the current position. *)
Definition output_line (before s : string) : option (unit * string) :=
  if line_start before then
    Rx.lit "#output" s (fun s1 =>
    Rx.star Rx.space s1 (fun _ rest => Some (tt, rest)))
  else None.

(** [stripOutputScope(cssContent)], also [normalizeThemeCss(css)]. *)
Definition stripOutputScope (cssContent : string) : string :=
  let css1 :=
    Rx.replace_all output_block (fun _ _ _ => "body {") cssContent in
  let css2 := Rx.replace_all output_prefix (fun _ _ _ => EmptyString) css1 in
  replace_anchored_go output_line (fun _ _ _ => EmptyString) 0 EmptyString
                      css2.

(** A text that does not begin with white space or an opening brace. *)
Definition selector_start (rest : string) : bool :=
  match rest with
  | EmptyString => true
  | String c _ => negb (is_space c) && negb (Ascii.eqb c "{")
  end.

(** ** The themes on disk

    The file system is read through [fs.existsSync] and [fs.readdirSync];
    what these return when the program starts is given. *)

Definition FALLBACK_THEMES : list string := ["default"; "grace"; "simple"].

(** Which of the two theme directories a file was found in. *)
Inductive ThemeDir := Local | External.

(** What [loadThemeCss] ends with: the files it reads, or one of its two
    errors. *)
Inductive ThemeCss :=
| Loaded (basePath themePath : ThemeDir)
| Missing_base
| Missing_theme.

Section Themes.

(** [fs.existsSync] on the style sheet of a theme name in [THEME_DIR] and
    in [EXTERNAL_THEME_DIR], and on [base.css] in the two. *)
Variable local_css external_css : string -> bool.
Variable local_base external_base : bool.

(** [discoverThemesFromDir] of the two directories and
    [readThemeNamesFromConfig]. *)
Variable localThemes externalThemes configThemes : list string.

(** [candidates.find(fs.existsSync)] on the two candidates. *)
Definition find_candidate (local external : bool) : option ThemeDir :=
  if local then Some Local else if external then Some External else None.

(** [resolveThemeNames()]; a [Set] keeps its members in the order of
    insertion, each once. *)
Definition resolveThemeNames : list string :=
  let combined :=
    first_seen (localThemes ++ externalThemes ++ configThemes)%list in
  let resolved :=
    filter (fun name => local_css name || external_css name) combined in
  match resolved with
  | [] => FALLBACK_THEMES
  | _ => resolved
  end.

(** [loadThemeCss(theme)]. *)
Definition loadThemeCss (theme : string) : ThemeCss :=
  match find_candidate local_base external_base with
  | None => Missing_base
  | Some basePath =>
      match find_candidate (local_css theme) (external_css theme) with
      | None => Missing_theme
      | Some themePath => Loaded basePath themePath
      end
  end.

End Themes.

(** ** Loading the settings file *)

(** [$] under the [m] flag: the end of the input or the position before a
    line feed or a carriage return. *)
Definition line_end (s : string) : bool :=
  match s with
  | EmptyString => true
  | String c _ => Ascii.eqb c (ascii_of_nat 10) || Ascii.eqb c (ascii_of_nat 13)
  end.

(** An unanchored match as [Rx.search] has it, for a pattern with the
    anchor [^]: the matcher is given the input before the position. *)
Fixpoint search_anchored (R : Type) (m : string -> string -> option R)
         (before s : string) : option R :=
  match m before s with
  | Some r => Some r
  | None =>
      match s with
      | String c s' => search_anchored m (before ++ String c EmptyString) s'
      | EmptyString => None
      end
  end.

(** [/^---\s*\n([\s\S]*?)\n---\s*$/m] at the current position; the result
    is the text of the group. *)
Definition front_matter (before s : string) : option string :=
  if line_start before then
    Rx.lit "---" s (fun s1 =>
    Rx.star Rx.space s1 (fun _ s2 =>
    Rx.lit lf s2 (fun s3 =>
    Rx.star_lazy Rx.any s3 (fun yaml s4 =>
    Rx.lit (lf ++ "---") s4 (fun s5 =>
    Rx.star Rx.space s5 (fun _ s6 =>
    if line_end s6 then Some yaml else None))))))
  else None.

(** [extractYamlFrontMatter(content)]; [None] is [null]. *)
Definition extractYamlFrontMatter (content : string) : option string :=
  search_anchored front_matter EmptyString content.

(** [loadExtendConfig()]; [files] holds, for the settings file of the
    working directory and then for the one of the home directory, the
    content [fs.readFileSync] returns, or [None] when it throws. *)
Fixpoint loadExtendConfig (files : list (option string))
  : Extend.ExtendConfig :=
  match files with
  | [] => Extend.empty
  | file :: rest =>
      match file with
      | None => loadExtendConfig rest
      | Some content =>
          match extractYamlFrontMatter content with
          | Some yaml =>
              if truthy yaml then parseExtendYaml yaml
              else loadExtendConfig rest
          | None => loadExtendConfig rest
          end
      end
  end.

(** ** The base address of the image service *)

(** [/\/+$/] at the current position. *)
Definition trailing_slashes (s : string) : option (unit * string) :=
  Rx.plus (fun c => Ascii.eqb c "/") s (fun _ rest =>
  Rx.eoi rest (Some (tt, rest))).

(** [getBaseUrl()]; [env] is [process.env.DASHSCOPE_BASE_URL], [None]
    when the variable is not set. *)
Definition getBaseUrl (env : option string) : string :=
  let base := or_else env "https://dashscope.aliyuncs.com" in
  Rx.replace_all trailing_slashes (fun _ _ _ => EmptyString) base.

(** A run of [n] slashes. *)
Fixpoint slashes (n : nat) : string :=
  match n with
  | O => EmptyString
  | S n' => String "/" (slashes n')
  end.

(** A text that does not end with a slash. *)
Definition open_end (s : string) : bool :=
  match Str.rev s with
  | String c _ => negb (Ascii.eqb c "/")
  | EmptyString => true
  end.

(** ** Model names of the second image service *)

Module Replicate.

Record ModelId := mkModelId {
  owner : string;
  name : string;
  version : option string
}.

(** The message of the error of [parseModelId]. *)
Definition invalid_format (model : string) : string :=
  "Invalid Replicate model format: " ++ dq ++ model ++ dq ++ ". Expected "
  ++ dq ++ "owner/name" ++ dq ++ " or " ++ dq ++ "owner/name:version" ++ dq
  ++ ".".

(** [parseModelId(model)]; the right side is the message of the error
    thrown.  [split] returns one piece at least; the destructuring takes
    the first piece and the second, [undefined] when there is none. *)
Definition parseModelId (model : string) : ModelId + string :=
  match split_on ":" model with
  | [] => inr (invalid_format model)
  | ownerName :: rest =>
      let version := hd_error rest in
      match split_on "/" ownerName with
      | [a; b] =>
          if negb (truthy a) || negb (truthy b) then
            inr (invalid_format model)
          else
            inl (mkModelId a b (if otruthy version then version else None))
      | _ => inr (invalid_format model)
      end
  end.

End Replicate.

(** ** CSS text with declarations

    A CSS text seen as a sequence of fragments and declarations
    [--name:value;] of custom properties.  On such a text, stripping the
    declarations is keeping the fragments: [without_declarations] says so
    without the patterns of [normalizeCssText], and is what the result of
    the function is compared with. *)






(** No declaration of a stripped property begins in the text. *)
Definition declares_none (s : string) : bool :=
  forallb (fun name => negb (includes ("--" ++ name ++ ":") s))
          stripped_properties.




(** The seven patterns [normalizeCssText] replaces by a value. *)
Definition resolved_references : list string :=
  [ "var(--md-primary-color)"; "var(--md-font-family)"; "var(--md-font-size)";
    "var(--blockquote-background)"; "var(--md-accent-color)";
    "var(--md-container-bg)"; "hsl(var(--foreground))" ].

(** A text in which none of the fourteen patterns of [normalizeCssText]
    finds a match: none of its seven references, and no beginning
    [--name:] of a declaration of a stripped property. *)
Definition out_of_reach (s : string) : bool :=
  forallb (fun w => negb (includes w s)) resolved_references
  && declares_none s.

(** * Properties *)

Unset Implicit Arguments.

(** ** The footnote registry *)

Section Registry.

Lemma registry_ok_init (o : IOpts) : registry_ok (initRenderer o).
Proof. split; simpl; auto. constructor. Qed.

Lemma find_link_none (l : string) (fs : list Footnote) :
  find (fun f => fn_link f =? l) fs = None <-> ~ In l (map fn_link fs).
Proof.
  induction fs as [|f fs IH]; simpl.
  - tauto.
  - destruct (String.eqb_spec (fn_link f) l) as [E|E].
    + split; [discriminate | intros H; exfalso; apply H; now left].
    + rewrite IH. tauto.
Qed.

Lemma find_link_unique (l : string) (fs : list Footnote) i t :
  NoDup (map fn_link fs) -> In (i, t, l) fs ->
  find (fun f => fn_link f =? l) fs = Some (i, t, l).
Proof.
  induction fs as [|f fs IH]; simpl; intros ND HI; [contradiction|].
  inversion ND as [|? ? Hn ND']; subst.
  destruct HI as [->|HI].
  - unfold fn_link at 1; simpl. now rewrite String.eqb_refl.
  - destruct (String.eqb_spec (fn_link f) l) as [E|E].
    + exfalso. apply Hn. rewrite E.
      change l with (fn_link (i, t, l)). now apply in_map.
    + now apply IH.
Qed.

Lemma addFootnote_known title l r i t :
  NoDup (map fn_link (footnotes r)) -> In (i, t, l) (footnotes r) ->
  addFootnote title l r = (i, r).
Proof.
  intros ND HI. unfold addFootnote.
  now rewrite (find_link_unique _ _ _ _ ND HI).
Qed.

Lemma addFootnote_new title l r :
  ~ In l (map fn_link (footnotes r)) ->
  addFootnote title l r =
    (S (footnoteIndex r),
     mkRenderer (footnotes r ++ [(S (footnoteIndex r), title, l)])%list
                (S (footnoteIndex r)) (opts r)).
Proof.
  intros HN. unfold addFootnote.
  apply find_link_none in HN. now rewrite HN.
Qed.

Lemma registry_ok_addFootnote title l r :
  registry_ok r -> registry_ok (snd (addFootnote title l r)).
Proof.
  intros [Hd Hc Hu]. unfold addFootnote.
  destruct (find _ _) eqn:F; simpl; [now split|].
  apply find_link_none in F.
  split; simpl.
  - rewrite map_app, length_app, Hd, Hc. simpl.
    rewrite Nat.add_1_r, seq_S. reflexivity.
  - rewrite length_app. simpl. lia.
  - rewrite map_app. simpl. apply NoDup_app; auto.
    + constructor; [intros []|constructor].
    + intros a Ha [<-|[]]. contradiction.
Qed.

Lemma registry_ok_cite_all cs : forall r,
  registry_ok r -> registry_ok (snd (cite_all cs r)).
Proof.
  induction cs as [|[title l] cs IH]; intros r Hr; simpl; auto.
  pose proof (registry_ok_addFootnote title l r Hr) as H1.
  destruct (addFootnote title l r) as [i r1]. simpl in H1.
  specialize (IH r1 H1).
  destruct (cite_all cs r1) as [rest r2]. exact IH.
Qed.

Lemma existsb_link (l : string) (fs : list Footnote) :
  existsb (fun k => k =? l) (map fn_link fs) =
  match find (fun f => fn_link f =? l) fs with Some _ => true | None => false end.
Proof.
  induction fs as [|f fs IH]; simpl; auto.
  destruct (fn_link f =? l); simpl; auto.
Qed.

Lemma links_addFootnote title l r :
  map fn_link (footnotes (snd (addFootnote title l r))) =
  see (map fn_link (footnotes r)) l.
Proof.
  unfold addFootnote, see. rewrite existsb_link.
  destruct (find _ _); simpl; auto.
  now rewrite map_app.
Qed.

Lemma links_cite_all cs : forall r,
  map fn_link (footnotes (snd (cite_all cs r))) =
  fold_left see (map snd cs) (map fn_link (footnotes r)).
Proof.
  induction cs as [|[title l] cs IH]; intros r; simpl; auto.
  rewrite <- links_addFootnote with (title := title).
  destruct (addFootnote title l r) as [i r1]. simpl.
  rewrite <- IH. now destruct (cite_all cs r1).
Qed.

End Registry.

(** C1.  After any sequence of registrations made from a fresh renderer, the
    registry holds each link once, its indices are 1, 2, .., n in that
    order, its links are those cited in order of first appearance, and the
    next registration either returns the index stored with a link already
    present and leaves the registry as it is, or appends one entry whose
    index is the new length of the registry. *)
Theorem footnote_registry_invariant :
  forall (o : IOpts) (cs : list (string * string)),
    let r := snd (cite_all cs (initRenderer o)) in
    NoDup (map fn_link (footnotes r))
    /\ map fn_index (footnotes r) = seq 1 (length (footnotes r))
    /\ footnoteIndex r = length (footnotes r)
    /\ map fn_link (footnotes r) = first_seen (map snd cs)
    /\ forall title link,
        (forall i t, In (i, t, link) (footnotes r) ->
                     addFootnote title link r = (i, r))
        /\ (In link (map fn_link (footnotes r)) ->
            exists i t, In (i, t, link) (footnotes r))
        /\ (~ In link (map fn_link (footnotes r)) ->
            let n := S (length (footnotes r)) in
            addFootnote title link r =
              (n, mkRenderer (footnotes r ++ [(n, title, link)])%list n (opts r))
            /\ length (footnotes (snd (addFootnote title link r))) = n).
Proof.
  intros o cs r.
  assert (Hr : registry_ok r)
    by (apply registry_ok_cite_all, registry_ok_init).
  destruct Hr as [Hd Hc Hu].
  repeat split; auto.
  - unfold r. rewrite links_cite_all. reflexivity.
  - intros i t HI. now apply addFootnote_known with (t := t).
  - intros HI. apply in_map_iff in HI. destruct HI as [[[i t] l] [E HI]].
    unfold fn_link in E; simpl in E; subst l. now exists i, t.
  - rewrite (addFootnote_new title _ _ H), Hc. reflexivity.
  - rewrite (addFootnote_new title _ _ H). simpl. rewrite length_app. simpl. lia.
Qed.

(** After two links are registered, citing the first again returns index 1
    and leaves the registry alone; a third link becomes entry 3. *)
Lemma footnote_registry_invariant_witness :
  let r := snd (cite_all [("A", "https://a.example"); ("B", "https://b.example")]
                         (initRenderer no_opts)) in
  addFootnote "A once more" "https://a.example" r = (1, r)
  /\ fst (addFootnote "C" "https://c.example" r) = 3
  /\ length (footnotes (snd (addFootnote "C" "https://c.example" r))) = 3.
Proof.
  intros r.
  destruct (footnote_registry_invariant no_opts
              [("A", "https://a.example"); ("B", "https://b.example")])
    as (_ & _ & _ & _ & H).
  fold r in H. split.
  - apply (proj1 (H "A once more" "https://a.example") 1 "A").
    simpl. left. reflexivity.
  - destruct (H "C" "https://c.example") as (_ & _ & Hnew).
    assert (N : ~ In "https://c.example" (map fn_link (footnotes r))).
    { simpl. intros [E|[E|[]]]; discriminate E. }
    destruct (Hnew N) as [E L]. split; [now rewrite E | exact L].
Defined.

(** Citing one link twice gives one entry and the same index twice; two
    distinct links get 1 and 2. *)
Example cite_twice :
  let r := initRenderer no_opts in
  fst (cite_all [("A", "https://a.example"); ("A again", "https://a.example")] r)
    = [1; 1]
  /\ footnotes (snd (cite_all [("A", "https://a.example");
                               ("A again", "https://a.example")] r))
     = [(1, "A", "https://a.example")]
  /\ fst (cite_all [("A", "https://a.example"); ("B", "https://b.example")] r)
     = [1; 2].
Proof. repeat split. Qed.

(** ** Reset *)

Lemma spread1_present {T : Type} (a : slot T) (v : option T) :
  spread1 a (Some v) = Some v.
Proof. reflexivity. Qed.

Lemma spread1_absent {T : Type} (a : slot T) : spread1 a None = a.
Proof. reflexivity. Qed.

(** C9.  [reset] leaves the renderer in the state of a renderer just created
    with the merged options: the registry is empty and the counter is 0,
    whatever was registered before, so the first link cited afterwards gets
    index 1 and is the only entry; every option takes the value supplied,
    when the property is supplied, and keeps the current one otherwise. *)
Theorem reset_clears_registry :
  forall (newOpts : IOpts) (r : Renderer),
    footnotes (reset newOpts r) = []
    /\ footnoteIndex (reset newOpts r) = 0
    /\ reset newOpts r = initRenderer (spread (opts r) newOpts)
    /\ (forall title link,
          fst (addFootnote title link (reset newOpts r)) = 1
          /\ footnotes (snd (addFootnote title link (reset newOpts r)))
             = [(1, title, link)])
    /\ (forall o cs1 cs2,
          r = snd (cite_all cs1 (initRenderer o)) ->
          fst (cite_all cs2 (reset newOpts r))
          = fst (cite_all cs2 (initRenderer (spread (opts r) newOpts))))
    /\ legend (opts (reset newOpts r))
       = match legend newOpts with Some v => Some v | None => legend (opts r) end
    /\ citeStatus (opts (reset newOpts r))
       = match citeStatus newOpts with
         | Some v => Some v | None => citeStatus (opts r) end
    /\ countStatus (opts (reset newOpts r))
       = match countStatus newOpts with
         | Some v => Some v | None => countStatus (opts r) end
    /\ isMacCodeBlock (opts (reset newOpts r))
       = match isMacCodeBlock newOpts with
         | Some v => Some v | None => isMacCodeBlock (opts r) end
    /\ isShowLineNumber (opts (reset newOpts r))
       = match isShowLineNumber newOpts with
         | Some v => Some v | None => isShowLineNumber (opts r) end
    /\ themeMode (opts (reset newOpts r))
       = match themeMode newOpts with
         | Some v => Some v | None => themeMode (opts r) end.
Proof.
  intros newOpts r. repeat split.
Qed.

(** A second render on the same instance starts at index 1 again. *)
Lemma reset_clears_registry_witness :
  let r1 := snd (cite_all [("A", "https://a.example"); ("B", "https://b.example")]
                          (initRenderer no_opts)) in
  let r2 := reset (mkOpts None (Some (Some true)) None None None None) r1 in
  length (footnotes r1) = 2
  /\ fst (cite_all [("C", "https://c.example")] r2) = [1]
  /\ citeStatus (opts r2) = Some (Some true).
Proof.
  intros r1 r2.
  destruct (reset_clears_registry
              (mkOpts None (Some (Some true)) None None None None) r1)
    as (_ & _ & _ & _ & H & _).
  split; [reflexivity|]. split; [|reflexivity].
  apply (H no_opts [("A", "https://a.example"); ("B", "https://b.example")]
           [("C", "https://c.example")]).
  reflexivity.
Defined.

(** ** The link rule *)

Lemma lit_eq {R : Type} (w s : string) (k : string -> option R) :
  Rx.lit w s k =
  if starts_with w s then k (drop (String.length w) s) else None.
Proof.
  revert s. induction w as [|a w IH]; intros s; simpl.
  - now destruct s.
  - destruct s as [|b s]; auto.
    destruct (Ascii.eqb a b); simpl; auto.
Qed.

Lemma starts_with_app (a b s : string) :
  starts_with (a ++ b) s =
  starts_with a s && starts_with b (drop (String.length a) s).
Proof.
  revert s. induction a as [|c a IH]; intros s; simpl.
  - now destruct s.
  - destruct s as [|d s]; auto.
    rewrite IH. now rewrite andb_assoc.
Qed.

(** The platform test accepts the addresses that start with the platform's
    host under either scheme. *)
Lemma is_weixin_spec (href : string) :
  is_weixin href =
  starts_with "http://mp.weixin.qq.com" href
  || starts_with "https://mp.weixin.qq.com" href.
Proof.
  unfold is_weixin. rewrite lit_eq.
  change "http://mp.weixin.qq.com" with ("http" ++ "://mp.weixin.qq.com").
  change "https://mp.weixin.qq.com"
    with ("http" ++ String "s" "://mp.weixin.qq.com").
  rewrite !starts_with_app.
  destruct (starts_with "http" href); [|reflexivity].
  change (String.length "http") with 4.
  generalize (drop 4 href) as s. intros s.
  rewrite !andb_true_l. unfold Rx.opt_char.
  set (host := "://mp.weixin.qq.com").
  destruct s as [|c s]; [reflexivity|].
  rewrite !lit_eq.
  change (starts_with (String "s" host) (String c s))
    with (Ascii.eqb "s" c && starts_with host s).
  destruct (Ascii.eqb "s" c) eqn:Es.
  - apply Ascii.eqb_eq in Es. subst c.
    change (starts_with host (String "s" s)) with false.
    now destruct (starts_with host s).
  - rewrite andb_false_l, orb_false_r.
    now destruct (starts_with host (String c s)).
Qed.

(** C5, as the code has it.  A link whose visible text equals its address,
    and whose address does not point at the publishing platform, is rendered
    as its parsed inline text alone, whatever the citation mode, and
    registers no footnote; when the address points at the platform the rule
    returns an anchor instead. *)
Theorem link_text_equals_href :
  forall (href : string) (title : option string) (parsedText : string)
         (r : Renderer),
    (is_weixin href = false ->
       link href title href parsedText r = (parsedText, r))
    /\ (is_weixin href = true ->
       link href title href parsedText r
       = (anchor href title href parsedText, r)).
Proof.
  intros href title parsedText r. unfold link.
  split; intros ->; [now rewrite String.eqb_refl | reflexivity].
Qed.

Lemma link_text_equals_href_witness :
  let r := initRenderer (mkOpts None (Some (Some true)) None None None None) in
  is_weixin "https://example.com/a" = false
  /\ link "https://example.com/a" None "https://example.com/a"
          "https://example.com/a" r
     = ("https://example.com/a", r).
Proof.
  intros r. split; [reflexivity|].
  apply (proj1 (link_text_equals_href "https://example.com/a" None
                  "https://example.com/a" r)).
  reflexivity.
Defined.

(** A link to the publishing platform whose text is its address keeps its
    anchor. *)
Lemma link_weixin_keeps_anchor :
  let w := "https://mp.weixin.qq.com/s/abc" in
  fst (link w None w w (initRenderer no_opts))
  = "<a href=" ++ dq ++ w ++ dq ++ " title=" ++ dq ++ w ++ dq ++ ">" ++ w ++ "</a>"
  /\ fst (link w None w w (initRenderer no_opts)) <> w
  /\ includes "<a " (fst (link w None w w (initRenderer no_opts))) = true.
Proof.
  cbv zeta. repeat split. vm_compute. discriminate.
Qed.

(** ** The legend policy *)

Lemma split_on_nonempty (sep : ascii) (s : string) : split_on sep s <> [].
Proof.
  destruct s as [|c s]; simpl; [discriminate|].
  destruct (Ascii.eqb c sep); [discriminate|].
  destruct (split_on sep s); discriminate.
Qed.

(** The tokens are the pieces of the policy between its separators. *)
Lemma concat_split_on (sep : ascii) (s : string) :
  String.concat (String sep EmptyString) (split_on sep s) = s.
Proof.
  induction s as [|c s IH]; simpl; [reflexivity|].
  pose proof (split_on_nonempty sep s) as NE.
  destruct (Ascii.eqb_spec c sep) as [->|_].
  - destruct (split_on sep s) as [|w ws]; [contradiction|].
    simpl in *. now rewrite IH.
  - destruct (split_on sep s) as [|w ws]; [contradiction|].
    destruct ws; simpl in *; now rewrite <- IH.
Qed.

Lemma split_on_no_sep (sep : ascii) (s : string) :
  Forall (fun t => includes (String sep EmptyString) t = false) (split_on sep s).
Proof.
  induction s as [|c s IH]; simpl.
  - constructor; auto.
  - destruct (Ascii.eqb c sep) eqn:E.
    + constructor; auto.
    + destruct (split_on sep s) as [|w ws]; [repeat constructor|].
      * simpl. rewrite Ascii.eqb_sym, E. reflexivity.
      * inversion IH; subst. constructor; auto.
        simpl. rewrite Ascii.eqb_sym, E. simpl.
        destruct w; simpl in *; auto.
Qed.

Lemma transform_options_first_some options text title :
  transform_options options text title =
  match first_some (token_value text title) options with
  | Some v => v
  | None => EmptyString
  end.
Proof.
  induction options as [|o options IH]; simpl; [reflexivity|].
  unfold token_value at 1.
  destruct (o =? "alt") eqn:Ea; simpl.
  - destruct text as [t|]; simpl.
    + destruct (truthy t); simpl; auto.
      destruct (o =? "title") eqn:Et; simpl; auto.
      apply String.eqb_eq in Ea, Et. congruence.
    + destruct (o =? "title") eqn:Et; simpl; auto.
      apply String.eqb_eq in Ea, Et. congruence.
  - destruct (o =? "title"); simpl; auto.
    destruct title as [t|]; simpl; auto.
    destruct (truthy t); simpl; auto.
Qed.

(** C7.  [transform] returns the value of the first token of the policy,
    split at its dashes, that stands for a non-empty value, and the empty
    string when there is none; so policy title-alt returns a non-empty
    title whatever the alt text, policy alt returns the alt text or nothing,
    policy none returns nothing, and under policy none the image rule emits
    the figure with its image and no caption element. *)
Theorem transform_first_nonempty :
  forall (policy : string) (text title : option string),
    transform policy text title = legend_caption policy text title
    /\ String.concat "-" (split_on "-" policy) = policy
    /\ Forall (fun t => includes "-" t = false) (split_on "-" policy)
    /\ (forall t, t <> EmptyString -> transform "title-alt" text (Some t) = t)
    /\ transform "alt" text title
       = (if otruthy text then match text with Some a => a | None => EmptyString end
          else EmptyString)
    /\ transform "none" text title = EmptyString
    /\ (forall o href alt,
          read (legend o) = Some "none" ->
          image_caption o title alt = EmptyString
          /\ image o href title alt
             = "<figure><img src=" ++ dq ++ href ++ dq
               ++ (if otruthy title
                   then " title=" ++ dq
                        ++ match title with Some t => t | None => EmptyString end
                        ++ dq
                   else EmptyString)
               ++ " alt=" ++ dq ++ alt ++ dq ++ "/></figure>").
Proof.
  intros policy text title.
  refine (conj _ (conj _ (conj _ (conj _ (conj _ (conj _ _)))))).
  - apply transform_options_first_some.
  - apply concat_split_on.
  - apply split_on_no_sep.
  - intros t Ht. destruct t; [contradiction|reflexivity].
  - unfold transform. simpl.
    destruct text as [a|]; simpl; [|reflexivity].
    now destruct (truthy a).
  - reflexivity.
  - intros o href alt H. split.
    + unfold image_caption. now rewrite H.
    + unfold image, image_caption. rewrite H. simpl.
      destruct title as [t|]; simpl; [|reflexivity].
      destruct (truthy t); reflexivity.
Qed.

Lemma transform_first_nonempty_witness :
  transform "title-alt" (Some "Alt text") (Some "The title") = "The title"
  /\ image (mkOpts (Some (Some "none")) None None None None None)
           "a.png" (Some "The title") "Alt text"
     = "<figure><img src=" ++ dq ++ "a.png" ++ dq ++ " title=" ++ dq
       ++ "The title" ++ dq ++ " alt=" ++ dq ++ "Alt text" ++ dq ++ "/></figure>".
Proof.
  destruct (transform_first_nonempty "title-alt" (Some "Alt text")
              (Some "The title")) as (_ & _ & _ & Ht & _ & _ & Hi).
  split.
  - apply Ht. discriminate.
  - apply (Hi (mkOpts (Some (Some "none")) None None None None None)).
    reflexivity.
Defined.

(** ** The paragraph rule *)

Lemma starts_with_app_l (p a c : string) :
  starts_with p a = true -> starts_with p (a ++ c) = true.
Proof.
  revert a. induction p as [|x p IH]; intros a; simpl; auto.
  destruct a as [|y a]; simpl; [discriminate|].
  destruct (Ascii.eqb x y); simpl; auto.
Qed.

Lemma includes_app_l (p a c : string) :
  includes p a = true -> includes p (a ++ c) = true.
Proof.
  induction a as [|y a IH]; simpl.
  - rewrite orb_false_r. intros H.
    destruct p; [|discriminate]. now destruct c.
  - intros H. apply orb_true_iff in H. destruct H as [H|H].
    + change (String y (a ++ c)) with (String y a ++ c).
      rewrite (starts_with_app_l _ _ _ H). reflexivity.
    + rewrite (IH H). apply orb_true_r.
Qed.

Lemma includes_app_r (p a b : string) :
  includes p b = true -> includes p (a ++ b) = true.
Proof.
  intros H. induction a as [|y a IH]; simpl; auto.
  change (a ++ b)%string with (a ++ b). rewrite IH. apply orb_true_r.
Qed.

Lemma trim_start_empty (s : string) :
  trim_start s = EmptyString <-> all_space s = true.
Proof.
  induction s as [|c s IH]; simpl; [tauto|].
  destruct (is_space c); simpl; [exact IH|].
  split; discriminate.
Qed.

Lemma trim_start_head (s : string) :
  match trim_start s with
  | EmptyString => True
  | String c _ => is_space c = false
  end.
Proof.
  induction s as [|c s IH]; simpl; auto.
  destruct (is_space c) eqn:E; auto.
Qed.

Lemma rev_onto_empty (s acc : string) :
  rev_onto s acc = EmptyString -> s = EmptyString /\ acc = EmptyString.
Proof.
  revert acc. induction s as [|c s IH]; intros acc; simpl; auto.
  intros H. apply IH in H. destruct H; discriminate.
Qed.

(** The paragraph rule's emptiness test holds of the texts made of white
    space only. *)
Lemma trim_empty (s : string) :
  trim s = EmptyString <-> all_space s = true.
Proof.
  unfold trim, Str.rev. split.
  - intros H. apply rev_onto_empty in H. destruct H as [H _].
    pose proof (trim_start_head s) as Hh.
    destruct (trim_start s) as [|c t] eqn:E.
    + now apply trim_start_empty.
    + exfalso. clear E.
      assert (G : forall u acc, trim_start acc <> EmptyString ->
                               trim_start (rev_onto u acc) <> EmptyString).
      { induction u as [|d u IHu]; intros acc Ha; simpl; auto.
        apply IHu. simpl. destruct (is_space d); auto. discriminate. }
      apply (G t (String c EmptyString)); [|exact H].
      simpl. rewrite Hh. discriminate.
  - intros H. apply trim_start_empty in H. rewrite H. reflexivity.
Qed.

(** C4, as the code has it.  The paragraph rule wraps the parsed inline
    content in a styled paragraph element exactly when the content is not
    made of white space only and does not contain both a figure opening and
    an image opening; otherwise the content passes through unwrapped.  A
    paragraph that contains the output of the image rule, alone or with
    other text around it, passes through unwrapped. *)
Theorem paragraph_wraps_unless_figure :
  forall (text : string),
    (includes "<figure" text && includes "<img" text = false ->
     all_space text = false ->
     paragraph text = "<p class=" ++ dq ++ "p" ++ dq ++ ">" ++ text ++ "</p>")
    /\ (includes "<figure" text && includes "<img" text = true ->
        paragraph text = text)
    /\ (all_space text = true -> paragraph text = text)
    /\ (forall before after o href title alt,
          text = before ++ image o href title alt ++ after ->
          paragraph text = text).
Proof.
  intros text. unfold paragraph.
  assert (E : (trim text =? EmptyString) = all_space text).
  { destruct (all_space text) eqn:A.
    - apply trim_empty in A. rewrite A. reflexivity.
    - apply String.eqb_neq. intros T. apply trim_empty in T. congruence. }
  rewrite E. repeat split.
  - intros -> ->. reflexivity.
  - intros ->. reflexivity.
  - intros ->. now rewrite orb_true_r.
  - intros before after o href title alt ->.
    assert (F : includes "<figure" (before ++ image o href title alt ++ after)
                = true).
    { apply includes_app_r, includes_app_l. reflexivity. }
    assert (I : includes "<img" (before ++ image o href title alt ++ after)
                = true).
    { apply includes_app_r, includes_app_l. reflexivity. }
    rewrite F, I. reflexivity.
Qed.

Lemma paragraph_wraps_unless_figure_witness :
  paragraph "Hello" = "<p class=" ++ dq ++ "p" ++ dq ++ ">Hello</p>"
  /\ paragraph ("see " ++ image no_opts "a.png" None "pic" ++ " here")
     = "see " ++ image no_opts "a.png" None "pic" ++ " here".
Proof.
  split.
  - apply (proj1 (paragraph_wraps_unless_figure "Hello")); reflexivity.
  - apply (proj2 (proj2 (proj2 (paragraph_wraps_unless_figure
             ("see " ++ image no_opts "a.png" None "pic" ++ " here"))))
             "see " " here" no_opts "a.png" None "pic").
    reflexivity.
Defined.

(** A paragraph that mixes text with an image is not wrapped. *)
Lemma paragraph_mixed_not_wrapped :
  let text := "Hello " ++ image no_opts "a.png" None "pic" in
  paragraph text = text
  /\ all_space text = false
  /\ text <> image no_opts "a.png" None "pic"
  /\ starts_with "<p" (paragraph text) = false.
Proof.
  cbv zeta. repeat split. vm_compute. discriminate.
Qed.

(** ** The CJK emphasis normaliser *)

Lemma map_id_Forall {A : Type} (f : A -> A) (l : list A) :
  Forall (fun a => f a = a) l -> map f l = l.
Proof. induction 1; simpl; congruence. Qed.

Lemma map_eq_Forall {A B : Type} (f g : A -> B) (l : list A) :
  Forall (fun a => f a = g a) l -> map f l = map g l.
Proof. induction 1; simpl; congruence. Qed.

(** The rewrite leaves a tree without emphasis as it is: no other node type
    is altered. *)
Lemma visit_plain (n : node) : plain n = true -> visit n = n.
Proof.
  induction n as [t v|t v cs IH] using node_induction; simpl.
  - intros H. apply andb_true_iff in H. destruct H as [H _].
    apply andb_true_iff in H. destruct H as [Hs He].
    apply negb_true_iff in Hs, He. now rewrite Hs, He.
  - intros H. apply andb_true_iff in H. destruct H as [H Hc].
    apply andb_true_iff in H. destruct H as [Hs He].
    apply negb_true_iff in Hs, He. rewrite Hs, He.
    f_equal. f_equal. apply map_id_Forall.
    rewrite forallb_forall in Hc. rewrite Forall_forall in *.
    intros c Hin. apply IH; auto.
Qed.

Lemma replace_emphasis_plain (n : node) :
  plain n = true -> replace_emphasis n = n.
Proof.
  induction n as [t v|t v cs IH] using node_induction; simpl.
  - intros H. apply andb_true_iff in H. destruct H as [H _].
    apply andb_true_iff in H. destruct H as [Hs He].
    apply negb_true_iff in Hs, He. now rewrite Hs, He.
  - intros H. apply andb_true_iff in H. destruct H as [H Hc].
    apply andb_true_iff in H. destruct H as [Hs He].
    apply negb_true_iff in Hs, He. rewrite Hs, He.
    f_equal. f_equal. apply map_id_Forall.
    rewrite forallb_forall in Hc. rewrite Forall_forall in *.
    intros c Hin. apply IH; auto.
Qed.

(** Where no emphasis is nested in another, the rewrite does what it is
    described to do: each [strong]/[emphasis] node becomes an HTML node
    around its flattened text. *)
Lemma visit_flat (n : node) : flat n = true -> visit n = replace_emphasis n.
Proof.
  induction n as [t v|t v cs IH] using node_induction; simpl.
  - intros _. reflexivity.
  - destruct (t =? "strong") eqn:Hs; simpl.
    + intros Hc. rewrite map_id_Forall; auto.
      rewrite forallb_forall in Hc. apply Forall_forall.
      intros c Hin. apply visit_plain; auto.
    + destruct (t =? "emphasis") eqn:He; simpl.
      * intros Hc. rewrite map_id_Forall; auto.
        rewrite forallb_forall in Hc. apply Forall_forall.
        intros c Hin. apply visit_plain; auto.
      * intros Hc. f_equal. f_equal. apply map_eq_Forall.
        rewrite forallb_forall in Hc. rewrite Forall_forall in *.
        intros c Hin. apply IH; auto.
Qed.

(** C2.  On the tree of [**foo *bar* baz**] the rewrite replaces the inner
    emphasis first, by an HTML node that holds no text for [extractText],
    and then flattens the outer node: the text [bar] of the nested
    emphasis is not in the output, although the rewrite as described keeps
    it.  The same happens with a strong node inside an emphasis node. *)
Theorem visit_loses_nested_emphasis :
  visit_root (nested_emphasis "strong" "emphasis")
  = Node "root" None (Some [
      Node "paragraph" None (Some [ html_node "<strong>foo  baz</strong>" ]) ])
  /\ replace_emphasis_root (nested_emphasis "strong" "emphasis")
     = Node "root" None (Some [
         Node "paragraph" None (Some [
           html_node "<strong>foo bar baz</strong>" ]) ])
  /\ includes "bar" (all_text (nested_emphasis "strong" "emphasis")) = true
  /\ includes "bar" (all_text (visit_root (nested_emphasis "strong" "emphasis")))
     = false
  /\ visit_root (nested_emphasis "emphasis" "strong")
     = Node "root" None (Some [
         Node "paragraph" None (Some [ html_node "<em>foo  baz</em>" ]) ])
  /\ includes "bar" (all_text (visit_root (nested_emphasis "emphasis" "strong")))
     = false.
Proof. repeat split. Qed.

(** ** The order of the pipeline *)

Section PipelineOrder.

Variables Yaml RT : Type.
Variable empty_yaml : Yaml.
Variable frontMatter : string -> option (Yaml * string).
Variable reading_time : string -> RT.
Variable remark_parse : string -> node.
Variable remark_stringify : node -> string.
Variable marked_parse : string -> string.
Variable fromCodePoint : nat -> string.

Local Abbreviation cjk := (preprocessCjkEmphasis remark_parse remark_stringify fromCodePoint).
Local Abbreviation split_fm := (parseFrontMatterAndContent empty_yaml frontMatter reading_time).
Local Abbreviation body := (body_of frontMatter).

Lemma calls_bind {A B : Type} (m : Logged A) (f : A -> Logged B) :
  calls (bind m f) = (calls m ++ calls (f (value m)))%list.
Proof.
  destruct m as [a l1]. unfold bind, calls, value. simpl.
  now destruct (f a).
Qed.

Lemma value_bind {A B : Type} (m : Logged A) (f : A -> Logged B) :
  value (bind m f) = value (f (value m)).
Proof.
  destruct m as [a l1]. unfold bind, value. simpl.
  now destruct (f a).
Qed.

Lemma calls_parseFrontMatterAndContent (text : string) :
  calls (split_fm text) = [CallFrontMatter text; CallReadingTime (body text)]
  /\ markdownContent (value (split_fm text)) = body text
  /\ readingTime (value (split_fm text)) = reading_time (body text).
Proof.
  unfold parseFrontMatterAndContent, body_of.
  destruct (frontMatter text) as [[a b]|]; simpl; auto.
Qed.

Lemma calls_preprocessCjkEmphasis (text : string) :
  calls (cjk text) = [CallRemarkParse text].
Proof. reflexivity. Qed.

(** C6.  [renderMarkdown] of [md/renderer.ts] splits the metadata block off
    first and runs the CJK normaliser on the body; [renderMarkdown] of the
    converter script runs the CJK normaliser first, on the raw text, and
    only then splits the metadata block off the normalised text, so what
    the reading time is computed from is a body of the normalised text. *)
Theorem renderMarkdown_script_normalises_raw :
  forall (raw : string),
    let run := renderMarkdown_script empty_yaml frontMatter reading_time
                 remark_parse remark_stringify marked_parse fromCodePoint raw in
    let ref := renderMarkdown empty_yaml frontMatter reading_time
                 remark_parse remark_stringify marked_parse fromCodePoint raw in
    calls run
    = [ CallRemarkParse raw;
        CallFrontMatter (value (cjk raw));
        CallReadingTime (body (value (cjk raw)));
        CallMarkedParse (body (value (cjk raw))) ]
    /\ normalised_texts (calls run) = [raw]
    /\ call_index is_remark_parse (calls run) = Some 0
    /\ call_index is_front_matter (calls run) = Some 1
    /\ value run
       = (marked_parse (body (value (cjk raw))),
          reading_time (body (value (cjk raw))))
    /\ calls ref
       = [ CallFrontMatter raw;
           CallReadingTime (body raw);
           CallRemarkParse (body raw);
           CallMarkedParse (value (cjk (body raw))) ]
    /\ normalised_texts (calls ref) = [body raw]
    /\ value ref
       = (marked_parse (value (cjk (body raw))), reading_time (body raw)).
Proof.
  intros raw run ref. subst run ref.
  unfold renderMarkdown_script, renderMarkdown.
  rewrite !calls_bind, !value_bind.
  rewrite !calls_preprocessCjkEmphasis.
  set (pre := value (cjk raw)).
  destruct (calls_parseFrontMatterAndContent pre) as (C1 & M1 & R1).
  destruct (calls_parseFrontMatterAndContent raw) as (C2 & M2 & R2).
  rewrite C1, C2, M1, M2, R1, R2.
  repeat split.
Qed.

End PipelineOrder.

(** ** Strings and matchers *)

Lemma append_assoc (a b c : string) : (a ++ b) ++ c = a ++ b ++ c.
Proof. induction a as [|x a IH]; simpl; congruence. Qed.

Lemma append_empty_r (a : string) : a ++ EmptyString = a.
Proof. induction a as [|x a IH]; simpl; congruence. Qed.

Lemma length_append (a b : string) :
  String.length (a ++ b) = String.length a + String.length b.
Proof. induction a as [|x a IH]; simpl; congruence. Qed.

Lemma up_append (a b : string) : up (a ++ b) = up a ++ up b.
Proof. unfold up. induction a as [|x a IH]; simpl; congruence. Qed.

Lemma length_up (a : string) : String.length (up a) = String.length a.
Proof. unfold up. induction a as [|x a IH]; simpl; congruence. Qed.

Section MatcherFacts.

Variable R : Type.

Lemma lit_sound (w s : string) (k : string -> option R) (r : R) :
  Rx.lit w s k = Some r -> exists rest, s = w ++ rest /\ k rest = Some r.
Proof.
  revert s. induction w as [|a w IH]; intros s; simpl.
  - intros H. now exists s.
  - destruct s as [|b s]; [discriminate|].
    destruct (Ascii.eqb_spec a b) as [->|_]; [|discriminate].
    intros H. destruct (IH _ H) as (rest & -> & Hk). now exists rest.
Qed.

Lemma lit_ci_sound (w : string) : forall (s : string)
    (k : string -> string -> option R) (r : R),
  Rx.lit_ci w s k = Some r ->
  exists m rest, s = m ++ rest /\ up m = up w /\ k m rest = Some r.
Proof.
  induction w as [|a w IH]; intros s k r; simpl.
  - intros H. now exists EmptyString, s.
  - destruct s as [|b s]; [discriminate|].
    unfold Rx.eqb_ci. destruct (Ascii.eqb_spec (Rx.upper a) (Rx.upper b))
      as [E|_]; [|discriminate].
    intros H. destruct (IH _ _ _ H) as (m & rest & -> & Hm & Hk).
    exists (String b m), rest. repeat split; auto.
    unfold up in *. simpl. now rewrite Hm, E.
Qed.

Lemma star_sound (p : ascii -> bool) : forall (s : string)
    (k : string -> string -> option R) (r : R),
  Rx.star p s k = Some r ->
  exists m rest, s = m ++ rest /\ k m rest = Some r.
Proof.
  induction s as [|c s IH]; intros k r; simpl.
  - intros H. now exists EmptyString, EmptyString.
  - destruct (p c).
    + destruct (Rx.star p s _) eqn:E.
      * intros [= ->]. destruct (IH _ _ E) as (m & rest & -> & Hk).
        now exists (String c m), rest.
      * intros H. now exists EmptyString, (String c s).
    + intros H. now exists EmptyString, (String c s).
Qed.

Lemma star_lazy_sound (p : ascii -> bool) : forall (s : string)
    (k : string -> string -> option R) (r : R),
  Rx.star_lazy p s k = Some r ->
  exists m rest, s = m ++ rest /\ k m rest = Some r.
Proof.
  induction s as [|c s IH]; intros k r; simpl.
  - destruct (k EmptyString EmptyString) eqn:E; [|discriminate].
    intros [= ->]. now exists EmptyString, EmptyString.
  - destruct (k EmptyString (String c s)) eqn:E.
    + intros [= ->]. now exists EmptyString, (String c s).
    + destruct (p c); [|discriminate].
      intros H. destruct (IH _ _ H) as (m & rest & -> & Hk).
      now exists (String c m), rest.
Qed.

Lemma search_sound (m : string -> option R) : forall (s pre : string) (r : R),
  Rx.search m s = Some (pre, r) ->
  exists rest, s = pre ++ rest /\ m rest = Some r.
Proof.
  induction s as [|c s IH]; intros pre r; simpl.
  - destruct (m EmptyString) eqn:E; [|discriminate].
    intros [= <- <-]. now exists EmptyString.
  - destruct (m (String c s)) eqn:E.
    + intros [= <- <-]. now exists (String c s).
    + destruct (Rx.search m s) as [[pre' r']|] eqn:E'; [|discriminate].
      intros [= <- <-]. destruct (IH _ _ eq_refl) as (rest & -> & Hm).
      now exists rest.
Qed.

End MatcherFacts.

(** ** HTML structure repair *)

(** What a match of the pattern looks like: the opening of a list item, its
    content, a sub-list and the closing tag of the item. *)
Lemma li_pattern_shape (s : string) (m : LiMatch) :
  li_pattern s = Some m ->
  exists w1 w2 o body c,
    s = w1 ++ li_attrs m ++ ">" ++ li_content m ++ li_sublist m ++ w2
        ++ li_after m
    /\ up w1 = "<LI" /\ up w2 = "</LI>"
    /\ li_sublist m = o ++ body ++ c
    /\ ((up o = "<UL" /\ up c = "</UL>") \/ (up o = "<OL" /\ up c = "</OL>")).
Proof.
  unfold li_pattern. intros H.
  apply lit_ci_sound in H. destruct H as (w1 & s1 & -> & Hw1 & H).
  apply star_sound in H. destruct H as (attrs & s2 & -> & H).
  apply lit_sound in H. destruct H as (s3 & -> & H).
  apply star_lazy_sound in H. destruct H as (content & s4 & -> & H).
  assert (G : forall open close,
             sublist open close s4
               (fun l s5 => Rx.lit_ci "</li>" s5 (fun _ rest =>
                  Some (mkLiMatch attrs content l rest))) = Some m ->
             exists w2 o body c,
               s4 = (o ++ body ++ c) ++ w2 ++ li_after m
               /\ m = mkLiMatch attrs content (o ++ body ++ c) (li_after m)
               /\ up w2 = "</LI>" /\ up o = up open /\ up c = up close).
  { intros open close G. unfold sublist in G.
    apply lit_ci_sound in G. destruct G as (o & t1 & -> & Ho & G).
    apply star_lazy_sound in G. destruct G as (body & t2 & -> & G).
    apply lit_ci_sound in G. destruct G as (c & t3 & -> & Hc & G).
    apply lit_ci_sound in G. destruct G as (w2 & rest & -> & Hw2 & G).
    injection G as <-. simpl.
    exists w2, o, body, c. repeat split; auto; now rewrite ?append_assoc. }
  unfold Rx.alt in H.
  destruct (sublist "<ul" "</ul>" s4 _) eqn:E.
  - injection H as ->. destruct (G _ _ E) as (w2 & o & body & c & -> & -> & Hw2 & Ho & Hc).
    exists w1, w2, o, body, c. simpl. repeat split; auto;
      now rewrite ?append_assoc.
  - destruct (G _ _ H) as (w2 & o & body & c & -> & -> & Hw2 & Ho & Hc).
    exists w1, w2, o, body, c. simpl. repeat split; auto;
      now rewrite ?append_assoc.
Qed.
Section ClosingTagWeight.

(** The closing tag of a list item, in upper case. *)
Local Abbreviation Y := "</LI>".

Lemma occ_weight_app (w : string) (a b : string) : forall i,
  occ_weight w i (a ++ b)
  = weight_in w i a b + occ_weight w (i + String.length a) b.
Proof.
  induction a as [|c a IH]; intros i; simpl.
  - now rewrite Nat.add_0_r.
  - rewrite IH. rewrite <- plus_n_Sm. simpl. lia.
Qed.

Lemma weight_in_shift (w : string) (d : nat) (a b : string) : forall i,
  weight_in w (d + i) a b = weight_in w i a b + d * count_in w a b.
Proof.
  induction a as [|c a IH]; intros i; simpl.
  - lia.
  - rewrite plus_n_Sm, IH.
    destruct (starts_with w (String c (a ++ b))); nia.
Qed.

Lemma starts_with_Y_before_lt (a b b' : string) :
  a <> EmptyString ->
  starts_with Y (a ++ String "<" b) = starts_with Y (a ++ String "<" b').
Proof.
  intros Ha.
  destruct a as [|c1 [|c2 [|c3 [|c4 [|c5 a]]]]]; try contradiction;
    cbn; try reflexivity;
    repeat (match goal with
            | |- context [Ascii.eqb ?x ?y] => destruct (Ascii.eqb x y)
            end; cbn; try reflexivity).
Qed.

Lemma weight_in_before_lt (a b b' : string) : forall i,
  weight_in Y i a (String "<" b) = weight_in Y i a (String "<" b').
Proof.
  induction a as [|c a IH]; intros i; [reflexivity|].
  cbn [weight_in]. rewrite (IH (S i)).
  rewrite (starts_with_Y_before_lt (String c a) b b'); [reflexivity|discriminate].
Qed.

Lemma starts_with_Y_until_gt (a b b' : string) :
  starts_with Y (a ++ String ">" b) = starts_with Y (a ++ String ">" b').
Proof.
  destruct a as [|c1 [|c2 [|c3 [|c4 [|c5 a]]]]];
    cbn; try reflexivity;
    repeat (match goal with
            | |- context [Ascii.eqb ?x ?y] => destruct (Ascii.eqb x y)
            end; cbn; try reflexivity).
Qed.

Lemma weight_in_until_gt (a b b' : string) : forall i,
  weight_in Y i (a ++ ">") b = weight_in Y i (a ++ ">") b'.
Proof.
  induction a as [|c a IH]; intros i.
  - reflexivity.
  - change (String c a ++ ">") with (String c (a ++ ">")).
    cbn [weight_in]. rewrite (IH (S i)).
    change (String c (a ++ ">")) with (String c a ++ ">").
    rewrite !append_assoc.
    change (">" ++ b) with (String ">" b).
    change (">" ++ b') with (String ">" b').
    now rewrite (starts_with_Y_until_gt (String c a) b b').
Qed.

Lemma count_in_until_gt (a b b' : string) :
  count_in Y (a ++ ">") b = count_in Y (a ++ ">") b'.
Proof.
  induction a as [|c a IH].
  - reflexivity.
  - change (String c a ++ ">") with (String c (a ++ ">")).
    cbn [count_in]. rewrite IH.
    change (String c (a ++ ">")) with (String c a ++ ">").
    rewrite !append_assoc.
    change (">" ++ b) with (String ">" b).
    change (">" ++ b') with (String ">" b').
    now rewrite (starts_with_Y_until_gt (String c a) b b').
Qed.

Lemma starts_with_split (w s : string) :
  starts_with w s = true -> exists r, s = w ++ r.
Proof.
  revert s. induction w as [|a w IH]; intros s; simpl.
  - intros _. now exists s.
  - destruct s as [|b s]; [discriminate|].
    destruct (Ascii.eqb_spec a b) as [->|_]; [|discriminate].
    simpl. intros H. destruct (IH _ H) as (r & ->). now exists r.
Qed.

(** Occurrences of the closing tag do not overlap. *)
Lemma count_in_bound (n : nat) : forall a,
  String.length a <= n -> 5 * count_in Y a EmptyString <= String.length a.
Proof.
  induction n as [|n IH]; intros a Hn.
  - destruct a; simpl in *; lia.
  - destruct a as [|c a]; [simpl; lia|].
    cbn [count_in]. rewrite append_empty_r.
    destruct (starts_with Y (String c a)) eqn:E.
    + apply starts_with_split in E. destruct E as (r & E).
      injection E as -> ->.
      replace (count_in Y _ EmptyString) with (count_in Y r EmptyString)
        by reflexivity.
      cbn [String.length] in *. specialize (IH r). lia.
    + cbn [String.length] in *. specialize (IH a). lia.
Qed.

Lemma occ_weight_Y (i : nat) (x : string) :
  occ_weight Y i (Y ++ x) = i + occ_weight Y (5 + i) x.
Proof. reflexivity. Qed.

(** Moving the closing tag from behind a sub-list to before it lowers the
    weight. *)
Lemma swap_decreases (P L0 L1 Q : string) (i : nat) :
  String "<" L1 = L0 ++ ">" ->
  5 * count_in Y (L0 ++ ">") EmptyString < String.length (L0 ++ ">") ->
  occ_weight Y i (P ++ Y ++ (L0 ++ ">") ++ Q)
  < occ_weight Y i (P ++ (L0 ++ ">") ++ Y ++ Q).
Proof.
  intros HL Hc.
  assert (E : weight_in Y i P ((L0 ++ ">") ++ Y ++ Q)
              = weight_in Y i P (Y ++ (L0 ++ ">") ++ Q)).
  { rewrite <- HL at 1.
    exact (weight_in_before_lt P (L1 ++ Y ++ Q)
             ("/LI>" ++ (L0 ++ ">") ++ Q) i). }
  rewrite (occ_weight_app Y P (Y ++ (L0 ++ ">") ++ Q)).
  rewrite (occ_weight_app Y P ((L0 ++ ">") ++ Y ++ Q)).
  rewrite (occ_weight_app Y (L0 ++ ">") (Y ++ Q)).
  rewrite !occ_weight_Y.
  rewrite (occ_weight_app Y (L0 ++ ">") Q).
  rewrite (weight_in_shift Y 5).
  rewrite (weight_in_until_gt L0 (Y ++ Q) Q).
  rewrite (count_in_until_gt L0 Q EmptyString).
  rewrite E.
  replace (5 + (i + String.length P) + String.length (L0 ++ ">"))
    with (5 + (i + String.length P + String.length (L0 ++ ">"))) by lia.
  lia.
Qed.

End ClosingTagWeight.
(** What one rewrite of the loop does: the closing tag of the list item
    moves from behind the sub-list to before it. *)
Lemma li_replace_shape (s : string) :
  li_test s = true ->
  exists before w1 attrs content sub w2 after L0 L1,
    s = before ++ w1 ++ attrs ++ ">" ++ content ++ sub ++ w2 ++ after
    /\ li_replace s
       = before ++ "<li" ++ attrs ++ ">" ++ content ++ "</li>" ++ sub ++ after
    /\ up w1 = "<LI" /\ up w2 = "</LI>"
    /\ up sub = L0 ++ ">" /\ up sub = String "<" L1
    /\ 5 * count_in "</LI>" (up sub) EmptyString < String.length (up sub).
Proof.
  unfold li_test, li_replace.
  destruct (Rx.search li_pattern s) as [[before m]|] eqn:E; [|discriminate].
  intros _. apply search_sound in E. destruct E as (rest & -> & E).
  apply li_pattern_shape in E.
  destruct E as (w1 & w2 & o & body & c & -> & Hw1 & Hw2 & Hs & Hoc).
  assert (B : forall x, 5 * count_in "</LI>" x EmptyString <= String.length x)
    by (intros x; apply (count_in_bound (String.length x)); auto).
  assert (G : exists L0 L1,
             up (li_sublist m) = L0 ++ ">"
             /\ up (li_sublist m) = String "<" L1
             /\ 5 * count_in "</LI>" (up (li_sublist m)) EmptyString
                < String.length (up (li_sublist m))).
  { rewrite Hs, !up_append.
    destruct Hoc as [[-> ->]|[-> ->]].
    - exists ("<UL" ++ up body ++ "</UL"), ("UL" ++ up body ++ "</UL>").
      split; [|split].
      + rewrite !append_assoc. reflexivity.
      + reflexivity.
      + set (x := up body ++ "</UL>").
        replace (count_in "</LI>" ("<UL" ++ x) EmptyString)
          with (count_in "</LI>" x EmptyString) by reflexivity.
        specialize (B x). cbn [append String.length]. lia.
    - exists ("<OL" ++ up body ++ "</OL"), ("OL" ++ up body ++ "</OL>").
      split; [|split].
      + rewrite !append_assoc. reflexivity.
      + reflexivity.
      + set (x := up body ++ "</OL>").
        replace (count_in "</LI>" ("<OL" ++ x) EmptyString)
          with (count_in "</LI>" x EmptyString) by reflexivity.
        specialize (B x). cbn [append String.length]. lia. }
  destruct G as (L0 & L1 & G0 & G1 & Gc).
  exists before, w1, (li_attrs m), (li_content m), (li_sublist m), w2,
    (li_after m), L0, L1.
  repeat split; auto.
Qed.

(** A rewrite of the loop lowers the weight of the text. *)
Lemma li_replace_decreases (s : string) :
  li_test s = true -> li_weight (li_replace s) < li_weight s.
Proof.
  intros T. apply li_replace_shape in T.
  destruct T as (before & w1 & attrs & content & sub & w2 & after & L0 & L1
                 & -> & -> & Hw1 & Hw2 & H0 & H1 & Hc).
  unfold li_weight. rewrite !up_append, Hw1, Hw2.
  change (up "<li") with "<LI". change (up "</li>") with "</LI>".
  change (up ">") with ">".
  set (P := up before ++ "<LI" ++ up attrs ++ ">" ++ up content).
  assert (EP : forall x,
             up before ++ "<LI" ++ up attrs ++ ">" ++ up content ++ x = P ++ x).
  { intros x. unfold P. now rewrite !append_assoc. }
  rewrite !EP. rewrite H0 in *.
  apply swap_decreases with (L1 := L1); [congruence | assumption].
Qed.

(** With fuel above the weight of the text the loop ends, on a text the
    pattern does not match. *)
Lemma modify_loop_terminates (fuel : nat) : forall s,
  li_weight s < fuel ->
  exists out, modify_loop fuel s = Some out /\ li_test out = false.
Proof.
  induction fuel as [|fuel IH]; intros s Hs; [lia|].
  simpl. destruct (li_test s) eqn:T.
  - apply IH. pose proof (li_replace_decreases s T). lia.
  - now exists s.
Qed.

Lemma modify_loop_fixed (fuel : nat) : forall s out,
  modify_loop fuel s = Some out -> li_test out = false.
Proof.
  induction fuel as [|fuel IH]; intros s out; simpl; [discriminate|].
  destruct (li_test s) eqn:T.
  - apply IH.
  - now intros [= <-].
Qed.

Lemma modify_loop_stable (fuel : nat) (s : string) :
  li_test s = false -> modify_loop (S fuel) s = Some s.
Proof. intros T. simpl. now rewrite T. Qed.

Lemma modify_loop_more_fuel (fuel : nat) : forall s out fuel',
  modify_loop fuel s = Some out -> fuel <= fuel' ->
  modify_loop fuel' s = Some out.
Proof.
  induction fuel as [|fuel IH]; intros s out fuel'; simpl; [discriminate|].
  intros H Hle. destruct fuel' as [|fuel']; [lia|]. simpl.
  destruct (li_test s); auto. apply IH; auto. lia.
Qed.

(** C10.  A rewrite of the loop puts the closing tag of the list item
    before the sub-list that preceded it and leaves the rest of the text in
    place; it lowers the sum of the positions of the closing tags of list
    items, a natural number.  So the loop stops, for every input, after at
    most that many rewrites, on a text the pattern no longer matches. *)
Theorem modifyHtmlStructure_terminates :
  (forall s, li_test s = true ->
     li_weight (li_replace s) < li_weight s
     /\ exists before w1 attrs content sub w2 after,
          s = before ++ w1 ++ attrs ++ ">" ++ content ++ sub ++ w2 ++ after
          /\ li_replace s
             = before ++ "<li" ++ attrs ++ ">" ++ content ++ "</li>" ++ sub
               ++ after
          /\ up w1 = "<LI" /\ up w2 = "</LI>"
          /\ (starts_with "<UL" (up sub) = true
              \/ starts_with "<OL" (up sub) = true))
  /\ (forall s, exists out,
        modifyHtmlStructure s = Some out
        /\ li_test out = false
        /\ forall fuel, li_weight s < fuel -> modify_loop fuel s = Some out).
Proof.
  split.
  - intros s T. split; [now apply li_replace_decreases|].
    unfold li_test, li_replace in *.
    destruct (Rx.search li_pattern s) as [[before m]|] eqn:E; [|discriminate].
    apply search_sound in E. destruct E as (rest & -> & E).
    apply li_pattern_shape in E.
    destruct E as (w1 & w2 & o & body & c & -> & Hw1 & Hw2 & Hs & Hoc).
    exists before, w1, (li_attrs m), (li_content m), (li_sublist m), w2,
      (li_after m).
    repeat split; auto.
    rewrite Hs, !up_append.
    destruct Hoc as [[-> _]|[-> _]]; [left|right]; reflexivity.
  - intros s. unfold modifyHtmlStructure.
    destruct (modify_loop_terminates (S (li_weight s)) s (Nat.lt_succ_diag_r _))
      as (out & Hout & T).
    exists out. repeat split; auto.
    intros fuel Hf.
    destruct (modify_loop_terminates fuel s Hf) as (out' & Hout' & _).
    destruct (Nat.le_ge_cases fuel (S (li_weight s))) as [L|L].
    + pose proof (modify_loop_more_fuel _ _ _ _ Hout' L). congruence.
    + pose proof (modify_loop_more_fuel _ _ _ _ Hout L). congruence.
Qed.

Lemma modifyHtmlStructure_terminates_witness :
  li_test "<li>a<ul><li>b</li></ul></li>" = true
  /\ li_weight (li_replace "<li>a<ul><li>b</li></ul></li>")
     < li_weight "<li>a<ul><li>b</li></ul></li>"
  /\ modify_loop 40 "<li>a<ul><li>b</li></ul></li>"
     = Some "<li>a</li><ul><li>b</li></ul>".
Proof.
  split; [reflexivity|]. split.
  - apply (proj1 modifyHtmlStructure_terminates). reflexivity.
  - destruct (proj2 modifyHtmlStructure_terminates
                "<li>a<ul><li>b</li></ul></li>") as (out & H1 & _ & H3).
    rewrite (H3 40); [|vm_compute; lia].
    rewrite <- H1. reflexivity.
Defined.

(** C8.  Whenever the repair pass ends, on any fuel, its output is a text
    the pattern does not match, and the pass applied to that output returns
    it unchanged; the pass ends on every input. *)
Theorem modifyHtmlStructure_idempotent :
  (forall fuel s out,
     modify_loop fuel s = Some out ->
     li_test out = false
     /\ modifyHtmlStructure out = Some out
     /\ forall fuel', modify_loop (S fuel') out = Some out)
  /\ (forall s, exists out,
        modifyHtmlStructure s = Some out
        /\ modifyHtmlStructure out = Some out).
Proof.
  assert (G : forall fuel s out,
             modify_loop fuel s = Some out ->
             li_test out = false
             /\ modifyHtmlStructure out = Some out
             /\ forall fuel', modify_loop (S fuel') out = Some out).
  { intros fuel s out H. pose proof (modify_loop_fixed _ _ _ H) as T.
    repeat split; auto.
    - unfold modifyHtmlStructure. now apply modify_loop_stable.
    - intros fuel'. now apply modify_loop_stable. }
  split; [exact G|].
  intros s.
  destruct (modify_loop_terminates (S (li_weight s)) s (Nat.lt_succ_diag_r _))
    as (out & Hout & _).
  exists out. split; [exact Hout|]. apply (G _ _ _ Hout).
Qed.

Lemma modifyHtmlStructure_idempotent_witness :
  modify_loop 5 "<ul><li>a<ul><li>b</li></ul></li><li>c</li></ul>"
  = Some "<ul><li>a</li><ul><li>b</li></ul><li>c</li></ul>"
  /\ modifyHtmlStructure "<ul><li>a</li><ul><li>b</li></ul><li>c</li></ul>"
     = Some "<ul><li>a</li><ul><li>b</li></ul><li>c</li></ul>".
Proof.
  split; [reflexivity|].
  apply (proj1 modifyHtmlStructure_idempotent 5
           "<ul><li>a<ul><li>b</li></ul></li><li>c</li></ul>").
  reflexivity.
Defined.

(** ** Global replacement *)

Section Scan.

Variable X : Type.
Variable m : string -> option (X * string).

Lemma replace_go_ext (rep rep' : X -> string -> string -> string) :
  (forall x b a, rep x b a = rep' x b a) ->
  forall s k b, Rx.replace_go m rep k b s = Rx.replace_go m rep' k b s.
Proof.
  intros E. induction s as [|c s IH]; intros k b; cbn [Rx.replace_go]; auto.
  destruct k as [|k]; [|apply IH].
  destruct (m (String c s)) as [[x rest]|]; rewrite IH; [rewrite E|]; auto.
Qed.

Variable v : string.

(** Replacement by a fixed text. *)
Local Abbreviation fixed := (fun (_ : X) (_ _ : string) => v).

Lemma replace_go_before : forall s k b b',
  Rx.replace_go m fixed k b s = Rx.replace_go m fixed k b' s.
Proof.
  induction s as [|c s IH]; intros k b b'; cbn [Rx.replace_go]; auto.
  destruct k as [|k]; [|apply IH].
  destruct (m (String c s)) as [[x rest]|];
    now rewrite (IH _ (b ++ String c EmptyString) (b' ++ String c EmptyString)).
Qed.

Lemma replace_go_skip : forall u rest b,
  Rx.replace_go m fixed (String.length u) b (u ++ rest)
  = Rx.replace_all m fixed rest.
Proof.
  induction u as [|c u IH]; intros rest b; cbn [String.length append].
  - apply replace_go_before.
  - cbn [Rx.replace_go]. apply IH.
Qed.

Lemma scan_empty : Rx.replace_all m fixed EmptyString = EmptyString.
Proof. reflexivity. Qed.

Lemma scan_pass (c : ascii) (s : string) :
  m (String c s) = None ->
  Rx.replace_all m fixed (String c s) = String c (Rx.replace_all m fixed s).
Proof.
  intros H. unfold Rx.replace_all. cbn [Rx.replace_go]. rewrite H.
  f_equal. apply replace_go_before.
Qed.

Lemma scan_match (u rest : string) (x : X) :
  u <> EmptyString ->
  m (u ++ rest) = Some (x, rest) ->
  Rx.replace_all m fixed (u ++ rest) = v ++ Rx.replace_all m fixed rest.
Proof.
  destruct u as [|c u]; [contradiction|]. intros _ H.
  unfold Rx.replace_all at 1. cbn [append Rx.replace_go].
  cbn [append] in H. rewrite H. f_equal.
  replace (String.length (String c (u ++ rest)) - String.length rest - 1)
    with (String.length u)
    by (cbn [String.length]; rewrite length_append; lia).
  apply replace_go_skip.
Qed.

End Scan.

Lemma expand_plain (t matched before after : string) :
  includes "$" t = false -> Rx.expand t matched before after = t.
Proof.
  induction t as [|c t IH]; cbn [Rx.expand]; auto.
  intros H. cbn [includes starts_with] in H.
  apply orb_false_iff in H. destruct H as [H1 H2].
  rewrite andb_true_r in H1. rewrite Ascii.eqb_sym in H1. rewrite H1.
  now rewrite IH.
Qed.

(** With a replacement string free of dollar signs, the replacement of a
    literal inserts the string as it is. *)
Lemma replace_literal_plain (w v s : string) :
  includes "$" v = false ->
  Rx.replace_literal w v s
  = Rx.replace_all (Rx.literal w) (fun _ _ _ => v) s.
Proof.
  intros H. unfold Rx.replace_literal, Rx.replace_all.
  apply replace_go_ext. intros x b a. now apply expand_plain.
Qed.

Lemma drop_append (u rest : string) : drop (String.length u) (u ++ rest) = rest.
Proof. induction u as [|c u IH]; cbn; auto. Qed.

Lemma starts_with_self (w r : string) : starts_with w (w ++ r) = true.
Proof.
  induction w as [|a w IH]; cbn; auto. now rewrite Ascii.eqb_refl.
Qed.

Lemma literal_hit (w r : string) : Rx.literal w (w ++ r) = Some (w, r).
Proof.
  unfold Rx.literal. rewrite lit_eq, starts_with_self, drop_append. reflexivity.
Qed.

Lemma literal_miss (w s : string) :
  starts_with w s = false -> Rx.literal w s = None.
Proof. intros H. unfold Rx.literal. now rewrite lit_eq, H. Qed.

Lemma clash_sound (w : string) : forall c r,
  clash w c = true -> starts_with w (c ++ r) = false.
Proof.
  induction w as [|a w IH]; intros c r; destruct c as [|b c]; cbn;
    try discriminate.
  destruct (Ascii.eqb a b); cbn; auto.
Qed.


Lemma scan_hit (w v r : string) :
  w <> EmptyString ->
  Rx.replace_all (Rx.literal w) (fun _ _ _ => v) (w ++ r)
  = v ++ Rx.replace_all (Rx.literal w) (fun _ _ _ => v) r.
Proof.
  intros H. apply scan_match with (x := w); auto. apply literal_hit.
Qed.

(** ** Inert texts *)

Lemma includes_tail (p : string) (c : ascii) (s : string) :
  includes p (String c s) = false -> includes p s = false.
Proof. cbn [includes]. intros H. now apply orb_false_iff in H. Qed.

Lemma includes_head (p s : string) :
  includes p s = false -> starts_with p s = false.
Proof.
  destruct s; cbn [includes]; intros H; now apply orb_false_iff in H.
Qed.





(** ** Resolution of the references *)

Lemma render_app (ps qs : list piece) :
  render (ps ++ qs)%list = render ps ++ render qs.
Proof.
  induction ps as [|x ps IH]; cbn [render List.app]; auto.
  now rewrite IH, append_assoc.
Qed.







(** ** Removal of the declarations *)




Lemma includes_suffix (p u s : string) :
  includes p (u ++ s) = false -> includes p s = false.
Proof.
  intros H. destruct (includes p s) eqn:E; [|reflexivity].
  now rewrite (includes_app_r p u s E) in H.
Qed.

Section Removal.

Variable X : Type.
Variable m : string -> option (X * string).
Hypothesis dashes :
  forall s x rest, m s = Some (x, rest) ->
                   exists u, s = String "-" (String "-" u) ++ rest.

Local Abbreviation removed := (Rx.replace_all m (fun _ _ _ => EmptyString)).


End Removal.






(** ** Escaping of inline code *)

Lemma replace_literal_char (c : ascii) (v s : string) :
  includes "$" v = false ->
  Rx.replace_literal (String c EmptyString) v s = subst_char c v s.
Proof.
  intros Hv. rewrite replace_literal_plain by exact Hv.
  induction s as [|d s IH]; [reflexivity|].
  cbn [subst_char]. destruct (Ascii.eqb_spec c d) as [->|N].
  - change (String d s) with (String d EmptyString ++ s).
    rewrite scan_hit by discriminate. now rewrite IH.
  - rewrite scan_pass.
    + now rewrite IH.
    + apply literal_miss. cbn [starts_with].
      destruct (Ascii.eqb_spec c d); [contradiction|reflexivity].
Qed.

Lemma subst_char_append (c : ascii) (v a b : string) :
  subst_char c v (a ++ b) = subst_char c v a ++ subst_char c v b.
Proof.
  induction a as [|d a IH]; cbn [append subst_char]; [reflexivity|].
  now rewrite IH, append_assoc.
Qed.

Lemma escapeHtml_subst (s : string) :
  escapeHtml s
  = subst_char "`" "&#96;" (subst_char "'" "&#39;"
      (subst_char (ascii_of_nat 34) "&quot;" (subst_char ">" "&gt;"
        (subst_char "<" "&lt;" (subst_char "&" "&amp;" s))))).
Proof.
  unfold escapeHtml. cbv zeta.
  change dq with (String (ascii_of_nat 34) EmptyString).
  now rewrite !replace_literal_char by reflexivity.
Qed.

Ltac split_char c :=
  repeat match goal with
    | |- context [Ascii.eqb ?a c] =>
        destruct (Ascii.eqb_spec a c); [subst; try reflexivity|]
    end.

Lemma escapeHtml_char (c : ascii) (s : string) :
  escapeHtml (String c s) = escape_char c ++ escapeHtml s.
Proof.
  rewrite !escapeHtml_subst.
  change (String c s) with (String c EmptyString ++ s).
  rewrite !subst_char_append. f_equal.
  unfold escape_char. cbn [subst_char append].
  split_char c;
    repeat (cbn [subst_char append];
            match goal with
            | |- context [Ascii.eqb ?a c] =>
                destruct (Ascii.eqb_spec a c); [contradiction|]
            end);
    reflexivity.
Qed.

(** [escapeHtml] works character by character. *)
Lemma escapeHtml_chars (s : string) : escapeHtml s = escape_chars s.
Proof.
  induction s as [|c s IH]; [reflexivity|].
  rewrite escapeHtml_char, IH. reflexivity.
Qed.

Lemma escape_chars_append (a b : string) :
  escape_chars (a ++ b) = escape_chars a ++ escape_chars b.
Proof.
  induction a as [|c a IH]; cbn [append escape_chars]; [reflexivity|].
  now rewrite IH, append_assoc.
Qed.

Lemma includes_char_append (c : ascii) (a b : string) :
  includes (String c EmptyString) (a ++ b)
  = includes (String c EmptyString) a || includes (String c EmptyString) b.
Proof.
  induction a as [|d a IH].
  - cbn [append]. destruct b; reflexivity.
  - cbn [append includes starts_with]. rewrite IH.
    rewrite !andb_true_r. now rewrite orb_assoc.
Qed.

Lemma escape_char_clean (c d : ascii) :
  In d markup_chars -> includes (String d EmptyString) (escape_char c) = false.
Proof.
  intros Hd. unfold escape_char.
  destruct Hd as [<-|[<-|[<-|[<-|[<-|[]]]]]];
    split_char c; cbn [includes starts_with];
    repeat match goal with
      | |- context [Ascii.eqb ?a c] =>
          destruct (Ascii.eqb_spec a c); [contradiction|]
      end; reflexivity.
Qed.

(** X1.  [escapeHtml] replaces each ampersand, angle bracket, quote and
    backtick by its entity and leaves every other character: the later
    replacements do not touch the entities the earlier ones wrote.  So it
    distributes over concatenation, its output holds no angle bracket,
    quote or backtick, a text without the six characters is returned as it
    is, and the [codespan] rule puts the escaped text in a [code]
    element. *)
Theorem escapeHtml_by_character :
  forall (s t : string),
    escapeHtml s = escape_chars s
    /\ escapeHtml (s ++ t) = escapeHtml s ++ escapeHtml t
    /\ (forall d, In d markup_chars ->
                  includes (String d EmptyString) (escapeHtml s) = false)
    /\ (includes "&" s = false ->
        (forall d, In d markup_chars ->
                   includes (String d EmptyString) s = false) ->
        escapeHtml s = s)
    /\ codespan s
       = "<code class=" ++ dq ++ "codespan" ++ dq ++ ">" ++ escapeHtml s
         ++ "</code>".
Proof.
  intros s t. refine (conj _ (conj _ (conj _ (conj _ _)))).
  - apply escapeHtml_chars.
  - rewrite !escapeHtml_chars. apply escape_chars_append.
  - intros d Hd. rewrite escapeHtml_chars.
    induction s as [|c s IH]; [reflexivity|].
    cbn [escape_chars]. rewrite includes_char_append, IH.
    now rewrite (escape_char_clean c d Hd).
  - intros Ha Hm. rewrite escapeHtml_chars.
    induction s as [|c s IH]; [reflexivity|].
    cbn [escape_chars].
    assert (Hc : forall d, In d ("&"%char :: markup_chars) ->
                           Ascii.eqb d c = false
                           /\ includes (String d EmptyString) s = false).
    { intros d [<-|Hd].
      - cbn [includes starts_with] in Ha. rewrite andb_true_r in Ha.
        now apply orb_false_iff in Ha.
      - specialize (Hm d Hd). cbn [includes starts_with] in Hm.
        rewrite andb_true_r in Hm. now apply orb_false_iff in Hm. }
    rewrite IH.
    + unfold escape_char.
      rewrite (proj1 (Hc "&"%char (or_introl eq_refl))).
      rewrite (proj1 (Hc "<"%char (or_intror (or_introl eq_refl)))).
      rewrite (proj1 (Hc ">"%char (or_intror (or_intror (or_introl eq_refl))))).
      rewrite (proj1 (Hc (ascii_of_nat 34)
                 (or_intror (or_intror (or_intror (or_introl eq_refl)))))).
      rewrite (proj1 (Hc "'"%char
                 (or_intror (or_intror (or_intror (or_intror
                   (or_introl eq_refl))))))).
      rewrite (proj1 (Hc "`"%char
                 (or_intror (or_intror (or_intror (or_intror (or_intror
                   (or_introl eq_refl)))))))).
      reflexivity.
    + apply (Hc "&"%char). now left.
    + intros d Hd. apply (Hc d). now right.
  - reflexivity.
Qed.

Lemma escapeHtml_by_character_witness :
  escapeHtml "plain text" = "plain text"
  /\ escapeHtml "a<b && c" = "a&lt;b &amp;&amp; c".
Proof.
  split.
  - destruct (escapeHtml_by_character "plain text" EmptyString)
      as (_ & _ & _ & H & _).
    apply H; [reflexivity|].
    intros d [<-|[<-|[<-|[<-|[<-|[]]]]]]; reflexivity.
  - destruct (escapeHtml_by_character "a<b && c" EmptyString) as (H & _).
    rewrite H. reflexivity.
Defined.

Lemma escape_char_head (c : ascii) :
  exists x r, escape_char c = String x r
              /\ (x = c \/ (x = "&"%char /\ r <> EmptyString)).
Proof.
  unfold escape_char.
  repeat match goal with
    | |- context [Ascii.eqb ?a c] =>
        destruct (Ascii.eqb_spec a c);
        [subst; eexists; eexists; split;
         [reflexivity | right; split; [reflexivity|discriminate]]|]
    end.
  exists c, EmptyString. split; [reflexivity|now left].
Qed.

Lemma escape_chars_step (c1 c2 : ascii) (x y : string) :
  escape_char c1 ++ x = escape_char c2 ++ y -> c1 = c2 /\ x = y.
Proof.
  unfold escape_char.
  repeat match goal with
    | |- context [Ascii.eqb ?a c1] =>
        destruct (Ascii.eqb_spec a c1); [subst c1|]
    end;
  repeat match goal with
    | |- context [Ascii.eqb ?a c2] =>
        destruct (Ascii.eqb_spec a c2); [subst c2|]
    end;
  cbn [append]; intros H; try discriminate H;
    try (injection H as H; split; [reflexivity|assumption]);
    try (injection H as H1 H2; split; congruence).
Qed.

(** X2.  [escapeHtml] loses nothing: two different texts have different
    escaped forms. *)
Theorem escapeHtml_injective :
  forall (s t : string), s <> t -> escapeHtml s <> escapeHtml t.
Proof.
  intros s t N E. apply N. clear N.
  rewrite !escapeHtml_chars in E. revert t E.
  induction s as [|c s IH]; intros [|d t] E.
  - reflexivity.
  - exfalso. cbn [escape_chars] in E.
    destruct (escape_char_head d) as (x & r & H & _). rewrite H in E.
    discriminate E.
  - exfalso. cbn [escape_chars] in E.
    destruct (escape_char_head c) as (x & r & H & _). rewrite H in E.
    discriminate E.
  - cbn [escape_chars] in E. apply escape_chars_step in E.
    destruct E as [-> E]. f_equal. now apply IH.
Qed.

Lemma escapeHtml_injective_witness :
  escapeHtml "<" <> escapeHtml "&lt;".
Proof. apply escapeHtml_injective. discriminate. Defined.

(** ** The link rule in citation mode *)

(** X3.  In citation mode a link that is neither to the publishing platform
    nor its own text gets a superscript marker with the index under which
    its address is in the registry afterwards; the registry keeps its
    invariant; rendering the same link again gives the same marker and
    changes nothing.  Outside citation mode the link rule leaves the
    registry alone. *)
Theorem link_cites_once :
  forall (href : string) (title : option string) (text parsedText : string)
         (r : Renderer),
    is_weixin href = false ->
    href <> text ->
    registry_ok r ->
    (flag (citeStatus (opts r)) = true ->
     exists n t,
       let r' := snd (link href title text parsedText r) in
       fst (link href title text parsedText r)
       = anchor href title text
           (parsedText ++ "<sup>[" ++ of_nat n ++ "]</sup>")
       /\ In (n, t, href) (footnotes r')
       /\ 1 <= n <= length (footnotes r')
       /\ registry_ok r'
       /\ opts r' = opts r
       /\ link href title text parsedText r'
          = (fst (link href title text parsedText r), r'))
    /\ (flag (citeStatus (opts r)) = false ->
        link href title text parsedText r
        = (anchor href title text parsedText, r)).
Proof.
  intros href title text parsedText r W N Hr.
  apply String.eqb_neq in N. unfold link. rewrite W, N. split.
  - intros C. rewrite C.
    pose proof (registry_ok_addFootnote (or_else title text) href r Hr) as Hr'.
    destruct (addFootnote (or_else title text) href r) as [n r'] eqn:A.
    cbn [fst snd] in *.
    assert (Hin : exists t, In (n, t, href) (footnotes r') /\ opts r' = opts r).
    { unfold addFootnote in A.
      destruct (find _ (footnotes r)) as [[[i t] l]|] eqn:F.
      - injection A as <- <-. apply find_some in F. destruct F as [F1 F2].
        apply String.eqb_eq in F2. unfold fn_link in F2. cbn in F2. subst l.
        exists t. split; [exact F1|reflexivity].
      - injection A as <- <-. exists (or_else title text). cbn.
        split; [|reflexivity]. apply in_or_app. right. now left. }
    destruct Hin as (t & Hin & Ho).
    exists n, t. refine (conj eq_refl (conj Hin (conj _ (conj Hr' (conj Ho _))))).
    + destruct Hr' as [Hd _ _].
      assert (Hn : In n (map fn_index (footnotes r')))
        by (change n with (fn_index (n, t, href)); now apply in_map).
      rewrite Hd in Hn. apply in_seq in Hn. lia.
    + rewrite Ho, C.
      rewrite (addFootnote_known (or_else title text) href r' n t
                 (ok_unique Hr') Hin).
      reflexivity.
  - intros C. now rewrite C.
Qed.

Lemma link_cites_once_witness :
  let r := initRenderer (mkOpts None (Some (Some true)) None None None None) in
  fst (link "https://a.example" None "A" "A" r)
  = "<a href=" ++ dq ++ "https://a.example" ++ dq ++ " title=" ++ dq ++ "A"
    ++ dq ++ ">A<sup>[1]</sup></a>".
Proof.
  intros r.
  destruct (proj1 (link_cites_once "https://a.example" None "A" "A" r
                     eq_refl ltac:(discriminate) (registry_ok_init _))
              eq_refl) as (n & t & E & Hin & _).
  cbv zeta in E, Hin. rewrite E.
  destruct Hin as [Hin|[]]. injection Hin as <- _. reflexivity.
Defined.

(** ** What the emphasis rewrite leaves *)

Lemma visit_is_plain (n : node) : plain (visit n) = true.
Proof.
  induction n as [t v|t v cs IH] using node_induction; cbn [visit].
  - destruct (t =? "strong") eqn:Hs; [reflexivity|].
    destruct (t =? "emphasis") eqn:He; [reflexivity|].
    cbn. now rewrite Hs, He.
  - destruct (t =? "strong") eqn:Hs; [reflexivity|].
    destruct (t =? "emphasis") eqn:He; [reflexivity|].
    cbn [option_map plain]. rewrite Hs, He. cbn [negb andb].
    apply forallb_forall. intros c Hc. apply in_map_iff in Hc.
    destruct Hc as (c0 & <- & Hc0). rewrite Forall_forall in IH. now apply IH.
Qed.

(** X4.  After the rewrite no [strong] or [emphasis] node is left anywhere
    below the root, the root keeps its type and value and the number of its
    children, and a second run of the rewrite changes nothing. *)
Theorem visit_leaves_no_emphasis :
  forall (type : string) (value : option string) (children : list node),
    exists children',
      visit_root (Node type value (Some children))
      = Node type value (Some children')
      /\ length children' = length children
      /\ forallb plain children' = true
      /\ visit_root (Node type value (Some children'))
         = Node type value (Some children').
Proof.
  intros type value children. exists (map visit children).
  refine (conj eq_refl (conj (length_map _ _) (conj _ _))).
  - apply forallb_forall. intros c Hc. apply in_map_iff in Hc.
    destruct Hc as (c0 & <- & _). apply visit_is_plain.
  - cbn [visit_root option_map]. do 2 f_equal.
    apply map_id_Forall. apply Forall_forall. intros c Hc.
    apply in_map_iff in Hc. destruct Hc as (c0 & <- & _).
    apply visit_plain, visit_is_plain.
Qed.

(** ** Lists *)

Lemma top_push {A : Type} (a : list A) (x : A) : top (a ++ [x])%list = Some x.
Proof. unfold top. now rewrite rev_app_distr. Qed.

Lemma set_top_push {A : Type} (a : list A) (x y : A) :
  set_top (a ++ [x])%list y = (a ++ [y])%list.
Proof.
  unfold set_top. destruct (a ++ [x])%list eqn:E.
  - now destruct a.
  - rewrite <- E. now rewrite removelast_last.
Qed.

Section ListFacts.

Variable bullet : string.

Lemma listitems_numbered (ordered : bool) (items : list Content) :
  Forall balanced items ->
  forall (n : nat) (st : ListState),
    listitems bullet items (in_list st ordered n)
    = (numbered_items bullet ordered n items st,
       in_list st ordered (n + length items)).
Proof.
  induction 1 as [|item rest Hb _ IH]; intros n st.
  - cbn. now rewrite Nat.add_0_r.
  - cbn [listitems numbered_items length]. unfold listitem.
    cbn [in_list listOrderedStack listCounters].
    rewrite !top_push, set_top_push. rewrite Nat.add_1_r.
    fold (in_list st ordered (S n)).
    pose proof (Hb (in_list st ordered (S n))) as B.
    destruct (item (in_list st ordered (S n))) as [text st2]. cbn in B. subst st2.
    rewrite IH. cbn [fst]. rewrite <- plus_n_Sm.
    unfold item_prefix. now destruct ordered.
Qed.

(** X5.  The list rule numbers the items of an ordered list from its start
    value, one by one, gives the items of an unordered list the bullet, and
    leaves the two stacks as it found them, whatever they hold, as long as
    the content of every item leaves them as it found them; so the list
    rule is itself such a content, and a list nested in an item at any depth
    is numbered from its own start value, whatever the position of the item
    around it. *)
Theorem list_rule_numbers_items :
  forall (ordered : bool) (start : nat) (items : list Content),
    Forall balanced items ->
    balanced (list_rule bullet ordered start items)
    /\ forall st,
         fst (list_rule bullet ordered start items st)
         = styledContent (if ordered then "ol" else "ul")
             (numbered_items bullet ordered start items st) None.
Proof.
  intros ordered start items Hb.
  assert (E : forall st,
             list_rule bullet ordered start items st
             = (styledContent (if ordered then "ol" else "ul")
                  (numbered_items bullet ordered start items st) None, st)).
  { intros st. unfold list_rule.
    fold (in_list st ordered start).
    rewrite (listitems_numbered ordered items Hb start st).
    cbn [in_list listOrderedStack listCounters].
    rewrite !removelast_last. now destruct st. }
  split.
  - intros st. now rewrite E.
  - intros st. now rewrite E.
Qed.

End ListFacts.

(** An ordered list of two items starting at 3 under the second item of an
    unordered list. *)
Lemma list_rule_numbers_items_witness :
  let leaf (t : string) : Content := fun st => (t, st) in
  let inner : Content :=
    fun st =>
      let (html, st') := list_rule "* " true 3 [leaf "x"; leaf "y"] st in
      ("b" ++ html, st') in
  fst (list_rule "* " false 0 [leaf "a"; inner] (mkListState [] []))
  = "<ul class=" ++ dq ++ "ul" ++ dq ++ ">"
    ++ "<li class=" ++ dq ++ "listitem" ++ dq ++ ">* a</li>"
    ++ "<li class=" ++ dq ++ "listitem" ++ dq ++ ">* b"
    ++ "<ol class=" ++ dq ++ "ol" ++ dq ++ ">"
    ++ "<li class=" ++ dq ++ "listitem" ++ dq ++ ">3. x</li>"
    ++ "<li class=" ++ dq ++ "listitem" ++ dq ++ ">4. y</li>"
    ++ "</ol></li></ul>".
Proof.
  intros leaf inner.
  assert (Hleaf : forall t, balanced (leaf t)) by (intros t st; reflexivity).
  assert (Hinner : balanced inner).
  { intros st. unfold inner.
    pose proof (proj1 (list_rule_numbers_items "* " true 3
                         [leaf "x"; leaf "y"]
                         (Forall_cons _ (Hleaf "x")
                            (Forall_cons _ (Hleaf "y") (Forall_nil _)))) st) as B.
    destruct (list_rule "* " true 3 [leaf "x"; leaf "y"] st). exact B. }
  rewrite (proj2 (list_rule_numbers_items "* " false 0 [leaf "a"; inner]
                    (Forall_cons _ (Hleaf "a")
                       (Forall_cons _ Hinner (Forall_nil _))))).
  reflexivity.
Defined.

(** ** What the list restructuring keeps *)

Lemma includes_self (w r : string) : includes w (w ++ r) = true.
Proof.
  pose proof (starts_with_self w r) as H.
  destruct (w ++ r); cbn [includes]; now rewrite H.
Qed.

Lemma includes_starts (w s : string) :
  starts_with w s = true -> includes w s = true.
Proof. intros H. destruct s; cbn [includes]; now rewrite H. Qed.

Lemma li_replace_parts (s : string) :
  li_test s = true ->
  exists before w1 attrs content sub w2 after,
    s = before ++ w1 ++ attrs ++ ">" ++ content ++ sub ++ w2 ++ after
    /\ li_replace s
       = before ++ "<li" ++ attrs ++ ">" ++ content ++ "</li>" ++ sub ++ after
    /\ up w1 = "<LI" /\ up w2 = "</LI>"
    /\ (starts_with "<UL" (up sub) = true
        \/ starts_with "<OL" (up sub) = true).
Proof.
  intros T. unfold li_test, li_replace in *.
  destruct (Rx.search li_pattern s) as [[before m]|] eqn:E; [|discriminate].
  apply search_sound in E. destruct E as (rest & -> & E).
  apply li_pattern_shape in E.
  destruct E as (w1 & w2 & o & body & c & -> & Hw1 & Hw2 & Hs & Hoc).
  exists before, w1, (li_attrs m), (li_content m), (li_sublist m), w2,
    (li_after m).
  repeat split; auto.
  rewrite Hs, !up_append.
  destruct Hoc as [[-> _]|[-> _]]; [left|right]; reflexivity.
Qed.

Lemma li_test_needs (s : string) :
  li_test s = true ->
  includes "<LI" (up s) = true
  /\ includes "</LI>" (up s) = true
  /\ (includes "<UL" (up s) = true \/ includes "<OL" (up s) = true)
  /\ String.length (li_replace s) = String.length s.
Proof.
  intros T.
  destruct (li_replace_parts s T)
    as (before & w1 & attrs & content & sub & w2 & after
        & -> & -> & Hw1 & Hw2 & Hsub).
  rewrite !up_append, Hw1, Hw2.
  refine (conj _ (conj _ (conj _ _))).
  - apply includes_app_r. apply includes_self.
  - do 6 apply includes_app_r. apply includes_self.
  - destruct Hsub as [H|H]; [left|right];
      do 5 apply includes_app_r; apply includes_app_l;
      now apply includes_starts.
  - apply (f_equal String.length) in Hw1, Hw2. rewrite length_up in Hw1, Hw2.
    rewrite !length_append, Hw1, Hw2. cbn [String.length]. lia.
Qed.

Lemma modify_loop_keeps_length (fuel : nat) : forall s out,
  modify_loop fuel s = Some out -> String.length out = String.length s.
Proof.
  induction fuel as [|fuel IH]; intros s out; simpl; [discriminate|].
  destruct (li_test s) eqn:T.
  - intros H. rewrite (IH _ _ H). now apply li_test_needs.
  - now intros [= <-].
Qed.

(** X6.  The list restructuring returns a text as long as its input.  It
    returns the input itself when the input, read without regard to case,
    holds no closing tag of a list item, or no opening of a list item, or
    neither the opening of an unordered nor of an ordered list. *)
Theorem modifyHtmlStructure_keeps_length :
  forall s : string,
    exists out,
      modifyHtmlStructure s = Some out
      /\ String.length out = String.length s
      /\ (includes "</LI>" (up s) = false
          \/ includes "<LI" (up s) = false
          \/ (includes "<UL" (up s) = false /\ includes "<OL" (up s) = false)
          -> out = s).
Proof.
  intros s. unfold modifyHtmlStructure.
  destruct (modify_loop_terminates (S (li_weight s)) s (Nat.lt_succ_diag_r _))
    as (out & Hout & _).
  exists out. refine (conj Hout (conj (modify_loop_keeps_length _ _ _ Hout) _)).
  intros H.
  assert (T : li_test s = false).
  { destruct (li_test s) eqn:T; [|reflexivity].
    destruct (li_test_needs s T) as (A & B & C & _).
    destruct H as [H|[H|[H1 H2]]]; [congruence|congruence|].
    destruct C; congruence. }
  rewrite (modify_loop_stable (li_weight s) s T) in Hout. congruence.
Qed.

(** A text with the closing tag of a list item and the opening of a list
    but no opening of a list item. *)
Lemma modifyHtmlStructure_keeps_length_witness :
  exists out,
    modifyHtmlStructure "<p>a</li><ul>" = Some out
    /\ String.length out = String.length "<p>a</li><ul>"
    /\ out = "<p>a</li><ul>".
Proof.
  destruct (modifyHtmlStructure_keeps_length "<p>a</li><ul>")
    as (out & H & L & I).
  exists out. refine (conj H (conj L (I _))).
  right. left. reflexivity.
Defined.

(** ** Command line *)

Lemma loop_returns (fuel : nat) : forall argv i o,
  length argv - i <= fuel -> exists r, Cli.loop fuel argv i o = Some r.
Proof.
  induction fuel as [|fuel IH]; intros argv i o Hf; cbn [Cli.loop].
  - destruct (length argv <=? i)%nat eqn:E; [eauto|].
    apply Nat.leb_gt in E. lia.
  - destruct (length argv <=? i)%nat eqn:E; [eauto|].
    apply Nat.leb_gt in E.
    destruct (Cli.body argv i o) as [o' skip|m]; [|eauto].
    apply IH. destruct skip; lia.
Qed.

Lemma loop_more_fuel (fuel : nat) : forall fuel' argv i o r,
  Cli.loop fuel argv i o = Some r -> fuel <= fuel' ->
  Cli.loop fuel' argv i o = Some r.
Proof.
  induction fuel as [|fuel IH]; intros fuel' argv i o r H Hle.
  - cbn [Cli.loop] in H.
    destruct fuel'; cbn [Cli.loop];
      destruct (length argv <=? i)%nat; congruence.
  - destruct fuel' as [|fuel']; [lia|]. cbn [Cli.loop] in *.
    destruct (length argv <=? i)%nat; [exact H|].
    destruct (Cli.body argv i o) as [o' skip|m]; [|exact H].
    apply (IH fuel' _ _ _ _ H). lia.
Qed.

(** A property of the variables that every run of the body keeps holds
    when the loop ends. *)
Lemma loop_invariant (P : Cli.CliOptions -> Prop) (argv : list string) :
  (forall i o o' skip,
     P o -> Cli.body argv i o = Cli.Continue o' skip -> P o') ->
  forall fuel i o o',
    P o -> Cli.loop fuel argv i o = Some (inl o') -> P o'.
Proof.
  intros Hbody. induction fuel as [|fuel IH]; intros i o o' Ho H;
    cbn [Cli.loop] in H; destruct (length argv <=? i)%nat.
  - now injection H as <-.
  - discriminate.
  - now injection H as <-.
  - destruct (Cli.body argv i o) as [o1 skip|m] eqn:B; [|discriminate].
    exact (IH _ _ _ (Hbody _ _ _ _ Ho B) H).
Qed.

Ltac body_cases H :=
  unfold Cli.body in H; cbv zeta in H;
  repeat match type of H with
         | match ?c with _ => _ end = _ => destruct c eqn:?
         end;
  try discriminate H;
  try (injection H as <- <-).

Lemma body_inputPath (argv : list string) (i : nat) (o o' : Cli.CliOptions)
      (skip : bool) :
  Cli.body argv i o = Cli.Continue o' skip ->
  Cli.inputPath o' = Cli.inputPath o
  \/ (Cli.inputPath o = EmptyString
      /\ In (Cli.inputPath o') argv
      /\ starts_with "--" (Cli.inputPath o') = false).
Proof.
  intros H. body_cases H; try (left; reflexivity).
  right. cbn [Cli.inputPath Cli.set_inputPath].
  match goal with E : _ && _ = true |- _ =>
    apply andb_true_iff in E; destruct E as [E1 E2] end.
  apply negb_true_iff in E1, E2.
  refine (conj _ (conj _ E1)).
  - now destruct (Cli.inputPath o).
  - eapply nth_error_In; eauto.
Qed.

Lemma array_includes_In (a : list string) (x : string) :
  array_includes a x = true <-> In x a.
Proof.
  unfold array_includes. rewrite existsb_exists. split.
  - intros (y & Hy & E). apply String.eqb_eq in E. now subst y.
  - intros H. exists x. split; [exact H|apply String.eqb_refl].
Qed.

Lemma body_checked (argv : list string) (i : nat) (o o' : Cli.CliOptions)
      (skip : bool) :
  Cli.body argv i o = Cli.Continue o' skip ->
  (Cli.fontSize o' = Cli.fontSize o
   \/ exists v, Cli.fontSize o' = Some v /\ In v FONT_SIZE_OPTIONS)
  /\ (Cli.codeTheme o' = Cli.codeTheme o
      \/ In (Cli.codeTheme o') CODE_BLOCK_THEMES)
  /\ (Cli.legend o' = Cli.legend o \/ In (Cli.legend o') LEGEND_VALUES).
Proof.
  intros H. body_cases H;
    try (refine (conj (or_introl eq_refl)
                   (conj (or_introl eq_refl) (or_introl eq_refl))); fail);
    match goal with E : negb (array_includes _ _) = false |- _ =>
      apply negb_false_iff, array_includes_In in E end.
  - refine (conj (or_intror _) (conj (or_introl eq_refl) (or_introl eq_refl))).
    eexists. split; [reflexivity|eassumption].
  - refine (conj (or_introl eq_refl) (conj (or_intror _) (or_introl eq_refl))).
    assumption.
  - refine (conj (or_introl eq_refl) (conj (or_introl eq_refl) (or_intror _))).
    assumption.
Qed.

Lemma body_switches (argv : list string) (i : nat) (o o' : Cli.CliOptions)
      (skip : bool) :
  Cli.body argv i o = Cli.Continue o' skip ->
  (Cli.keepTitle o' = Cli.keepTitle o
   \/ (Cli.keepTitle o' = true /\ In "--keep-title" argv))
  /\ (Cli.isShowLineNumber o' = Cli.isShowLineNumber o
      \/ (Cli.isShowLineNumber o' = true /\ In "--line-number" argv))
  /\ (Cli.citeStatus o' = Cli.citeStatus o
      \/ (Cli.citeStatus o' = true /\ In "--cite" argv))
  /\ (Cli.countStatus o' = Cli.countStatus o
      \/ (Cli.countStatus o' = true /\ In "--count" argv))
  /\ (Cli.isMacCodeBlock o' = Cli.isMacCodeBlock o
      \/ (Cli.isMacCodeBlock o' = true /\ In "--mac-code-block" argv)
      \/ (Cli.isMacCodeBlock o' = false /\ In "--no-mac-code-block" argv)).
Proof.
  intros H. body_cases H;
    try (refine (conj (or_introl eq_refl) (conj (or_introl eq_refl)
                   (conj (or_introl eq_refl) (conj (or_introl eq_refl)
                      (or_introl eq_refl))))); fail);
    match goal with
      N : nth_error argv i = Some ?a, E : (?a =? _) = true |- _ =>
        apply String.eqb_eq in E; subst a;
        pose proof (nth_error_In _ _ N) as HIn
    end.
  - refine (conj (or_intror (conj eq_refl HIn)) (conj (or_introl eq_refl)
              (conj (or_introl eq_refl) (conj (or_introl eq_refl)
                 (or_introl eq_refl))))).
  - refine (conj (or_introl eq_refl) (conj (or_introl eq_refl)
              (conj (or_introl eq_refl) (conj (or_introl eq_refl)
                 (or_intror (or_introl (conj eq_refl HIn))))))).
  - refine (conj (or_introl eq_refl) (conj (or_introl eq_refl)
              (conj (or_introl eq_refl) (conj (or_introl eq_refl)
                 (or_intror (or_intror (conj eq_refl HIn))))))).
  - refine (conj (or_introl eq_refl) (conj (or_intror (conj eq_refl HIn))
              (conj (or_introl eq_refl) (conj (or_introl eq_refl)
                 (or_introl eq_refl))))).
  - refine (conj (or_introl eq_refl) (conj (or_introl eq_refl)
              (conj (or_intror (conj eq_refl HIn)) (conj (or_introl eq_refl)
                 (or_introl eq_refl))))).
  - refine (conj (or_introl eq_refl) (conj (or_introl eq_refl)
              (conj (or_introl eq_refl) (conj (or_intror (conj eq_refl HIn))
                 (or_introl eq_refl))))).
Qed.

Lemma parseArgs_options (THEME_NAMES : list string)
      (ext : Extend.ExtendConfig) (argv : list string) (o : Cli.CliOptions) :
  Cli.parseArgs THEME_NAMES ext argv = Some (Cli.Options o) ->
  Cli.loop (length argv) argv 0 (Cli.initial ext) = Some (inl o)
  /\ Cli.inputPath o <> EmptyString
  /\ In (Cli.theme o) THEME_NAMES.
Proof.
  unfold Cli.parseArgs, Cli.finish.
  destruct (Cli.loop (length argv) argv 0 (Cli.initial ext)) as [[o1|m]|];
    [|discriminate|discriminate].
  destruct (negb (truthy (Cli.inputPath o1))) eqn:E1; [discriminate|].
  destruct (negb (array_includes THEME_NAMES (Cli.theme o1))) eqn:E2;
    [discriminate|].
  intros [= <-]. refine (conj eq_refl (conj _ _)).
  - intros E. rewrite E in E1. discriminate.
  - now apply negb_false_iff, array_includes_In in E2.
Qed.

Lemma parseArgs_returns (THEME_NAMES : list string)
      (ext : Extend.ExtendConfig) (argv : list string) :
  exists r, Cli.parseArgs THEME_NAMES ext argv = Some r.
Proof.
  unfold Cli.parseArgs.
  destruct (loop_returns (length argv) argv 0 (Cli.initial ext))
    as ([o|m] & ->); [lia| |]; eauto.
Qed.

(** X7.  [parseArgs] returns for every argument list.  The options it
    returns name an input path that is a non-empty argument not starting
    with two dashes and a theme that is one of the known themes; a font
    size, a code theme and a legend that differ from those of the settings
    file are among the values the program accepts. *)
Theorem parseArgs_validates :
  forall (THEME_NAMES : list string) (ext : Extend.ExtendConfig)
         (argv : list string),
    (exists r, Cli.parseArgs THEME_NAMES ext argv = Some r)
    /\ forall o,
         Cli.parseArgs THEME_NAMES ext argv = Some (Cli.Options o) ->
         Cli.inputPath o <> EmptyString
         /\ In (Cli.inputPath o) argv
         /\ starts_with "--" (Cli.inputPath o) = false
         /\ In (Cli.theme o) THEME_NAMES
         /\ (Cli.fontSize o = Extend.default_font_size ext
             \/ exists v, Cli.fontSize o = Some v /\ In v FONT_SIZE_OPTIONS)
         /\ (Cli.codeTheme o
             = Cli.nullish (Extend.default_code_theme ext) "github"
             \/ In (Cli.codeTheme o) CODE_BLOCK_THEMES)
         /\ (Cli.legend o = Cli.nullish (Extend.legend ext) "alt"
             \/ In (Cli.legend o) LEGEND_VALUES).
Proof.
  intros THEME_NAMES ext argv. split; [apply parseArgs_returns|].
  intros o H. apply parseArgs_options in H. destruct H as (L & Hp & Ht).
  assert (P : Cli.inputPath o = EmptyString
              \/ (In (Cli.inputPath o) argv
                  /\ starts_with "--" (Cli.inputPath o) = false)).
  { refine (loop_invariant
              (fun o => Cli.inputPath o = EmptyString
                        \/ (In (Cli.inputPath o) argv
                            /\ starts_with "--" (Cli.inputPath o) = false))
              argv _ _ _ _ _ _ L); [|left; reflexivity].
    intros i o1 o2 skip Ho B. apply body_inputPath in B.
    destruct B as [->|(_ & B)]; [exact Ho|right; exact B]. }
  destruct P as [P|[P1 P2]]; [contradiction|].
  refine (conj Hp (conj P1 (conj P2 (conj Ht (conj _ (conj _ _)))))).
  - refine (loop_invariant
              (fun o => Cli.fontSize o = Extend.default_font_size ext
                        \/ exists v, Cli.fontSize o = Some v
                                     /\ In v FONT_SIZE_OPTIONS)
              argv _ _ _ _ _ _ L); [|left; reflexivity].
    intros i o1 o2 skip Ho B. apply body_checked in B.
    destruct B as ([->|B] & _); [exact Ho|right; exact B].
  - refine (loop_invariant
              (fun o => Cli.codeTheme o
                        = Cli.nullish (Extend.default_code_theme ext) "github"
                        \/ In (Cli.codeTheme o) CODE_BLOCK_THEMES)
              argv _ _ _ _ _ _ L); [|left; reflexivity].
    intros i o1 o2 skip Ho B. apply body_checked in B.
    destruct B as (_ & [->|B] & _); [exact Ho|right; exact B].
  - refine (loop_invariant
              (fun o => Cli.legend o = Cli.nullish (Extend.legend ext) "alt"
                        \/ In (Cli.legend o) LEGEND_VALUES)
              argv _ _ _ _ _ _ L); [|left; reflexivity].
    intros i o1 o2 skip Ho B. apply body_checked in B.
    destruct B as (_ & _ & [->|B]); [exact Ho|right; exact B].
Qed.

Lemma parseArgs_validates_witness :
  let o := Cli.mkCli "a.md" "grace" false None None (Some "15px") "github"
                     true false false false "alt" in
  Cli.parseArgs ["default"; "grace"] Extend.empty
                ["a.md"; "--font-size"; "15"; "--theme=grace"]
  = Some (Cli.Options o)
  /\ In (Cli.inputPath o) ["a.md"; "--font-size"; "15"; "--theme=grace"]
  /\ In (Cli.theme o) ["default"; "grace"].
Proof.
  intros o.
  assert (H : Cli.parseArgs ["default"; "grace"] Extend.empty
                ["a.md"; "--font-size"; "15"; "--theme=grace"]
              = Some (Cli.Options o)) by reflexivity.
  destruct (proj2 (parseArgs_validates ["default"; "grace"] Extend.empty
                     ["a.md"; "--font-size"; "15"; "--theme=grace"]) o H)
    as (_ & P & _ & T & _).
  exact (conj H (conj P T)).
Defined.

(** X8.  The switches for keeping the title, line numbers, citations and
    the reading time can only turn a setting on: a setting that the
    settings file turns on is on in the options returned, and one that is
    on in the options returned is on in the settings file or has its switch
    among the arguments.  The frame of code blocks, on unless set
    otherwise, is off only when the settings file turns it off or the
    switch against it is among the arguments. *)
Theorem parseArgs_switches :
  forall (THEME_NAMES : list string) (ext : Extend.ExtendConfig)
         (argv : list string) (o : Cli.CliOptions),
    Cli.parseArgs THEME_NAMES ext argv = Some (Cli.Options o) ->
    (Extend.keep_title ext = Some true -> Cli.keepTitle o = true)
    /\ (Cli.keepTitle o = true ->
        Extend.keep_title ext = Some true \/ In "--keep-title" argv)
    /\ (Extend.show_line_number ext = Some true ->
        Cli.isShowLineNumber o = true)
    /\ (Cli.isShowLineNumber o = true ->
        Extend.show_line_number ext = Some true \/ In "--line-number" argv)
    /\ (Extend.cite ext = Some true -> Cli.citeStatus o = true)
    /\ (Cli.citeStatus o = true ->
        Extend.cite ext = Some true \/ In "--cite" argv)
    /\ (Extend.count ext = Some true -> Cli.countStatus o = true)
    /\ (Cli.countStatus o = true ->
        Extend.count ext = Some true \/ In "--count" argv)
    /\ (Cli.isMacCodeBlock o = false ->
        Extend.mac_code_block ext = Some false
        \/ In "--no-mac-code-block" argv).
Proof.
  intros THEME_NAMES ext argv o H.
  apply parseArgs_options in H. destruct H as (L & _ & _).
  assert (S : forall (get : Cli.CliOptions -> bool) (arg : string)
                     (setting : option bool),
             get (Cli.initial ext) = Cli.nullish setting false ->
             (forall i o1 o2 skip,
                Cli.body argv i o1 = Cli.Continue o2 skip ->
                get o2 = get o1 \/ (get o2 = true /\ In arg argv)) ->
             (setting = Some true -> get o = true)
             /\ (get o = true -> setting = Some true \/ In arg argv)).
  { intros get arg setting Hi Hb. split.
    - intros Hs.
      refine (loop_invariant (fun o => get o = true) argv _ _ _ _ _ _ L).
      + intros i o1 o2 skip Ho B. destruct (Hb _ _ _ _ B) as [->|[B1 _]]; auto.
      + rewrite Hi, Hs. reflexivity.
    - refine (loop_invariant
                (fun o => get o = true -> setting = Some true \/ In arg argv)
                argv _ _ _ _ _ _ L).
      + intros i o1 o2 skip Ho B. destruct (Hb _ _ _ _ B) as [->|[_ B2]]; auto.
      + rewrite Hi. destruct setting as [[|]|]; cbn; auto; discriminate. }
  destruct (S Cli.keepTitle "--keep-title" (Extend.keep_title ext) eq_refl)
    as [K1 K2].
  { intros i o1 o2 skip B. apply body_switches in B. tauto. }
  destruct (S Cli.isShowLineNumber "--line-number"
              (Extend.show_line_number ext) eq_refl) as [N1 N2].
  { intros i o1 o2 skip B. apply body_switches in B. tauto. }
  destruct (S Cli.citeStatus "--cite" (Extend.cite ext) eq_refl) as [C1 C2].
  { intros i o1 o2 skip B. apply body_switches in B. tauto. }
  destruct (S Cli.countStatus "--count" (Extend.count ext) eq_refl)
    as [R1 R2].
  { intros i o1 o2 skip B. apply body_switches in B. tauto. }
  refine (conj K1 (conj K2 (conj N1 (conj N2 (conj C1 (conj C2
            (conj R1 (conj R2 _)))))))).
  refine (loop_invariant
            (fun o => Cli.isMacCodeBlock o = false ->
                      Extend.mac_code_block ext = Some false
                      \/ In "--no-mac-code-block" argv)
            argv _ _ _ _ _ _ L).
  - intros i o1 o2 skip Ho B. apply body_switches in B.
    destruct B as (_ & _ & _ & _ & [->|[[B _]|[_ B]]]); auto.
    intros E. congruence.
  - cbn. destruct (Extend.mac_code_block ext) as [[|]|]; cbn; auto;
      discriminate.
Qed.

Lemma parseArgs_switches_witness :
  let ext := Extend.mkExtend None None None None None None None (Some true)
                             None None None in
  exists o,
    Cli.parseArgs ["default"] ext ["a.md"; "--count"] = Some (Cli.Options o)
    /\ Cli.citeStatus o = true
    /\ (Cli.countStatus o = true ->
        Extend.count ext = Some true \/ In "--count" ["a.md"; "--count"]).
Proof.
  intros ext.
  eexists. split; [reflexivity|].
  match goal with |- Cli.citeStatus ?o = _ /\ _ =>
    destruct (parseArgs_switches ["default"] ext ["a.md"; "--count"] o
                eq_refl)
      as (_ & _ & _ & _ & C & _ & _ & R & _)
  end.
  exact (conj (C eq_refl) R).
Defined.

Lemma loop_step (fuel : nat) (argv : list string) (i : nat)
      (o : Cli.CliOptions) :
  i < length argv ->
  Cli.loop (S fuel) argv i o
  = match Cli.body argv i o with
    | Cli.Continue o' skip =>
        Cli.loop fuel argv (if skip then i + 1 + 1 else i + 1) o'
    | Cli.Return message => Some (inr message)
    end.
Proof.
  intros H. cbn [Cli.loop].
  destruct (length argv <=? i)%nat eqn:E; [|reflexivity].
  apply Nat.leb_le in E. lia.
Qed.

Lemma body_positional (argv : list string) (i : nat) (o : Cli.CliOptions)
      (p : string) :
  nth_error argv i = Some p -> starts_with "--" p = false ->
  Cli.inputPath o = EmptyString ->
  Cli.body argv i o = Cli.Continue (Cli.set_inputPath p o) false.
Proof.
  intros N S E. unfold Cli.body. now rewrite N, S, E.
Qed.

Lemma eqb_dashes (q w : string) :
  starts_with "--" q = false -> starts_with "--" w = true -> (q =? w) = false.
Proof.
  intros Hq Hw. destruct (q =? w) eqn:E; [|reflexivity].
  apply String.eqb_eq in E. congruence.
Qed.

Lemma starts_with_trans (a w q : string) :
  starts_with a w = true -> starts_with w q = true -> starts_with a q = true.
Proof.
  revert w q. induction a as [|x a IH]; intros w q; [reflexivity|].
  destruct w as [|y w]; [discriminate|].
  destruct q as [|z q]; [discriminate|].
  cbn [starts_with]. intros H1 H2.
  apply andb_true_iff in H1, H2. destruct H1 as [E1 H1], H2 as [E2 H2].
  apply Ascii.eqb_eq in E1, E2. subst y z. rewrite Ascii.eqb_refl.
  exact (IH _ _ H1 H2).
Qed.

Lemma is_flag_dashes (q w : string) :
  starts_with "--" q = false -> starts_with "--" w = true ->
  Cli.is_flag w q = false.
Proof.
  intros Hq Hw. unfold Cli.is_flag. rewrite (eqb_dashes q w Hq Hw).
  destruct (starts_with (w ++ "=") q) eqn:E; [|reflexivity].
  rewrite starts_with_app in E. apply andb_true_iff in E. destruct E as [E _].
  rewrite (starts_with_trans _ _ _ Hw E) in Hq. discriminate.
Qed.

Lemma body_second_positional (argv : list string) (i : nat)
      (o : Cli.CliOptions) (q : string) :
  nth_error argv i = Some q -> starts_with "--" q = false ->
  Cli.inputPath o <> EmptyString ->
  Cli.body argv i o
  = if q =? "-h" then Cli.Return None
    else Cli.Return (Some ("Unknown argument: " ++ q)).
Proof.
  intros N S E. unfold Cli.body. rewrite N, S.
  assert (T : truthy (Cli.inputPath o) = true)
    by (destruct (Cli.inputPath o); [contradiction|reflexivity]).
  rewrite T. cbn [negb andb].
  repeat match goal with
         | |- context [q =? ?w] => rewrite (eqb_dashes q w S eq_refl)
         | |- context [Cli.is_flag ?w q] =>
             rewrite (is_flag_dashes q w S eq_refl)
         end.
  cbn [orb]. reflexivity.
Qed.

(** X9.  The first argument, when it does not start with two dashes, is
    the input path, the short help switch included; behind an input path
    either help switch ends the parse without options and without a
    message, and a second argument without two dashes ends it with the
    message for an unknown argument. *)
Theorem parseArgs_input_path :
  forall (THEME_NAMES : list string) (ext : Extend.ExtendConfig)
         (p : string) (rest : list string),
    starts_with "--" p = false ->
    p <> EmptyString ->
    Cli.parseArgs THEME_NAMES ext (p :: "-h" :: rest) = Some (Cli.Null None)
    /\ Cli.parseArgs THEME_NAMES ext (p :: "--help" :: rest)
       = Some (Cli.Null None)
    /\ (forall o,
          Cli.parseArgs THEME_NAMES ext (p :: rest) = Some (Cli.Options o) ->
          Cli.inputPath o = p)
    /\ (forall q rest',
          starts_with "--" q = false -> q <> "-h" ->
          Cli.parseArgs THEME_NAMES ext (p :: q :: rest')
          = Some (Cli.Null (Some ("Unknown argument: " ++ q)))).
Proof.
  intros THEME_NAMES ext p rest Sp Np.
  assert (First : forall l,
             Cli.loop (length (p :: l)) (p :: l) 0 (Cli.initial ext)
             = Cli.loop (length l) (p :: l) 1
                 (Cli.set_inputPath p (Cli.initial ext))).
  { intros l. cbn [length]. rewrite loop_step by (cbn [length]; lia).
    now rewrite (body_positional (p :: l) 0 (Cli.initial ext) p eq_refl Sp
                   eq_refl). }
  assert (Second : forall q l,
             starts_with "--" q = false ->
             Cli.loop (length (p :: q :: l)) (p :: q :: l) 0 (Cli.initial ext)
             = Some (inr (if q =? "-h" then None
                          else Some ("Unknown argument: " ++ q)))).
  { intros q l Sq. rewrite First. cbn [length].
    rewrite loop_step by (cbn [length]; lia).
    rewrite (body_second_positional (p :: q :: l) 1 _ q eq_refl Sq) by exact Np.
    now destruct (q =? "-h"). }
  refine (conj _ (conj _ (conj _ _))).
  - unfold Cli.parseArgs. now rewrite (Second "-h" rest eq_refl).
  - unfold Cli.parseArgs. rewrite First. cbn [length].
    rewrite loop_step by (cbn [length]; lia).
    unfold Cli.body. cbn [nth_error]. cbn. 
    destruct p; [contradiction|reflexivity].
  - intros o H. apply parseArgs_options in H. destruct H as (L & _ & _).
    rewrite First in L.
    refine (loop_invariant (fun o => Cli.inputPath o = p) (p :: rest)
              _ _ _ _ _ _ L); [|reflexivity].
    intros i o1 o2 skip Ho B. apply body_inputPath in B.
    destruct B as [->|(B & _)]; [exact Ho|congruence].
  - intros q l Sq Nq. unfold Cli.parseArgs. rewrite (Second q l Sq).
    destruct (q =? "-h") eqn:E; [|reflexivity].
    apply String.eqb_eq in E. contradiction.
Qed.

(** The short help switch alone is an input path. *)
Lemma parseArgs_input_path_witness :
  exists o,
    Cli.parseArgs ["default"] Extend.empty ["-h"] = Some (Cli.Options o)
    /\ Cli.inputPath o = "-h".
Proof.
  eexists. split; [reflexivity|].
  match goal with |- Cli.inputPath ?o = _ =>
    assert (N : "-h" <> EmptyString) by discriminate;
    exact (proj1 (proj2 (proj2 (parseArgs_input_path ["default"] Extend.empty
                                  "-h" [] eq_refl N))) o eq_refl)
  end.
Defined.

Lemma nth_error_shift (pre l : list string) (i : nat) :
  nth_error (pre ++ l)%list (length pre + i) = nth_error l i.
Proof.
  rewrite nth_error_app2 by lia. f_equal. lia.
Qed.

(** The body of the loop sees the argument at the index and the one after
    it, nothing else of the argument list. *)
Lemma body_local (argv argv' : list string) (i j : nat) (o : Cli.CliOptions) :
  nth_error argv i = nth_error argv' j ->
  nth_error argv (i + 1) = nth_error argv' (j + 1) ->
  Cli.body argv i o = Cli.body argv' j o.
Proof.
  intros H0 H1. unfold Cli.body, Cli.parseArgValue. now rewrite H0, H1.
Qed.

Lemma loop_shift (pre l : list string) (fuel : nat) : forall i o,
  Cli.loop fuel (pre ++ l)%list (length pre + i) o = Cli.loop fuel l i o.
Proof.
  induction fuel as [|fuel IH]; intros i o; cbn [Cli.loop];
    rewrite length_app;
    replace (length pre + length l <=? length pre + i)%nat
      with (length l <=? i)%nat
      by (destruct (Nat.leb_spec (length l) i),
            (Nat.leb_spec (length pre + length l) (length pre + i));
          try reflexivity; lia);
    destruct (length l <=? i)%nat; try reflexivity.
  rewrite (body_local (pre ++ l)%list l (length pre + i) i o).
  - destruct (Cli.body l i o) as [o' skip|m]; [|reflexivity].
    replace (if skip then length pre + i + 1 + 1 else length pre + i + 1)
      with (length pre + (if skip then i + 1 + 1 else i + 1))
      by (destruct skip; lia).
    apply IH.
  - apply nth_error_shift.
  - rewrite <- Nat.add_assoc. apply nth_error_shift.
Qed.

Lemma loop_fuel_irrelevant (f1 f2 : nat) (argv : list string) (i : nat)
      (o : Cli.CliOptions) :
  length argv - i <= f1 -> length argv - i <= f2 ->
  Cli.loop f1 argv i o = Cli.loop f2 argv i o.
Proof.
  intros H1 H2.
  destruct (loop_returns f1 argv i o H1) as (r1 & E1).
  destruct (loop_returns f2 argv i o H2) as (r2 & E2).
  destruct (Nat.le_ge_cases f1 f2) as [L|L].
  - pose proof (loop_more_fuel _ _ _ _ _ _ E1 L). congruence.
  - pose proof (loop_more_fuel _ _ _ _ _ _ E2 L). congruence.
Qed.

(** The flags that take a value. *)
Lemma body_equal_sign (flag v : string) (argv argv' : list string)
      (i j : nat) (o : Cli.CliOptions) :
  In flag ["--theme"; "--color"; "--font-family"; "--font-size";
           "--code-theme"; "--legend"] ->
  nth_error argv i = Some (flag ++ "=" ++ v) ->
  nth_error argv' j = Some flag ->
  nth_error argv' (j + 1) = Some v ->
  match Cli.body argv i o, Cli.body argv' j o with
  | Cli.Continue o1 s1, Cli.Continue o2 s2 =>
      o1 = o2 /\ s1 = false /\ s2 = true
  | Cli.Return m1, Cli.Return m2 => m1 = m2
  | _, _ => False
  end.
Proof.
  intros F N N0 N1. unfold Cli.body, Cli.parseArgValue.
  rewrite N, N0, N1.
  cbn [In] in F.
  destruct F as [<-|[<-|[<-|[<-|[<-|[<-|[]]]]]]];
    cbn -[array_includes ends_with String.concat Cli.resolveColor
          Cli.resolveFontFamily];
    destruct v as [|c v];
    cbn -[array_includes ends_with String.concat Cli.resolveColor
          Cli.resolveFontFamily];
    try reflexivity;
    try (repeat split; reflexivity);
    repeat match goal with
           | |- context [if ?c then _ else _] => destruct c
           end;
    try reflexivity; repeat split; reflexivity.
Qed.

(** X10.  Behind an input path, a flag that takes a value gives the same
    result with its value behind an equals sign in the same argument as
    with its value in the next argument, whatever the value and whatever
    follows. *)
Theorem parseArgs_equal_sign :
  forall (THEME_NAMES : list string) (ext : Extend.ExtendConfig)
         (flag v p : string) (rest : list string),
    In flag ["--theme"; "--color"; "--font-family"; "--font-size";
             "--code-theme"; "--legend"] ->
    starts_with "--" p = false ->
    Cli.parseArgs THEME_NAMES ext (p :: (flag ++ "=" ++ v) :: rest)
    = Cli.parseArgs THEME_NAMES ext (p :: flag :: v :: rest).
Proof.
  intros THEME_NAMES ext flag v p rest F Sp.
  unfold Cli.parseArgs. cbn [length].
  rewrite !loop_step by (cbn [length]; lia).
  rewrite (body_positional (p :: (flag ++ "=" ++ v) :: rest) 0
             (Cli.initial ext) p eq_refl Sp eq_refl).
  rewrite (body_positional (p :: flag :: v :: rest) 0
             (Cli.initial ext) p eq_refl Sp eq_refl).
  rewrite !loop_step by (cbn [length]; lia).
  set (o := Cli.set_inputPath p (Cli.initial ext)).
  pose proof (body_equal_sign flag v (p :: (flag ++ "=" ++ v) :: rest)
                (p :: flag :: v :: rest) 1 1 o F eq_refl eq_refl eq_refl) as B.
  cbn [Nat.add] in *.
  destruct (Cli.body (p :: (flag ++ "=" ++ v) :: rest) 1 o) as [o1 s1|m1],
           (Cli.body (p :: flag :: v :: rest) 1 o) as [o2 s2|m2];
    try contradiction.
  - destruct B as (-> & -> & ->).
    change (p :: (flag ++ "=" ++ v) :: rest)
      with ([p; (flag ++ "=" ++ v)%string] ++ rest)%list.
    change (p :: flag :: v :: rest) with ([p; flag; v] ++ rest)%list.
    change 3 with (length [p; flag; v] + 0).
    change 2 with (length [p; flag ++ "=" ++ v] + 0).
    rewrite !loop_shift.
    now rewrite (loop_fuel_irrelevant (length rest) (S (length rest)) rest 0 o2)
      by lia.
  - now subst m2.
Qed.

Lemma parseArgs_equal_sign_witness :
  Cli.parseArgs ["default"] Extend.empty ["a.md"; "--legend=none"; "--cite"]
  = Cli.parseArgs ["default"] Extend.empty
      ["a.md"; "--legend"; "none"; "--cite"].
Proof.
  apply (parseArgs_equal_sign ["default"] Extend.empty "--legend" "none"
           "a.md" ["--cite"]).
  - cbn. tauto.
  - reflexivity.
Defined.

Lemma lookup_own (o : list (string * string)) (v : string)
      (ok : string -> bool) :
  forallb (fun kv => negb (ok (fst kv))) o = true ->
  forallb (fun k => negb (ok k)) OBJECT_PROTOTYPE = true ->
  ok v = true ->
  lookup o v = None.
Proof.
  intros Ho Hp Hv. unfold lookup.
  destruct (find (fun kv => fst kv =? v) o) as [kv|] eqn:F.
  - apply find_some in F. destruct F as [I E]. apply String.eqb_eq in E.
    rewrite forallb_forall in Ho. specialize (Ho _ I).
    rewrite E, Hv in Ho. discriminate.
  - destruct (array_includes OBJECT_PROTOTYPE v) eqn:A; [|reflexivity].
    apply array_includes_In in A.
    rewrite forallb_forall in Hp. specialize (Hp _ A).
    rewrite Hv in Hp. discriminate.
Qed.

(** X11.  The name of a colour preset resolves to the colour of the preset,
    a text starting with a hash sign to itself, so the colour of a preset
    to itself; the name of a font preset resolves to its font stack, and a
    text with a comma, as every font stack of the presets has one, to
    itself.  What is returned is no text only for the name of a member
    that every object inherits. *)
Theorem resolveColor_presets :
  (forall name hex,
     In (name, hex) COLOR_PRESETS ->
     Cli.resolveColor name = Own hex /\ Cli.resolveColor hex = Own hex)
  /\ (forall v, starts_with "#" v = true -> Cli.resolveColor v = Own v)
  /\ (forall name stack,
        In (name, stack) FONT_FAMILY_MAP ->
        Cli.resolveFontFamily name = Own stack
        /\ Cli.resolveFontFamily stack = Own stack)
  /\ (forall v, includes "," v = true -> Cli.resolveFontFamily v = Own v)
  /\ (forall v n,
        Cli.resolveColor v = Inherited n
        \/ Cli.resolveFontFamily v = Inherited n ->
        n = v /\ In v OBJECT_PROTOTYPE).
Proof.
  assert (Hash : forall v, starts_with "#" v = true ->
                           Cli.resolveColor v = Own v).
  { intros v H. unfold Cli.resolveColor.
    now rewrite (lookup_own COLOR_PRESETS v (starts_with "#") eq_refl eq_refl H). }
  assert (Comma : forall v, includes "," v = true ->
                            Cli.resolveFontFamily v = Own v).
  { intros v H. unfold Cli.resolveFontFamily.
    now rewrite (lookup_own FONT_FAMILY_MAP v (includes ",") eq_refl eq_refl H). }
  refine (conj _ (conj Hash (conj _ (conj Comma _)))).
  - intros name hex H. cbn [In COLOR_PRESETS] in H.
    repeat (destruct H as [H|H];
            [injection H as <- <-; split; [reflexivity|now apply Hash]|]).
    destruct H.
  - intros name stack H. cbn [In FONT_FAMILY_MAP] in H.
    repeat (destruct H as [H|H];
            [injection H as <- <-; split; [reflexivity|now apply Comma]|]).
    destruct H.
  - assert (L : forall o v n,
               match lookup o v with Some x => x | None => Own v end
               = Inherited n -> n = v /\ In v OBJECT_PROTOTYPE).
    { intros o v n. unfold lookup.
      destruct (find (fun kv => fst kv =? v) o); [discriminate|].
      destruct (array_includes OBJECT_PROTOTYPE v) eqn:A; [|discriminate].
      intros [= <-]. split; [reflexivity|now apply array_includes_In]. }
    intros v n [H|H]; exact (L _ _ _ H).
Qed.

Lemma resolveColor_presets_witness :
  Cli.resolveColor "orange" = Own "#D97757"
  /\ Cli.resolveColor "#D97757" = Own "#D97757"
  /\ Cli.resolveFontFamily "a, b" = Own "a, b"
  /\ In "valueOf" OBJECT_PROTOTYPE.
Proof.
  destruct resolveColor_presets as (P & H & _ & C & I).
  refine (conj (proj1 (P "orange" "#D97757" _))
            (conj (H "#D97757" eq_refl)
               (conj (C "a, b" eq_refl)
                  (proj2 (I "valueOf" "valueOf" (or_introl eq_refl)))))).
  cbn. tauto.
Defined.

(** ** The list of footnotes *)

Lemma split_on_plain (sep : ascii) (s : string) :
  includes (String sep EmptyString) s = false -> split_on sep s = [s].
Proof.
  induction s as [|c s IH]; [reflexivity|].
  cbn [includes starts_with split_on]. intros H.
  apply orb_false_iff in H. destruct H as [H1 H2].
  rewrite andb_true_r in H1. rewrite Ascii.eqb_sym in H1. rewrite H1.
  now rewrite (IH H2).
Qed.

Lemma split_on_append (sep : ascii) (a b : string) :
  includes (String sep EmptyString) a = false ->
  split_on sep (a ++ String sep b) = a :: split_on sep b.
Proof.
  induction a as [|c a IH]; intros H.
  - cbn [append split_on]. now rewrite Ascii.eqb_refl.
  - cbn [includes starts_with] in H.
    apply orb_false_iff in H. destruct H as [H1 H2].
    rewrite andb_true_r in H1. rewrite Ascii.eqb_sym in H1.
    cbn [append split_on]. rewrite H1.
    change (a ++ String sep b)%string with (a ++ String sep b).
    now rewrite (IH H2).
Qed.

Lemma split_on_concat (sep : ascii) (l : list string) :
  l <> [] ->
  Forall (fun t => includes (String sep EmptyString) t = false) l ->
  split_on sep (String.concat (String sep EmptyString) l) = l.
Proof.
  induction l as [|a l IH]; intros NE H; [contradiction|].
  inversion H as [|? ? Ha Hl]; subst.
  destruct l as [|b l].
  - cbn [String.concat]. now apply split_on_plain.
  - cbn [String.concat]. cbn [String.concat] in IH.
    change (a ++ String sep EmptyString ++ ?x) with (a ++ String sep x).
    rewrite (split_on_append sep a _ Ha). f_equal.
    apply IH; [discriminate|exact Hl].
Qed.

Lemma dense_nth (fs : list Footnote) (f : Footnote) :
  map fn_index fs = seq 1 (length fs) ->
  In f fs ->
  1 <= fn_index f /\ nth_error fs (fn_index f - 1) = Some f.
Proof.
  intros D I. apply In_nth_error in I. destruct I as (k & Hk).
  assert (Lk : k < length fs) by (apply nth_error_Some; congruence).
  assert (E : nth_error (map fn_index fs) k = Some (fn_index f))
    by (rewrite nth_error_map, Hk; reflexivity).
  rewrite D in E.
  rewrite (nth_error_nth' _ 0) in E by (rewrite length_seq; exact Lk).
  rewrite seq_nth in E by exact Lk. injection E as E.
  split; [lia|].
  now replace (fn_index f - 1) with k by lia.
Qed.

Lemma of_nat_no_lf (n : nat) : includes lf (of_nat n) = false.
Proof.
  unfold of_nat. generalize (Nat.to_uint n). intros d.
  induction d; cbn [NilEmpty.string_of_uint]; [reflexivity|..];
    cbn [includes starts_with lf]; rewrite andb_true_r;
    (rewrite orb_false_iff; split; [reflexivity|exact IHd]).
Qed.

Lemma line_no_lf (f : Footnote) :
  includes lf (fn_title f) = false -> includes lf (fn_link f) = false ->
  includes lf (footnote_line f) = false.
Proof.
  intros Ht Hl. pose proof (of_nat_no_lf (fn_index f)) as Hn.
  unfold footnote_line, lf in *.
  destruct (fn_link f =? fn_title f);
    rewrite !includes_char_append, ?Ht, ?Hl, Hn; reflexivity.
Qed.

(** X12.  On a registry in its invariant whose titles and links hold no
    line feed, the footnote with number [n] is line [n] of the text
    [buildFootnoteArray] returns, and that text has as many lines as the
    counter of the registry tells, when it has a footnote at all.  The
    footnotes built are the empty text exactly when the registry holds no
    footnote, as after a reset. *)
Theorem footnote_lines_by_number :
  forall (heading : string) (r : Renderer),
    registry_ok r ->
    Forall (fun f => includes lf (fn_title f) = false
                     /\ includes lf (fn_link f) = false) (footnotes r) ->
    (forall f,
       In f (footnotes r) ->
       1 <= fn_index f
       /\ nth_error (split_on (ascii_of_nat 10)
                       (buildFootnoteArray (footnotes r)))
                    (fn_index f - 1)
          = Some (footnote_line f))
    /\ (footnotes r <> [] ->
        length (split_on (ascii_of_nat 10) (buildFootnoteArray (footnotes r)))
        = footnoteIndex r)
    /\ (buildFootnotes heading r = EmptyString <-> footnoteIndex r = 0)
    /\ forall newOpts, buildFootnotes heading (reset newOpts r) = EmptyString.
Proof.
  intros heading r Hr Hlf.
  assert (Lines : footnotes r <> [] ->
                  split_on (ascii_of_nat 10) (buildFootnoteArray (footnotes r))
                  = map footnote_line (footnotes r)).
  { intros NE. unfold buildFootnoteArray, lf. apply split_on_concat.
    - destruct (footnotes r); [contradiction|discriminate].
    - apply Forall_map. revert Hlf. apply Forall_impl.
      intros f [Ht Hl]. apply line_no_lf; assumption. }
  refine (conj _ (conj _ (conj _ _))).
  - intros f I.
    destruct (dense_nth _ f (ok_dense Hr) I) as [P N].
    split; [exact P|].
    rewrite Lines by (intros E; rewrite E in I; destruct I).
    now rewrite nth_error_map, N.
  - intros NE. rewrite (Lines NE), length_map. symmetry. apply (ok_counter Hr).
  - rewrite (ok_counter Hr). unfold buildFootnotes.
    destruct (footnotes r) as [|f fs]; [split; reflexivity|].
    split; [|discriminate]. unfold styledContent. cbn. discriminate.
  - intros newOpts. reflexivity.
Qed.

(** Two links cited: the second is line 2. *)
Lemma footnote_lines_by_number_witness :
  let r := snd (cite_all [("A", "https://a.example");
                          ("https://b.example", "https://b.example")]
                         (initRenderer no_opts)) in
  nth_error (split_on (ascii_of_nat 10) (buildFootnoteArray (footnotes r))) 1
  = Some (footnote_line (2, "https://b.example", "https://b.example")).
Proof.
  intros r.
  assert (Hr : registry_ok r)
    by (apply registry_ok_cite_all, registry_ok_init).
  assert (Hlf : Forall (fun f => includes lf (fn_title f) = false
                                 /\ includes lf (fn_link f) = false)
                       (footnotes r))
    by (repeat constructor).
  destruct (footnote_lines_by_number "h" r Hr Hlf) as (H & _).
  exact (proj2 (H (2, "https://b.example", "https://b.example")
                  (or_intror (or_introl eq_refl)))).
Defined.

(** ** The settings file *)

Lemma split_on_app (sep : ascii) (a b : string) :
  split_on sep (a ++ String sep b) = (split_on sep a ++ split_on sep b)%list.
Proof.
  induction a as [|c a IH].
  - cbn [append split_on]. now rewrite Ascii.eqb_refl.
  - cbn [append split_on].
    change (a ++ String sep b)%string with (a ++ String sep b).
    rewrite IH. destruct (Ascii.eqb c sep); [reflexivity|].
    pose proof (split_on_nonempty sep a) as NE.
    destruct (split_on sep a) as [|w ws]; [contradiction|reflexivity].
Qed.

Lemma ends_with_px (value : string) : ends_with "px" (value ++ "px") = true.
Proof.
  unfold ends_with. rewrite length_append. cbn [String.length].
  replace (String.length value + 2 - 2) with (String.length value) by lia.
  rewrite drop_append.
  replace (2 <=? String.length value + 2)%nat with true
    by (symmetry; apply Nat.leb_le; lia).
  reflexivity.
Qed.

Lemma assign_ok (key value : string) (c : Extend.ExtendConfig) :
  value <> EmptyString -> value <> "null" ->
  settings_ok c -> settings_ok (assign key value c).
Proof.
  intros N1 N2 [H1 H2]. destruct c. unfold assign.
  assert (Px : forall w, w <> EmptyString ->
                         (if ends_with "px" w then w else w ++ "px")
                         <> EmptyString
                         /\ (if ends_with "px" w then w else w ++ "px")
                            <> "null"
                         /\ ends_with "px"
                              (if ends_with "px" w then w else w ++ "px")
                            = true).
  { intros w Nw. destruct (ends_with "px" w) eqn:E.
    - refine (conj Nw (conj _ E)). intros ->. discriminate.
    - refine (conj _ (conj _ (ends_with_px w))).
      + destruct w; discriminate.
      + intros Hn. pose proof (ends_with_px w) as P. rewrite Hn in P.
        discriminate. }
  repeat match goal with
         | |- context [if ?k =? ?s then _ else _] => destruct (k =? s)
         end;
    (split;
     [ intros v I; cbn [In Extend.default_theme Extend.default_color
                          Extend.default_font_family Extend.default_font_size
                          Extend.default_code_theme Extend.legend] in I, H1;
       repeat (destruct I as [I|I];
               [ try (injection I as <-; first
                        [ split; assumption
                        | split; apply (Px value N1) ]);
                 try (apply H1; rewrite I; tauto) |]);
       try contradiction
     | intros v I; cbn [Extend.default_font_size] in I, H2;
       first [ injection I as <-; apply (Px value N1)
             | now apply H2 ] ]).
Qed.

Lemma parse_line_ok (line : string) (c : Extend.ExtendConfig) :
  settings_ok c -> settings_ok (parse_line line c).
Proof.
  intros H. unfold parse_line.
  destruct (negb (truthy (trim line)) || starts_with "#" (trim line));
    [exact H|].
  destruct (index_of ":" (trim line)) as [colonIdx|]; [|exact H].
  set (value := strip_edge_quotes _).
  destruct (value =? "null") eqn:E1; [exact H|].
  destruct (value =? EmptyString) eqn:E2; [exact H|].
  cbn [orb]. apply assign_ok; [| |exact H].
  - intros E. rewrite E in E2. discriminate.
  - intros E. rewrite E in E1. discriminate.
Qed.

Lemma parse_lines_ok (lines : list string) : forall c,
  settings_ok c ->
  settings_ok (fold_left (fun config line => parse_line line config) lines c).
Proof.
  induction lines as [|l ls IH]; intros c H; [exact H|].
  cbn [fold_left]. apply IH. now apply parse_line_ok.
Qed.

(** X13.  Every text setting [parseExtendYaml] returns is neither empty
    nor the word null, and the font size it returns ends in px; so the
    tests [parseArgs] makes before it resolves the colour and the font
    family of the settings file always succeed on a setting that is
    there. *)
Theorem parseExtendYaml_values :
  forall (yaml : string),
    (forall v,
       In (Some v)
          [Extend.default_theme (parseExtendYaml yaml);
           Extend.default_color (parseExtendYaml yaml);
           Extend.default_font_family (parseExtendYaml yaml);
           Extend.default_font_size (parseExtendYaml yaml);
           Extend.default_code_theme (parseExtendYaml yaml);
           Extend.legend (parseExtendYaml yaml)] ->
       v <> EmptyString /\ v <> "null")
    /\ (forall v,
          Extend.default_font_size (parseExtendYaml yaml) = Some v ->
          ends_with "px" v = true)
    /\ Cli.primaryColor (Cli.initial (parseExtendYaml yaml))
       = option_map Cli.resolveColor
           (Extend.default_color (parseExtendYaml yaml))
    /\ Cli.fontFamily (Cli.initial (parseExtendYaml yaml))
       = option_map Cli.resolveFontFamily
           (Extend.default_font_family (parseExtendYaml yaml)).
Proof.
  intros yaml.
  assert (H : settings_ok (parseExtendYaml yaml)).
  { apply parse_lines_ok. split; [|discriminate].
    cbn. intros v I. repeat (destruct I as [I|I]; [discriminate|]).
    destruct I. }
  destruct H as [H1 H2]. refine (conj H1 (conj H2 (conj _ _))).
  - cbn [Cli.initial Cli.primaryColor].
    destruct (Extend.default_color (parseExtendYaml yaml)) as [v|] eqn:E;
      [|reflexivity].
    destruct v; [|reflexivity].
    destruct (H1 EmptyString) as [N _]; [|now contradiction N].
    cbn [In]. tauto.
  - cbn [Cli.initial Cli.fontFamily].
    destruct (Extend.default_font_family (parseExtendYaml yaml)) as [v|] eqn:E;
      [|reflexivity].
    destruct v; [|reflexivity].
    destruct (H1 EmptyString) as [N _]; [|now contradiction N].
    cbn [In]. tauto.
Qed.

(** A settings text with a font size given without its unit. *)
Lemma parseExtendYaml_values_witness :
  let yaml := "default_font_size: 15" ++ lf ++ "default_color: red" in
  Extend.default_font_size (parseExtendYaml yaml) = Some "15px"
  /\ ends_with "px" "15px" = true
  /\ "red" <> EmptyString
  /\ Cli.primaryColor (Cli.initial (parseExtendYaml yaml))
     = Some (Own "#A93226").
Proof.
  intros yaml.
  destruct (parseExtendYaml_values yaml) as (V & S & C & _).
  assert (E : Extend.default_font_size (parseExtendYaml yaml) = Some "15px")
    by reflexivity.
  assert (I : In (Some "red")
                 [Extend.default_theme (parseExtendYaml yaml);
                  Extend.default_color (parseExtendYaml yaml);
                  Extend.default_font_family (parseExtendYaml yaml);
                  Extend.default_font_size (parseExtendYaml yaml);
                  Extend.default_code_theme (parseExtendYaml yaml);
                  Extend.legend (parseExtendYaml yaml)])
    by (right; left; reflexivity).
  refine (conj E (conj (S "15px" E) (conj (proj1 (V "red" I)) _))).
  rewrite C. reflexivity.
Defined.

Lemma rev_onto_acc (s : string) : forall acc,
  rev_onto s acc = rev_onto s EmptyString ++ acc.
Proof.
  induction s as [|c s IH]; intros acc; [reflexivity|].
  cbn [rev_onto]. rewrite (IH (String c acc)), (IH (String c EmptyString)).
  now rewrite append_assoc.
Qed.

Lemma rev_onto_snoc (s : string) (c : ascii) : forall acc,
  rev_onto (s ++ String c EmptyString) acc = String c (rev_onto s acc).
Proof.
  induction s as [|d s IH]; intros acc; [reflexivity|].
  cbn [append rev_onto]. apply IH.
Qed.

Lemma rev_snoc (s : string) (c : ascii) :
  Str.rev (s ++ String c EmptyString) = String c (Str.rev s).
Proof. apply rev_onto_snoc. Qed.

Lemma rev_involutive (s : string) : Str.rev (Str.rev s) = s.
Proof.
  induction s as [|c s IH]; [reflexivity|].
  unfold Str.rev at 2. cbn [rev_onto]. rewrite rev_onto_acc.
  fold (Str.rev s). now rewrite rev_snoc, IH.
Qed.

Lemma trim_fixed (a z : ascii) (m : string) :
  is_space a = false -> is_space z = false ->
  trim (String a (m ++ String z EmptyString))
  = String a (m ++ String z EmptyString).
Proof.
  intros Ha Hz. unfold trim. cbn [trim_start]. rewrite Ha.
  change (String a (m ++ String z EmptyString))
    with (String a m ++ String z EmptyString).
  rewrite rev_snoc. cbn [trim_start]. rewrite Hz.
  rewrite <- rev_snoc. apply rev_involutive.
Qed.

Lemma index_of_append (c : ascii) (key r : string) :
  includes (String c EmptyString) key = false ->
  index_of c (key ++ String c r) = Some (String.length key).
Proof.
  induction key as [|d key IH]; intros H.
  - cbn. now rewrite Ascii.eqb_refl.
  - cbn [includes starts_with] in H. apply orb_false_iff in H.
    destruct H as [H1 H2]. rewrite andb_true_r in H1.
    cbn [append index_of String.length]. rewrite Ascii.eqb_sym, H1.
    change (key ++ String c r)%string with (key ++ String c r).
    now rewrite (IH H2).
Qed.

Lemma take_append (u rest : string) : take (String.length u) (u ++ rest) = u.
Proof.
  induction u as [|c u IH]; [now destruct rest|].
  cbn [String.length append take]. now rewrite IH.
Qed.

Lemma is_quote_not_space (q : ascii) : is_quote q = true -> is_space q = false.
Proof.
  unfold is_quote. intros H. apply orb_true_iff in H.
  destruct H as [H|H]; apply Ascii.eqb_eq in H; subst q; reflexivity.
Qed.

Lemma strip_inner (v : string) (q : ascii) : forall before,
  before <> EmptyString -> is_quote q = true ->
  replace_anchored_go quote_at_edge (fun _ _ _ => EmptyString) 0 before
                      (v ++ String q EmptyString)
  = v.
Proof.
  induction v as [|c v IH]; intros before NE Hq.
  - cbn [append replace_anchored_go]. unfold quote_at_edge.
    destruct before as [|b before]; [contradiction|].
    cbn [Rx.alt Rx.one Rx.eoi]. rewrite Hq. reflexivity.
  - cbn [append replace_anchored_go]. unfold quote_at_edge.
    destruct before as [|b before]; [contradiction|].
    cbn [Rx.alt Rx.one].
    assert (E : Rx.eoi (v ++ String q EmptyString)
                       (Some (tt, (v ++ String q EmptyString)%string))
                = None) by (destruct v; reflexivity).
    change (v ++ String q EmptyString)%string
      with (v ++ String q EmptyString) in *.
    destruct (is_quote c); [rewrite E|]; f_equal; apply IH; auto;
      discriminate.
Qed.

Lemma strip_quoted (q q' : ascii) (v : string) :
  is_quote q = true -> is_quote q' = true ->
  strip_edge_quotes (String q (v ++ String q' EmptyString)) = v.
Proof.
  intros Hq Hq'. unfold strip_edge_quotes.
  cbn [replace_anchored_go]. unfold quote_at_edge at 1.
  cbn [Rx.alt Rx.one]. rewrite Hq. cbn [Rx.alt append].
  replace (String.length (String q (v ++ String q' EmptyString))
           - String.length (v ++ String q' EmptyString) - 1) with 0
    by (cbn [String.length]; lia).
  apply strip_inner; [discriminate|exact Hq'].
Qed.

Lemma trim_start_snoc (a : ascii) (m : string) :
  is_space a = false ->
  exists x, trim_start (m ++ String a EmptyString) = x ++ String a EmptyString.
Proof.
  intros Ha. induction m as [|c m IH].
  - exists EmptyString. cbn. now rewrite Ha.
  - cbn [append trim_start]. destruct (is_space c); [exact IH|].
    now exists (String c m).
Qed.

Lemma trim_head (a : ascii) (m : string) :
  is_space a = false -> exists x, trim (String a m) = String a x.
Proof.
  intros Ha. unfold trim. cbn [trim_start]. rewrite Ha.
  unfold Str.rev at 2. cbn [rev_onto]. rewrite rev_onto_acc.
  destruct (trim_start_snoc a (rev_onto m EmptyString) Ha) as (x & ->).
  rewrite rev_snoc. eauto.
Qed.

Lemma parse_lines_app (a b : list string) (c : Extend.ExtendConfig) :
  fold_left (fun config line => parse_line line config) (a ++ b)%list c
  = fold_left (fun config line => parse_line line config) b
      (fold_left (fun config line => parse_line line config) a c).
Proof. apply fold_left_app. Qed.

(** X14.  [parseExtendYaml] reads the lines one after the other, so that a
    further line acts on the settings of the lines before it, and a later
    line for a key replaces an earlier one.  A line that starts with a hash
    sign changes nothing.  A line made of a key, a colon, a space and a
    value between two quote characters, single or double in any mix, sets
    the key to the value without these two characters, whatever else the
    value holds, unless that value is empty or the word null, when the line
    changes nothing. *)
Theorem parseExtendYaml_line_by_line :
  (forall yaml line,
     includes lf line = false ->
     parseExtendYaml (yaml ++ lf ++ line)
     = parse_line line (parseExtendYaml yaml))
  /\ (forall text config, parse_line ("#" ++ text) config = config)
  /\ (forall (k0 : ascii) (k' : string) (q q' : ascii) (v : string)
             (config : Extend.ExtendConfig),
        is_space k0 = false ->
        k0 <> "#"%char ->
        includes ":" (String k0 k') = false ->
        trim (String k0 k') = String k0 k' ->
        is_quote q = true ->
        is_quote q' = true ->
        parse_line (String k0 k' ++ ": " ++ String q v ++ String q' EmptyString)
                   config
        = if (v =? "null") || (v =? EmptyString) then config
          else assign (String k0 k') v config).
Proof.
  refine (conj _ (conj _ _)).
  - intros yaml line H. unfold parseExtendYaml, lf in *.
    change (yaml ++ String (ascii_of_nat 10) EmptyString ++ line)
      with (yaml ++ String (ascii_of_nat 10) line).
    rewrite split_on_app, parse_lines_app.
    now rewrite (split_on_plain (ascii_of_nat 10) line H).
  - intros text config. unfold parse_line.
    destruct (trim_head "#" text eq_refl) as (x & E).
    change ("#" ++ text) with (String "#" text). rewrite E.
    reflexivity.
  - intros k0 k' q q' v config Hk0 Hh Hc Ht Hq Hq'.
    pose proof (is_quote_not_space q Hq) as Sq.
    pose proof (is_quote_not_space q' Hq') as Sq'.
    set (key := String k0 k') in *.
    set (quoted := String q v ++ String q' EmptyString).
    assert (Eq : quoted = String q (v ++ String q' EmptyString))
      by reflexivity.
    assert (T : trim (key ++ ": " ++ quoted) = key ++ ": " ++ quoted).
    { unfold key, quoted.
      replace (String k0 k' ++ ": " ++ String q v ++ String q' EmptyString)
        with (String k0 ((k' ++ ": " ++ String q v) ++ String q' EmptyString))
        by (cbn [append]; now rewrite !append_assoc).
      now apply trim_fixed. }
    unfold parse_line. rewrite T.
    assert (F : negb (truthy (key ++ ": " ++ quoted))
                || starts_with "#" (key ++ ": " ++ quoted) = false).
    { unfold key. cbn [append truthy negb orb starts_with].
      rewrite andb_true_r. destruct (Ascii.eqb "#" k0) eqn:E; [|reflexivity].
      apply Ascii.eqb_eq in E. now subst k0. }
    rewrite F.
    change (key ++ ": " ++ quoted) with (key ++ String ":" (" " ++ quoted)).
    rewrite (index_of_append ":" key _ Hc).
    rewrite take_append, Ht.
    replace (String.length key + 1) with (String.length (key ++ ":"))
      by (rewrite length_append; reflexivity).
    replace (key ++ String ":" (" " ++ quoted))
      with ((key ++ ":") ++ " " ++ quoted)
      by (now rewrite append_assoc).
    rewrite drop_append.
    assert (V : trim (" " ++ quoted) = quoted).
    { assert (S : trim_start (" " ++ quoted) = trim_start quoted)
        by reflexivity.
      unfold trim. rewrite S. fold (trim quoted). rewrite Eq.
      now apply trim_fixed. }
    rewrite V, Eq, (strip_quoted q q' v Hq Hq'). reflexivity.
Qed.

Lemma parseExtendYaml_line_by_line_witness :
  parseExtendYaml ("legend: alt" ++ lf ++ "legend: 'none'")
  = assign "legend" "none" (parseExtendYaml "legend: alt")
  /\ Extend.legend (parseExtendYaml ("legend: alt" ++ lf ++ "legend: 'none'"))
     = Some "none".
Proof.
  destruct parseExtendYaml_line_by_line as (L & _ & Q).
  assert (E : parseExtendYaml ("legend: alt" ++ lf ++ "legend: 'none'")
              = assign "legend" "none" (parseExtendYaml "legend: alt")).
  { rewrite (L "legend: alt" "legend: 'none'" eq_refl).
    apply (Q "l"%char "egend" "'"%char "'"%char "none"
             (parseExtendYaml "legend: alt"));
      try reflexivity.
    discriminate. }
  split; [exact E|]. rewrite E. reflexivity.
Defined.

(** ** The first heading *)

Lemma search_none (R : Type) (m : string -> option R) : forall s,
  (forall u t, s = u ++ t -> m t = None) -> Rx.search m s = None.
Proof.
  induction s as [|c s IH]; intros H; cbn [Rx.search].
  - now rewrite (H EmptyString EmptyString eq_refl).
  - rewrite (H EmptyString (String c s) eq_refl).
    rewrite IH; [reflexivity|].
    intros u t E. apply (H (String c u) t). cbn [append]. now rewrite E.
Qed.

Lemma search_first (R : Type) (m : string -> option R) (s : string) (r : R) :
  forall pre,
    (forall u t, pre = u ++ t -> t <> EmptyString -> m (t ++ s) = None) ->
    m s = Some r ->
    Rx.search m (pre ++ s) = Some (pre, r).
Proof.
  induction pre as [|c pre IH]; intros H Hs.
  - cbn [append]. destruct s; cbn [Rx.search]; now rewrite Hs.
  - assert (E0 : m (String c pre ++ s) = None)
      by (apply (H EmptyString (String c pre) eq_refl); discriminate).
    cbn [append Rx.search] in *. rewrite E0.
    rewrite IH; [reflexivity| |exact Hs].
    intros u t E. apply (H (String c u) t). cbn [append]. now rewrite E.
Qed.

Lemma star_stops (R : Type) (p : ascii -> bool) (rest : string) :
  match rest with String c _ => p c = false | EmptyString => True end ->
  forall (a : string) (k : string -> string -> option R) (x : R),
    (forall c, includes (String c EmptyString) a = true -> p c = true) ->
    k a rest = Some x ->
    Rx.star p (a ++ rest) k = Some x.
Proof.
  intros Hr. induction a as [|c a IH]; intros k x Ha Hk.
  - cbn [append]. destruct rest as [|d rest]; cbn [Rx.star]; [exact Hk|].
    now rewrite Hr.
  - cbn [append Rx.star].
    rewrite (Ha c) by (cbn; now rewrite Ascii.eqb_refl).
    rewrite (IH (fun m r => k (String c m) r) x); [reflexivity| |exact Hk].
    intros d Hd. apply Ha. cbn [includes]. rewrite Hd. apply orb_true_r.
Qed.

Lemma star_lazy_first (R : Type) (rest : string) :
  forall (body : string) (k : string -> string -> option R) (x : R),
    (forall b1 b2, body = b1 ++ b2 -> b2 <> EmptyString ->
                   k b1 (b2 ++ rest) = None) ->
    k body rest = Some x ->
    Rx.star_lazy Rx.any (body ++ rest) k = Some x.
Proof.
  induction body as [|c body IH]; intros k x H Hk.
  - cbn [append]. destruct rest; cbn [Rx.star_lazy]; now rewrite Hk.
  - assert (E0 : k EmptyString (String c body ++ rest) = None)
      by (apply (H EmptyString (String c body) eq_refl); discriminate).
    cbn [append Rx.star_lazy] in *. rewrite E0.
    cbn [Rx.any].
    apply (IH (fun m r => k (String c m) r) x); [|exact Hk].
    intros b1 b2 E N. apply (H (String c b1) b2); [|exact N].
    cbn [append]. now rewrite E.
Qed.

Lemma heading_pattern_needs (s : string) :
  starts_with "<h1" s = false -> starts_with "<h2" s = false ->
  heading_pattern s = None.
Proof.
  intros H1 H2. unfold heading_pattern.
  destruct s as [|a s]; [reflexivity|]. cbn [Rx.lit].
  destruct (Ascii.eqb "<" a) eqn:A; [|reflexivity].
  destruct s as [|b s]; [reflexivity|].
  destruct (Ascii.eqb "h" b) eqn:B; [|reflexivity].
  destruct s as [|c s]; [reflexivity|].
  cbn [starts_with] in H1, H2. rewrite A, B, andb_true_r in H1, H2.
  cbn [andb] in H1, H2. cbn [Rx.one]. unfold one_or_two.
  rewrite (Ascii.eqb_sym c "1"), (Ascii.eqb_sym c "2"), H1, H2. reflexivity.
Qed.

(** No occurrence of a three-character word begins in a suffix of a text
    free of it, when the text goes on with a character that is none of the
    last two of the word. *)
Lemma no_crossing (x y z : ascii) (pre u t rest : string) (f : ascii) :
  includes (String x (String y (String z EmptyString))) pre = false ->
  pre = u ++ t -> t <> EmptyString ->
  Ascii.eqb y f = false -> Ascii.eqb z f = false ->
  starts_with (String x (String y (String z EmptyString)))
              (t ++ String f rest) = false.
Proof.
  intros Hp -> Nt Hy Hz.
  apply includes_suffix, includes_head in Hp.
  destruct t as [|a [|b [|c t]]]; [contradiction|..];
    cbn [append starts_with] in *.
  - rewrite Hy. now rewrite andb_false_r.
  - rewrite Hz. now rewrite !andb_false_r.
  - exact Hp.
Qed.

Lemma none_of_gt (a : string) (c : ascii) :
  includes ">" a = false -> includes (String c EmptyString) a = true ->
  Rx.none_of ">" c = true.
Proof.
  intros Ha Hc. unfold Rx.none_of. cbn [includes starts_with].
  rewrite andb_true_r, orb_false_r.
  destruct (Ascii.eqb c ">") eqn:E; [|reflexivity].
  apply Ascii.eqb_eq in E. subst c. congruence.
Qed.

Lemma heading_pattern_hit (d d' : ascii) (attrs body post : string) :
  one_or_two d = true -> one_or_two d' = true ->
  includes ">" attrs = false -> includes "</h" body = false ->
  heading_pattern
    ("<h" ++ String d (attrs ++ ">" ++ body ++ "</h" ++ String d' (">" ++ post)))
  = Some post.
Proof.
  intros Hd Hd' Ha Hb. unfold heading_pattern.
  rewrite lit_eq, starts_with_self, drop_append.
  cbn [Rx.one]. rewrite Hd.
  apply star_stops.
  - reflexivity.
  - intros c Hc. exact (none_of_gt attrs c Ha Hc).
  - rewrite lit_eq, starts_with_self, drop_append.
    apply star_lazy_first.
    + intros b1 b2 E N. rewrite lit_eq.
      change (b2 ++ "</h" ++ String d' (">" ++ post))
        with (b2 ++ String "<" ("/h" ++ String d' (">" ++ post))).
      now rewrite (no_crossing "<" "/" "h" body b1 b2 _ "<" Hb E N eq_refl
                     eq_refl).
    + rewrite lit_eq, starts_with_self, drop_append.
      cbn [Rx.one]. rewrite Hd'.
      now rewrite lit_eq, starts_with_self, drop_append.
Qed.

(** X15.  [removeFirstHeading] returns a text that holds no opening of a
    heading of level 1 or 2 as it is.  From a text in which the first such
    opening has no closing angle bracket among its attributes and is
    followed by the closing tag of a heading of level 1 or 2, it removes
    the heading up to the first closing tag of either level and nothing
    else; so it removes the output of the heading rule for level 1 or 2
    when that is the first heading of these levels. *)
Theorem removeFirstHeading_first :
  (forall html,
     includes "<h1" html = false -> includes "<h2" html = false ->
     removeFirstHeading html = html)
  /\ (forall before d attrs body d' after,
        includes "<h1" before = false -> includes "<h2" before = false ->
        one_or_two d = true -> one_or_two d' = true ->
        includes ">" attrs = false -> includes "</h" body = false ->
        removeFirstHeading
          (before ++ "<h" ++ String d attrs ++ ">" ++ body
           ++ "</h" ++ String d' EmptyString ++ ">" ++ after)
        = before ++ after)
  /\ (forall before depth text after,
        includes "<h1" before = false -> includes "<h2" before = false ->
        depth = 1 \/ depth = 2 ->
        includes "</h" text = false ->
        removeFirstHeading (before ++ heading depth text ++ after)
        = before ++ after).
Proof.
  assert (General : forall before d attrs body d' after,
             includes "<h1" before = false -> includes "<h2" before = false ->
             one_or_two d = true -> one_or_two d' = true ->
             includes ">" attrs = false -> includes "</h" body = false ->
             removeFirstHeading
               (before ++ "<h" ++ String d attrs ++ ">" ++ body
                ++ "</h" ++ String d' EmptyString ++ ">" ++ after)
             = before ++ after).
  { intros before d attrs body d' after H1 H2 Hd Hd' Ha Hb.
    unfold removeFirstHeading.
    replace ("<h" ++ String d attrs ++ ">" ++ body
             ++ "</h" ++ String d' EmptyString ++ ">" ++ after)
      with ("<h" ++ String d (attrs ++ ">" ++ body
                              ++ "</h" ++ String d' (">" ++ after)))
      by reflexivity.
    rewrite (search_first _ heading_pattern _ after before);
      [reflexivity| |now apply heading_pattern_hit].
    intros u t E N.
    change ("<h" ++ String d (attrs ++ ">" ++ body
                              ++ "</h" ++ String d' (">" ++ after)))
      with (String "<" ("h" ++ String d (attrs ++ ">" ++ body
                                         ++ "</h" ++ String d' (">" ++ after)))).
    apply heading_pattern_needs.
    - apply (no_crossing "<" "h" "1" before u t _ "<" H1 E N); reflexivity.
    - apply (no_crossing "<" "h" "2" before u t _ "<" H2 E N); reflexivity. }
  refine (conj _ (conj General _)).
  - intros html H1 H2. unfold removeFirstHeading.
    rewrite search_none; [reflexivity|].
    intros u t ->. apply heading_pattern_needs.
    + apply includes_head. exact (includes_suffix _ _ _ H1).
    + apply includes_head. exact (includes_suffix _ _ _ H2).
  - intros before depth text after H1 H2 Hd Ht.
    destruct Hd as [-> | ->].
    + change (heading 1 text)
        with (("<h1 class=" ++ dq ++ "h1" ++ dq ++ " data-heading=" ++ dq
               ++ "true" ++ dq ++ ">") ++ text ++ "</h1>").
      rewrite !append_assoc.
      exact (General before "1"%char
               (" class=" ++ dq ++ "h1" ++ dq ++ " data-heading=" ++ dq
                ++ "true" ++ dq)
               text "1"%char after H1 H2 eq_refl eq_refl eq_refl Ht).
    + change (heading 2 text)
        with (("<h2 class=" ++ dq ++ "h2" ++ dq ++ " data-heading=" ++ dq
               ++ "true" ++ dq ++ ">") ++ text ++ "</h2>").
      rewrite !append_assoc.
      exact (General before "2"%char
               (" class=" ++ dq ++ "h2" ++ dq ++ " data-heading=" ++ dq
                ++ "true" ++ dq)
               text "2"%char after H1 H2 eq_refl eq_refl eq_refl Ht).
Qed.

(** A document with a title of level 1 between a note and a section of
    level 3. *)
Lemma removeFirstHeading_first_witness :
  removeFirstHeading ("<p>note</p>" ++ heading 1 "Title" ++ heading 3 "Part")
  = "<p>note</p>" ++ heading 3 "Part"
  /\ removeFirstHeading (heading 3 "Part") = heading 3 "Part"
  /\ removeFirstHeading "a<h2>b</h1>c" = "ac".
Proof.
  destruct removeFirstHeading_first as (I & G & H).
  refine (conj (H "<p>note</p>" 1 "Title" (heading 3 "Part") eq_refl eq_refl
                  (or_introl eq_refl) eq_refl)
            (conj (I (heading 3 "Part") eq_refl eq_refl)
               (G "a" "2"%char EmptyString "b" "1"%char "c" eq_refl eq_refl
                  eq_refl eq_refl eq_refl eq_refl))).
Defined.

(** ** Options set after creation *)

Lemma spread1_assoc {T : Type} (a b c : slot T) :
  spread1 (spread1 a b) c = spread1 a (spread1 b c).
Proof. now destruct c. Qed.

(** X16.  [setOptions] touches the options only: the registry and its
    counter stay, and registering a footnote before or after the call
    gives the same number and the same state.  Two calls in a row are one
    call with the second argument spread over the first, a call repeated
    changes nothing more, and a call with no property changes nothing. *)
Theorem setOptions_composes :
  forall (a b : IOpts) (r : Renderer),
    footnotes (setOptions a r) = footnotes r
    /\ footnoteIndex (setOptions a r) = footnoteIndex r
    /\ (forall title link,
          addFootnote title link (setOptions a r)
          = (fst (addFootnote title link r),
             setOptions a (snd (addFootnote title link r))))
    /\ setOptions b (setOptions a r) = setOptions (spread a b) r
    /\ setOptions a (setOptions a r) = setOptions a r
    /\ setOptions no_opts r = r.
Proof.
  intros a b r. refine (conj eq_refl (conj eq_refl (conj _ (conj _ (conj _ _))))).
  - intros title link. unfold addFootnote, setOptions.
    cbn [footnotes footnoteIndex opts].
    now destruct (find (fun f => fn_link f =? link) (footnotes r)).
  - unfold setOptions, spread. cbn [footnotes footnoteIndex opts legend
      citeStatus countStatus isMacCodeBlock isShowLineNumber themeMode].
    now rewrite !spread1_assoc.
  - unfold setOptions, spread. cbn [footnotes footnoteIndex opts legend
      citeStatus countStatus isMacCodeBlock isShowLineNumber themeMode].
    do 2 f_equal; now destruct a as [[?|] [?|] [?|] [?|] [?|] [?|]].
  - destruct r as [fs i o]. destruct o. reflexivity.
Qed.

(** ** Style sheets without custom properties *)

Lemma replace_go_none (X : Type) (m : string -> option (X * string))
      (rep : X -> string -> string -> string) : forall s before,
  (forall u t, s = u ++ t -> m t = None) ->
  Rx.replace_go m rep 0 before s = s.
Proof.
  induction s as [|c s IH]; intros before H; [reflexivity|].
  cbn [Rx.replace_go].
  rewrite (H EmptyString (String c s) eq_refl). f_equal. apply IH.
  intros u t E. apply (H (String c u) t). cbn [append]. now rewrite E.
Qed.

Lemma needs_word (w p u t s : string) :
  includes w s = false -> s = u ++ t -> starts_with w p = true ->
  starts_with p t = false.
Proof.
  intros Hs -> Hp. destruct (starts_with p t) eqn:E; [|reflexivity].
  apply includes_suffix, includes_head in Hs.
  now rewrite (starts_with_trans w p t Hp E) in Hs.
Qed.

Lemma resolve_var_plain (name v s : string) :
  includes "--" s = false -> resolve_var name v s = s.
Proof.
  intros H. unfold resolve_var, Rx.replace_literal, Rx.replace_all.
  apply replace_go_none. intros u t E. apply literal_miss.
  destruct (starts_with ("var(--" ++ name ++ ")") t) eqn:S; [|reflexivity].
  change ("var(--" ++ name ++ ")") with ("var(" ++ "--" ++ name ++ ")") in S.
  rewrite starts_with_app in S. apply andb_true_iff in S. destruct S as [S1 S2].
  subst s. apply starts_with_split in S1. destruct S1 as (r & ->).
  rewrite drop_append in S2.
  rewrite <- append_assoc in H. apply includes_suffix in H.
  apply includes_head in H.
  rewrite (starts_with_trans "--" ("--" ++ name ++ ")") r eq_refl S2) in H.
  discriminate.
Qed.

Lemma strip_declaration_plain (name s : string) :
  includes "--" s = false -> strip_declaration name s = s.
Proof.
  intros H. unfold strip_declaration, Rx.replace_all.
  apply replace_go_none. intros u t E. unfold declaration. rewrite lit_eq.
  now rewrite (needs_word "--" ("--" ++ name ++ ":") u t s H E eq_refl).
Qed.

(** X17.  [normalizeCssText] returns a style sheet that holds no two
    dashes in a row as it is, whatever the style. *)
Theorem normalizeCssText_plain :
  forall (cssText : string) (style : StyleConfig),
    includes "--" cssText = false ->
    normalizeCssText cssText style = cssText.
Proof.
  intros cssText style H. unfold normalizeCssText. cbv zeta.
  rewrite !(resolve_var_plain _ _ cssText H).
  assert (F : Rx.replace_literal "hsl(var(--foreground))" "#3f3f3f" cssText
              = cssText).
  { unfold Rx.replace_literal, Rx.replace_all.
    apply replace_go_none. intros u t E. apply literal_miss.
    destruct (starts_with "hsl(var(--foreground))" t) eqn:S; [|reflexivity].
    change "hsl(var(--foreground))" with ("hsl(var(" ++ "--foreground))") in S.
    rewrite starts_with_app in S. apply andb_true_iff in S.
    destruct S as [S1 S2].
    subst cssText. apply starts_with_split in S1. destruct S1 as (r & ->).
    rewrite drop_append in S2.
    rewrite <- append_assoc in H. apply includes_suffix in H.
    apply includes_head in H.
    rewrite (starts_with_trans "--" "--foreground))" r eq_refl S2) in H.
    discriminate. }
  rewrite F. now rewrite !(strip_declaration_plain _ cssText H).
Qed.

Lemma normalizeCssText_plain_witness :
  normalizeCssText "p { color: var(-x); margin: 0 }" MODERN_STYLE
  = "p { color: var(-x); margin: 0 }".
Proof.
  apply normalizeCssText_plain. reflexivity.
Defined.

(** ** The scope of the theme style sheets *)

Lemma scan_none (X : Type) (m : string -> option (X * string)) (v s : string) :
  (forall u t, s = u ++ t -> m t = None) ->
  Rx.replace_all m (fun _ _ _ => v) s = s.
Proof. intros H. unfold Rx.replace_all. now apply replace_go_none. Qed.

Lemma starts_with_char_includes (c : ascii) (x : string) :
  starts_with (String c EmptyString) x = true ->
  includes (String c EmptyString) x = true.
Proof. apply includes_starts. Qed.

Lemma scan_prefix_free (X : Type) (m : string -> option (X * string))
      (v : string) (h : ascii) (s : string) :
  (forall x, starts_with (String h EmptyString) x = false -> m x = None) ->
  forall pre,
    includes (String h EmptyString) pre = false ->
    Rx.replace_all m (fun _ _ _ => v) (pre ++ s)
    = pre ++ Rx.replace_all m (fun _ _ _ => v) s.
Proof.
  intros Hm. induction pre as [|c pre IH]; intros H; [reflexivity|].
  cbn [append]. rewrite scan_pass.
  - rewrite IH; [reflexivity|]. exact (includes_tail _ _ _ H).
  - apply Hm. apply includes_head in H.
    cbn [starts_with] in *. exact H.
Qed.

Lemma scan_prefix (X : Type) (m : string -> option (X * string))
      (v s : string) : forall pre,
  (forall u t, pre = u ++ t -> t <> EmptyString -> m (t ++ s) = None) ->
  Rx.replace_all m (fun _ _ _ => v) (pre ++ s)
  = pre ++ Rx.replace_all m (fun _ _ _ => v) s.
Proof.
  induction pre as [|c pre IH]; intros H; [reflexivity|].
  assert (E0 : m (String c pre ++ s) = None)
    by (apply (H EmptyString (String c pre) eq_refl); discriminate).
  cbn [append] in *. rewrite scan_pass by exact E0.
  rewrite IH; [reflexivity|].
  intros u t E. apply (H (String c u) t). cbn [append]. now rewrite E.
Qed.

Section Anchored.

Variable X : Type.
Variable m : string -> string -> option (X * string).
Variable rep : X -> string -> string -> string.

Lemma anchored_none : forall s before,
  (forall b u t, s = u ++ t -> m b t = None) ->
  replace_anchored_go m rep 0 before s = s.
Proof.
  induction s as [|c s IH]; intros before H; [reflexivity|].
  cbn [replace_anchored_go].
  rewrite (H before EmptyString (String c s) eq_refl). f_equal. apply IH.
  intros b u t E. apply (H b (String c u) t). cbn [append]. now rewrite E.
Qed.

Lemma anchored_prefix_free (h : ascii) (s : string) :
  (forall b x, starts_with (String h EmptyString) x = false -> m b x = None) ->
  forall pre before,
    includes (String h EmptyString) pre = false ->
    replace_anchored_go m rep 0 before (pre ++ s)
    = pre ++ replace_anchored_go m rep 0 (before ++ pre) s.
Proof.
  intros Hm. induction pre as [|c pre IH]; intros before H.
  - cbn [append]. now rewrite append_empty_r.
  - cbn [append replace_anchored_go]. rewrite Hm.
    + rewrite IH by exact (includes_tail _ _ _ H).
      now rewrite append_assoc.
    + apply includes_head in H. cbn [starts_with] in *. exact H.
Qed.

Lemma anchored_prefix (s : string) : forall pre before,
  (forall b u t, pre = u ++ t -> t <> EmptyString -> m b (t ++ s) = None) ->
  replace_anchored_go m rep 0 before (pre ++ s)
  = pre ++ replace_anchored_go m rep 0 (before ++ pre) s.
Proof.
  induction pre as [|c pre IH]; intros before H.
  - cbn [append]. now rewrite append_empty_r.
  - assert (E0 : m before (String c pre ++ s) = None)
      by (apply (H before EmptyString (String c pre) eq_refl); discriminate).
    cbn [append replace_anchored_go] in *. rewrite E0.
    rewrite IH.
    + now rewrite append_assoc.
    + intros b u t E. apply (H b (String c u) t). cbn [append]. now rewrite E.
Qed.

Lemma anchored_pass (c : ascii) (s before : string) :
  m before (String c s) = None ->
  replace_anchored_go m rep 0 before (String c s)
  = String c (replace_anchored_go m rep 0 (before ++ String c EmptyString) s).
Proof. intros H. cbn [replace_anchored_go]. now rewrite H. Qed.

Lemma anchored_skip : forall u rest before,
  replace_anchored_go m rep (String.length u) before (u ++ rest)
  = replace_anchored_go m rep 0 (before ++ u) rest.
Proof.
  induction u as [|c u IH]; intros rest before.
  - cbn [String.length append]. now rewrite append_empty_r.
  - cbn [String.length append replace_anchored_go]. rewrite IH.
    now rewrite append_assoc.
Qed.

Lemma anchored_match (c : ascii) (u rest before : string) (x : X) :
  m before (String c u ++ rest) = Some (x, rest) ->
  replace_anchored_go m rep 0 before (String c u ++ rest)
  = rep x before rest
    ++ replace_anchored_go m rep 0 (before ++ String c u) rest.
Proof.
  intros H. cbn [append replace_anchored_go]. cbn [append] in H. rewrite H.
  f_equal.
  replace (String.length (String c (u ++ rest)) - String.length rest - 1)
    with (String.length u)
    by (cbn [String.length]; rewrite length_append; lia).
  rewrite anchored_skip. now rewrite append_assoc.
Qed.

End Anchored.

Lemma star_none (R : Type) (p : ascii -> bool) (rest : string) :
  match rest with String c _ => p c = false | EmptyString => True end ->
  forall (a : string) (k : string -> string -> option R),
    (forall c, includes (String c EmptyString) a = true -> p c = true) ->
    (forall a1 a2, a = a1 ++ a2 -> k a1 (a2 ++ rest) = None) ->
    Rx.star p (a ++ rest) k = None.
Proof.
  intros Hr. induction a as [|c a IH]; intros k Ha Hk.
  - cbn [append]. pose proof (Hk EmptyString EmptyString eq_refl) as K.
    cbn [append] in K.
    destruct rest as [|d rest]; cbn [Rx.star]; [exact K|].
    now rewrite Hr.
  - pose proof (Hk EmptyString (String c a) eq_refl) as K.
    cbn [append Rx.star] in *.
    rewrite (Ha c) by (cbn; now rewrite Ascii.eqb_refl).
    rewrite (IH (fun m r => k (String c m) r)); [exact K| |].
    + intros d Hd. apply Ha. cbn [includes]. rewrite Hd. apply orb_true_r.
    + intros a1 a2 E. apply (Hk (String c a1) a2). cbn [append]. now rewrite E.
Qed.

Lemma all_space_chars (ws : string) :
  all_space ws = true ->
  forall c, includes (String c EmptyString) ws = true -> is_space c = true.
Proof.
  induction ws as [|d ws IH]; intros H c Hc; [discriminate|].
  cbn [all_space] in H. apply andb_true_iff in H. destruct H as [Hd Hws].
  cbn [includes starts_with] in Hc. rewrite andb_true_r in Hc.
  apply orb_true_iff in Hc. destruct Hc as [Hc|Hc].
  - apply Ascii.eqb_eq in Hc. now subst d.
  - now apply IH.
Qed.

Lemma all_space_free (ws : string) (h : ascii) :
  is_space h = false -> all_space ws = true ->
  includes (String h EmptyString) ws = false.
Proof.
  intros Hh Hws.
  destruct (includes (String h EmptyString) ws) eqn:E; [|reflexivity].
  rewrite (all_space_chars ws Hws h E) in Hh. discriminate.
Qed.

Lemma all_space_suffix (a1 a2 : string) :
  all_space (a1 ++ a2) = true -> all_space a2 = true.
Proof.
  induction a1 as [|c a1 IH]; [auto|].
  cbn [append all_space]. intros H. apply andb_true_iff in H. now apply IH.
Qed.

Lemma needs_output (x : string) :
  starts_with "#" x = false -> starts_with "#output" x = false.
Proof.
  intros H. destruct (starts_with "#output" x) eqn:E; [|reflexivity].
  now rewrite (starts_with_trans "#" "#output" x eq_refl E) in H.
Qed.

Lemma output_block_needs (x : string) :
  starts_with "#output" x = false -> output_block x = None.
Proof. intros H. unfold output_block. now rewrite lit_eq, H. Qed.

Lemma output_prefix_needs (x : string) :
  starts_with "#output" x = false -> output_prefix x = None.
Proof. intros H. unfold output_prefix. now rewrite lit_eq, H. Qed.

Lemma output_line_needs (b x : string) :
  starts_with "#output" x = false -> output_line b x = None.
Proof.
  intros H. unfold output_line. rewrite lit_eq, H. now destruct (line_start b).
Qed.

Lemma free_suffix (w s u t : string) :
  includes w s = false -> s = u ++ t -> starts_with w t = false.
Proof. intros H ->. exact (includes_head _ _ (includes_suffix _ _ _ H)). Qed.

(** The three passes on a text without the selector. *)
Lemma pass1_free (s : string) :
  includes "#output" s = false ->
  Rx.replace_all output_block (fun _ _ _ => "body {") s = s.
Proof.
  intros H. apply scan_none. intros u t E.
  apply output_block_needs. exact (free_suffix _ _ _ _ H E).
Qed.

Lemma pass2_free (s : string) :
  includes "#output" s = false ->
  Rx.replace_all output_prefix (fun _ _ _ => EmptyString) s = s.
Proof.
  intros H. apply scan_none. intros u t E.
  apply output_prefix_needs. exact (free_suffix _ _ _ _ H E).
Qed.

Lemma pass3_free (s before : string) :
  includes "#output" s = false ->
  replace_anchored_go output_line (fun _ _ _ => EmptyString) 0 before s = s.
Proof.
  intros H. apply anchored_none. intros b u t E.
  apply output_line_needs. exact (free_suffix _ _ _ _ H E).
Qed.

(** No occurrence of the selector begins in a text free of it when the
    text goes on with a character that is none of those behind its hash
    sign. *)
Lemma junction (pre u t s : string) (c : ascii) :
  includes "#output" pre = false -> pre = u ++ t ->
  includes (String c EmptyString) "output" = false ->
  t <> EmptyString ->
  starts_with "#output" (t ++ String c s) = false.
Proof.
  intros Hp -> Hc Nt.
  apply includes_suffix, includes_head in Hp.
  cbn [includes starts_with] in Hc. rewrite !andb_true_r in Hc.
  repeat (apply orb_false_iff in Hc; destruct Hc as [? Hc]).
  assert (Ho : Ascii.eqb "o" c = false) by (now rewrite Ascii.eqb_sym).
  assert (Hu : Ascii.eqb "u" c = false) by (now rewrite Ascii.eqb_sym).
  assert (Ht : Ascii.eqb "t" c = false) by (now rewrite Ascii.eqb_sym).
  assert (Hq : Ascii.eqb "p" c = false) by (now rewrite Ascii.eqb_sym).
  destruct t as [|a1 [|a2 [|a3 [|a4 [|a5 [|a6 [|a7 t]]]]]]];
    [contradiction|..]; cbn [append starts_with] in *;
    rewrite ?Ho, ?Hu, ?Ht, ?Hq, ?andb_false_r; try reflexivity.
  exact Hp.
Qed.

(** The three passes over a text free of the selector. *)
Lemma pass1_over (pre s : string) (c : ascii) :
  includes "#output" pre = false ->
  includes (String c EmptyString) "output" = false ->
  Rx.replace_all output_block (fun _ _ _ => "body {") (pre ++ String c s)
  = pre ++ Rx.replace_all output_block (fun _ _ _ => "body {") (String c s).
Proof.
  intros H Hc. apply scan_prefix. intros u t E N.
  apply output_block_needs. exact (junction pre u t s c H E Hc N).
Qed.

Lemma pass2_over (pre s : string) (c : ascii) :
  includes "#output" pre = false ->
  includes (String c EmptyString) "output" = false ->
  Rx.replace_all output_prefix (fun _ _ _ => EmptyString) (pre ++ String c s)
  = pre ++ Rx.replace_all output_prefix (fun _ _ _ => EmptyString)
             (String c s).
Proof.
  intros H Hc. apply scan_prefix. intros u t E N.
  apply output_prefix_needs. exact (junction pre u t s c H E Hc N).
Qed.

Lemma pass3_over (pre s before : string) (c : ascii) :
  includes "#output" pre = false ->
  includes (String c EmptyString) "output" = false ->
  replace_anchored_go output_line (fun _ _ _ => EmptyString) 0 before
                      (pre ++ String c s)
  = pre ++ replace_anchored_go output_line (fun _ _ _ => EmptyString) 0
             (before ++ pre) (String c s).
Proof.
  intros H Hc. apply anchored_prefix. intros b u t E N.
  apply output_line_needs. exact (junction pre u t s c H E Hc N).
Qed.

(** The three passes over a prefix without a hash sign. *)
Lemma pass1_prefix (pre s : string) :
  includes "#" pre = false ->
  Rx.replace_all output_block (fun _ _ _ => "body {") (pre ++ s)
  = pre ++ Rx.replace_all output_block (fun _ _ _ => "body {") s.
Proof.
  intros H. apply (scan_prefix_free _ _ _ "#"); [|exact H].
  intros x Hx. apply output_block_needs, needs_output, Hx.
Qed.

Lemma pass2_prefix (pre s : string) :
  includes "#" pre = false ->
  Rx.replace_all output_prefix (fun _ _ _ => EmptyString) (pre ++ s)
  = pre ++ Rx.replace_all output_prefix (fun _ _ _ => EmptyString) s.
Proof.
  intros H. apply (scan_prefix_free _ _ _ "#"); [|exact H].
  intros x Hx. apply output_prefix_needs, needs_output, Hx.
Qed.

Lemma pass3_prefix (pre s before : string) :
  includes "#" pre = false ->
  replace_anchored_go output_line (fun _ _ _ => EmptyString) 0 before
                      (pre ++ s)
  = pre ++ replace_anchored_go output_line (fun _ _ _ => EmptyString) 0
             (before ++ pre) s.
Proof.
  intros H. apply (anchored_prefix_free _ _ _ "#"); [|exact H].
  intros b x Hx. apply output_line_needs, needs_output, Hx.
Qed.

Lemma selector_start_stops (rest : string) :
  selector_start rest = true ->
  match rest with
  | String c _ => Rx.space c = false
  | EmptyString => True
  end.
Proof.
  destruct rest as [|c rest]; [trivial|]. cbn [selector_start]. intros H.
  apply andb_true_iff in H. destruct H as [H _].
  now apply negb_true_iff in H.
Qed.

Lemma selector_start_no_brace (rest : string) :
  selector_start rest = true -> starts_with "{" rest = false.
Proof.
  destruct rest as [|c rest]; [reflexivity|]. cbn [selector_start]. intros H.
  apply andb_true_iff in H. destruct H as [_ H].
  apply negb_true_iff in H. cbn [starts_with].
  now rewrite Ascii.eqb_sym, H.
Qed.

Lemma block_hit (ws rest : string) :
  all_space ws = true ->
  output_block ("#output" ++ ws ++ "{" ++ rest) = Some (tt, rest).
Proof.
  intros H. unfold output_block.
  rewrite lit_eq, starts_with_self, drop_append.
  apply star_stops.
  - reflexivity.
  - exact (all_space_chars ws H).
  - now rewrite lit_eq, starts_with_self, drop_append.
Qed.

Lemma block_miss (ws rest : string) :
  all_space ws = true -> selector_start rest = true ->
  output_block ("#output" ++ ws ++ rest) = None.
Proof.
  intros H Hr. unfold output_block.
  rewrite lit_eq, starts_with_self, drop_append.
  apply star_none.
  - now apply selector_start_stops.
  - exact (all_space_chars ws H).
  - intros a1 a2 E. rewrite lit_eq.
    assert (F : starts_with "{" (a2 ++ rest) = false).
    { destruct a2 as [|c a2].
      - now apply selector_start_no_brace.
      - subst ws. apply all_space_suffix in H.
        cbn [all_space] in H. apply andb_true_iff in H. destruct H as [H _].
        cbn [append starts_with].
        destruct (Ascii.eqb "{" c) eqn:B; [|reflexivity].
        apply Ascii.eqb_eq in B. subst c. discriminate. }
    now rewrite F.
Qed.

Lemma prefix_hit (w : ascii) (ws rest : string) :
  all_space (String w ws) = true -> selector_start rest = true ->
  output_prefix ("#output" ++ String w ws ++ rest) = Some (tt, rest).
Proof.
  intros H Hr. unfold output_prefix.
  rewrite lit_eq, starts_with_self, drop_append.
  cbn [all_space] in H. apply andb_true_iff in H. destruct H as [Hw Hws].
  cbn [append Rx.plus]. unfold Rx.space at 1. rewrite Hw.
  apply star_stops.
  - now apply selector_start_stops.
  - exact (all_space_chars ws Hws).
  - reflexivity.
Qed.

Lemma prefix_miss (rest : string) :
  selector_start rest = true -> output_prefix ("#output" ++ rest) = None.
Proof.
  intros Hr. unfold output_prefix.
  rewrite lit_eq, starts_with_self, drop_append.
  apply selector_start_stops in Hr.
  destruct rest as [|c rest]; [reflexivity|]. cbn [Rx.plus]. now rewrite Hr.
Qed.

Lemma line_hit (before rest : string) :
  line_start before = true -> selector_start rest = true ->
  output_line before ("#output" ++ rest) = Some (tt, rest).
Proof.
  intros Hb Hr. unfold output_line. rewrite Hb.
  rewrite lit_eq, starts_with_self, drop_append.
  apply (star_stops _ Rx.space rest (selector_start_stops rest Hr)
           EmptyString).
  - discriminate.
  - reflexivity.
Qed.

Lemma pass1_keep (ws rest : string) :
  all_space ws = true -> selector_start rest = true ->
  includes "#output" rest = false ->
  Rx.replace_all output_block (fun _ _ _ => "body {") ("#output" ++ ws ++ rest)
  = "#output" ++ ws ++ rest.
Proof.
  intros Hws Hr Hf.
  change ("#output" ++ ws ++ rest) with (String "#" ("output" ++ ws ++ rest)).
  rewrite scan_pass by (apply (block_miss ws rest Hws Hr)).
  f_equal.
  replace ("output" ++ ws ++ rest) with (("output" ++ ws) ++ rest)
    by (now rewrite append_assoc).
  rewrite pass1_prefix, pass1_free; auto.
  rewrite includes_char_append. cbn [orb].
  apply all_space_free; [reflexivity|exact Hws].
Qed.

Lemma pass2_keep (rest : string) :
  selector_start rest = true -> includes "#output" rest = false ->
  Rx.replace_all output_prefix (fun _ _ _ => EmptyString) ("#output" ++ rest)
  = "#output" ++ rest.
Proof.
  intros Hr Hf.
  change ("#output" ++ rest) with (String "#" ("output" ++ rest)).
  rewrite scan_pass by (apply (prefix_miss rest Hr)).
  f_equal. rewrite pass2_prefix, pass2_free; auto.
Qed.

Lemma includes_prefix (p a c : string) :
  includes p (a ++ c) = false -> includes p a = false.
Proof.
  intros H. destruct (includes p a) eqn:E; [|reflexivity].
  now rewrite (includes_app_l p a c E) in H.
Qed.

(** X18.  [stripOutputScope] returns a style sheet without the selector
    of the output element as it is.  Where the selector stands behind a
    text without it: a rule for the selector alone, with any white space
    before its brace, becomes a rule for the body; the selector with white
    space behind it, before a further selector, is dropped together with
    the white space; the selector directly before a further selector is
    dropped at the start of a line and kept elsewhere.  In each case the
    text behind is free of the selector, and so is, where the text before
    and the text behind come to stand side by side, their concatenation. *)
Theorem stripOutputScope_cases :
  (forall css, includes "#output" css = false -> stripOutputScope css = css)
  /\ (forall pre ws rest,
        includes "#output" pre = false -> all_space ws = true ->
        includes "#output" rest = false ->
        stripOutputScope (pre ++ "#output" ++ ws ++ "{" ++ rest)
        = pre ++ "body {" ++ rest)
  /\ (forall pre w ws rest,
        includes "#output" (pre ++ rest) = false ->
        all_space (String w ws) = true -> selector_start rest = true ->
        stripOutputScope (pre ++ "#output" ++ String w ws ++ rest)
        = pre ++ rest)
  /\ (forall pre rest,
        includes "#output" (pre ++ rest) = false ->
        selector_start rest = true ->
        stripOutputScope (pre ++ "#output" ++ rest)
        = if line_start pre then pre ++ rest else pre ++ "#output" ++ rest).
Proof.
  refine (conj _ (conj _ (conj _ _))).
  - intros css H. unfold stripOutputScope. cbv zeta.
    now rewrite (pass1_free css H), (pass2_free css H), (pass3_free css _ H).
  - intros pre ws rest Hp Hws Hf. unfold stripOutputScope. cbv zeta.
    change (pre ++ "#output" ++ ws ++ "{" ++ rest)
      with (pre ++ String "#" ("output" ++ ws ++ "{" ++ rest)).
    rewrite (pass1_over pre _ "#" Hp eq_refl).
    replace (String "#" ("output" ++ ws ++ "{" ++ rest))
      with (("#output" ++ ws ++ "{") ++ rest)
      by (now rewrite !append_assoc).
    rewrite (scan_match _ output_block "body {" ("#output" ++ ws ++ "{") rest
               tt);
      [|discriminate
       |rewrite !append_assoc; exact (block_hit ws rest Hws)].
    rewrite (pass1_free rest Hf).
    change (pre ++ "body {" ++ rest) with (pre ++ String "b" ("ody {" ++ rest)).
    rewrite (pass2_over pre _ "b" Hp eq_refl).
    change (String "b" ("ody {" ++ rest)) with ("body {" ++ rest).
    rewrite (pass2_prefix "body {" rest eq_refl), (pass2_free rest Hf).
    change (pre ++ "body {" ++ rest) with (pre ++ String "b" ("ody {" ++ rest)).
    rewrite (pass3_over pre _ _ "b" Hp eq_refl).
    change (String "b" ("ody {" ++ rest)) with ("body {" ++ rest).
    rewrite (pass3_prefix "body {" rest _ eq_refl).
    now rewrite (pass3_free rest _ Hf).
  - intros pre w ws rest Hj Hws Hr. unfold stripOutputScope. cbv zeta.
    pose proof (includes_prefix _ _ _ Hj) as Hp.
    pose proof (includes_suffix _ _ _ Hj) as Hf.
    pose proof (pass1_keep _ rest Hws Hr Hf) as K.
    change (pre ++ "#output" ++ String w ws ++ rest)
      with (pre ++ String "#" ("output" ++ String w ws ++ rest)).
    change ("#output" ++ String w ws ++ rest)
      with (String "#" ("output" ++ String w ws ++ rest)) in K.
    rewrite (pass1_over pre _ "#" Hp eq_refl), K.
    rewrite (pass2_over pre _ "#" Hp eq_refl).
    replace (String "#" ("output" ++ String w ws ++ rest))
      with (("#output" ++ String w ws) ++ rest)
      by (now rewrite !append_assoc).
    rewrite (scan_match _ output_prefix EmptyString ("#output" ++ String w ws)
               rest tt);
      [|discriminate
       |rewrite !append_assoc; exact (prefix_hit w ws rest Hws Hr)].
    rewrite (pass2_free rest Hf). cbn [append].
    now rewrite (pass3_free (pre ++ rest) _ Hj).
  - intros pre rest Hj Hr. unfold stripOutputScope. cbv zeta.
    pose proof (includes_prefix _ _ _ Hj) as Hp.
    pose proof (includes_suffix _ _ _ Hj) as Hf.
    pose proof (pass1_keep EmptyString rest eq_refl Hr Hf) as K1.
    pose proof (pass2_keep rest Hr Hf) as K2.
    change ("#output" ++ EmptyString ++ rest)
      with (String "#" ("output" ++ rest)) in K1.
    change ("#output" ++ rest) with (String "#" ("output" ++ rest)) in K2.
    change (pre ++ "#output" ++ rest)
      with (pre ++ String "#" ("output" ++ rest)).
    rewrite (pass1_over pre _ "#" Hp eq_refl), K1.
    rewrite (pass2_over pre _ "#" Hp eq_refl), K2.
    rewrite (pass3_over pre _ _ "#" Hp eq_refl). cbn [append].
    destruct (line_start pre) eqn:L.
    + change (String "#" ("output" ++ rest)) with (String "#" "output" ++ rest).
      rewrite (anchored_match _ output_line _ "#" "output" rest pre tt)
        by (exact (line_hit pre rest L Hr)).
      cbn [append]. now rewrite (pass3_free rest _ Hf).
    + rewrite anchored_pass by (unfold output_line; now rewrite L).
      rewrite (pass3_prefix "output" rest _ eq_refl).
      now rewrite (pass3_free rest _ Hf).
Qed.

(** A sheet whose rules before the selector hold a colour with a hash
    sign. *)
Lemma stripOutputScope_cases_witness :
  stripOutputScope "p { color: #fff }" = "p { color: #fff }"
  /\ stripOutputScope ("a {color: #0F4C81}" ++ lf ++ "#output {color: red}")
     = "a {color: #0F4C81}" ++ lf ++ "body {color: red}"
  /\ stripOutputScope "a {} #output h1 {}" = "a {} h1 {}"
  /\ stripOutputScope ("a {}" ++ lf ++ "#output>p {}") = "a {}" ++ lf ++ ">p {}"
  /\ stripOutputScope "a,#output>p {}" = "a,#output>p {}".
Proof.
  destruct stripOutputScope_cases as (A & B & C & D).
  refine (conj (A "p { color: #fff }" eq_refl)
            (conj (B ("a {color: #0F4C81}" ++ lf) " " "color: red}" eq_refl
                     eq_refl eq_refl)
               (conj (C "a {} " " "%char EmptyString "h1 {}" eq_refl eq_refl
                        eq_refl)
                  (conj (D ("a {}" ++ lf) ">p {}" eq_refl eq_refl)
                     (D "a," ">p {}" eq_refl eq_refl))))).
Defined.

(** ** The themes on disk *)

Lemma see_spec (acc : list string) (l x : string) :
  In x (see acc l) <-> In x acc \/ x = l.
Proof.
  unfold see. destruct (existsb (fun k => k =? l) acc) eqn:E.
  - split; [tauto|]. intros [H| ->]; [exact H|].
    apply existsb_exists in E. destruct E as (k & Hk & Ek).
    apply String.eqb_eq in Ek. now subst k.
  - rewrite in_app_iff. cbn [In]. intuition (subst; auto).
Qed.

Lemma see_NoDup (acc : list string) (l : string) :
  NoDup acc -> NoDup (see acc l).
Proof.
  intros H. unfold see. destruct (existsb (fun k => k =? l) acc) eqn:E;
    [exact H|].
  apply NoDup_app; [exact H|repeat constructor; intros []|].
  intros x Hx [Hl|[]]. subst x.
  assert (T : existsb (fun k => k =? l) acc = true).
  { apply existsb_exists. exists l. split; [exact Hx|apply String.eqb_refl]. }
  congruence.
Qed.

Lemma fold_see (ls : list string) : forall acc,
  NoDup acc ->
  NoDup (fold_left see ls acc)
  /\ forall x, In x (fold_left see ls acc) <-> In x acc \/ In x ls.
Proof.
  induction ls as [|l ls IH]; intros acc H; cbn [fold_left].
  - split; [exact H|]. intros x. cbn [In]. tauto.
  - destruct (IH (see acc l) (see_NoDup acc l H)) as [N I].
    split; [exact N|]. intros x. rewrite I, see_spec. cbn [In].
    intuition (subst; auto).
Qed.

Section ThemeFacts.

Variable local_css external_css : string -> bool.
Variable local_base external_base : bool.
Variable localThemes externalThemes configThemes : list string.

Local Abbreviation names :=
  (resolveThemeNames local_css external_css localThemes externalThemes
                     configThemes).
Local Abbreviation found :=
  (localThemes ++ externalThemes ++ configThemes)%list.

Lemma resolved_or_fallback :
  (names = FALLBACK_THEMES
   /\ forall n, In n found -> local_css n || external_css n = false)
  \/ (NoDup names
      /\ forall n, In n names <->
                   In n found /\ local_css n || external_css n = true).
Proof.
  unfold resolveThemeNames. cbv zeta.
  destruct (fold_see found [] (NoDup_nil _)) as [N I].
  fold (first_seen found) in N, I.
  destruct (filter (fun name => local_css name || external_css name)
                   (first_seen found)) as [|a l] eqn:F.
  - left. split; [reflexivity|]. intros n Hn.
    destruct (local_css n || external_css n) eqn:E; [|reflexivity].
    assert (H : In n (filter (fun name => local_css name || external_css name)
                             (first_seen found))).
    { apply filter_In. split; [|exact E]. apply I. now right. }
    rewrite F in H. destruct H.
  - right. rewrite <- F. split.
    + now apply NoDup_filter.
    + intros n. rewrite filter_In, I. cbn [In]. tauto.
Qed.

(** X19.  The list of theme names is never empty and names no theme
    twice.  Either it is the list of the names found that have a style
    sheet in one of the two theme directories, or no name found has one and
    it is the fallback list.  In the first case a theme [parseArgs] accepts
    is one that [loadThemeCss] loads as soon as the base style sheet is
    there, from the local directory when it has the style sheet and from
    the external one otherwise. *)
Theorem theme_names_resolved :
  names <> []
  /\ NoDup names
  /\ ((names = FALLBACK_THEMES
       /\ forall n, In n found -> local_css n || external_css n = false)
      \/ forall n, In n names <->
                   In n found /\ local_css n || external_css n = true)
  /\ forall (ext : Extend.ExtendConfig) (argv : list string)
            (o : Cli.CliOptions) (n : string),
       Cli.parseArgs names ext argv = Some (Cli.Options o) ->
       In n found -> local_css n || external_css n = true ->
       local_base || external_base = true ->
       exists basePath,
         loadThemeCss local_css external_css local_base external_base
                      (Cli.theme o)
         = Loaded basePath
                  (if local_css (Cli.theme o) then Local else External).
Proof.
  destruct resolved_or_fallback as [[E F]|[N I]].
  - refine (conj _ (conj _ (conj (or_introl (conj E F)) _))).
    + rewrite E. discriminate.
    + rewrite E. repeat constructor; cbn; intuition discriminate.
    + intros ext argv o n _ Hn Hc _. rewrite (F n Hn) in Hc. discriminate.
  - refine (conj _ (conj N (conj (or_intror I) _))).
    + unfold resolveThemeNames. cbv zeta.
      destruct (filter _ _); discriminate.
    + intros ext argv o n H _ _ Hb.
      apply parseArgs_options in H. destruct H as (_ & _ & Ht).
      apply I in Ht. destruct Ht as [_ Ht].
      unfold loadThemeCss, find_candidate.
      destruct local_base; [|cbn [orb] in Hb; rewrite Hb];
        (destruct (local_css (Cli.theme o));
         [eauto|cbn [orb] in Ht; rewrite Ht; eauto]).
Qed.

End ThemeFacts.

Lemma theme_names_resolved_witness :
  let css (name : string) := (name =? "grace") || (name =? "modern") in
  let none (_ : string) := false in
  exists basePath,
    loadThemeCss css none true false "modern" = Loaded basePath Local.
Proof.
  intros css none.
  destruct (theme_names_resolved css none true false
              ["base"; "grace"; "modern"] [] ["grace"; "default"])
    as (_ & _ & _ & H).
  exact (H Extend.empty ["a.md"; "--theme"; "modern"]
           (Cli.mkCli "a.md" "modern" false None None None "github" true false
                      false false "alt")
           "grace" eq_refl (or_intror (or_introl eq_refl)) eq_refl eq_refl).
Defined.

(** ** Loading the settings file *)

Lemma starts_with_over (c : ascii) (s : string) : forall (t w : string),
  starts_with w (t ++ String c s) = true ->
  starts_with w t = true
  \/ includes (String c EmptyString) (drop (String.length t) w) = true.
Proof.
  induction t as [|b t IH]; intros w H.
  - destruct w as [|a w]; [now left|]. right.
    cbn [append starts_with] in H. apply andb_true_iff in H.
    destruct H as [H _]. apply Ascii.eqb_eq in H. subst a.
    cbn [String.length drop includes starts_with].
    now rewrite Ascii.eqb_refl.
  - destruct w as [|a w]; [now left|].
    cbn [append starts_with] in H. apply andb_true_iff in H.
    destruct H as [Hab H]. destruct (IH w H) as [L|R].
    + left. cbn [starts_with]. now rewrite Hab, L.
    + right. exact R.
Qed.

Lemma includes_drop (p w : string) : forall n,
  includes p (drop n w) = true -> includes p w = true.
Proof.
  induction w as [|a w IH]; intros n H.
  - now destruct n.
  - destruct n as [|n]; [exact H|]. cbn [drop] in H.
    cbn [includes]. rewrite (IH n H). apply orb_true_r.
Qed.

(** No occurrence of a word begins in a text free of it when the text goes
    on with a character that the word holds at most as its first. *)
Lemma junction_tail (a : ascii) (w pre u t s : string) (c : ascii) :
  includes (String a w) pre = false -> pre = u ++ t -> t <> EmptyString ->
  includes (String c EmptyString) w = false ->
  starts_with (String a w) (t ++ String c s) = false.
Proof.
  intros Hp -> Nt Hc.
  apply includes_suffix, includes_head in Hp.
  destruct (starts_with (String a w) (t ++ String c s)) eqn:E; [|reflexivity].
  destruct (starts_with_over c s t (String a w) E) as [L|R]; [congruence|].
  destruct t as [|b t]; [contradiction|].
  cbn [String.length drop] in R.
  rewrite (includes_drop _ _ _ R) in Hc. discriminate.
Qed.

Lemma star_const (R : Type) (p : ascii -> bool) (x : R) : forall (s : string)
    (k : string -> string -> option R),
  (forall m r y, k m r = Some y -> y = x) ->
  k EmptyString s = Some x ->
  Rx.star p s k = Some x.
Proof.
  induction s as [|c s IH]; intros k Hk H0; cbn [Rx.star]; [exact H0|].
  destruct (p c); [|exact H0].
  destruct (Rx.star p s (fun m r => k (String c m) r)) as [y|] eqn:E;
    [|exact H0].
  f_equal. apply star_sound in E. destruct E as (m & rest & _ & E).
  exact (Hk _ _ _ E).
Qed.

Lemma star_one (R : Type) (p : ascii -> bool) (a : ascii) (rest : string)
      (k : string -> string -> option R) :
  p a = true ->
  match rest with String c _ => p c = false | EmptyString => True end ->
  Rx.star p (String a rest) k
  = match k (String a EmptyString) rest with
    | Some x => Some x
    | None => k EmptyString (String a rest)
    end.
Proof.
  intros Ha Hr. cbn [Rx.star]. rewrite Ha.
  destruct rest as [|c rest]; cbn [Rx.star]; [reflexivity|].
  now rewrite Hr.
Qed.

Lemma front_matter_hit (c : ascii) (y tail : string) :
  is_space c = false ->
  includes (lf ++ "---") (String c y) = false ->
  line_end tail = true ->
  front_matter EmptyString
    ("---" ++ lf ++ String c y ++ lf ++ "---" ++ tail)
  = Some (String c y).
Proof.
  intros Hc Hy Ht. unfold front_matter.
  change (line_start EmptyString) with true. cbv iota.
  rewrite lit_eq, starts_with_self, drop_append.
  change (lf ++ String c y ++ lf ++ "---" ++ tail)
    with (String (ascii_of_nat 10) (String c (y ++ lf ++ "---" ++ tail))).
  rewrite star_one; [|reflexivity|exact Hc].
  assert (K : starts_with lf (String c (y ++ lf ++ "---" ++ tail)) = false).
  { cbn [starts_with lf].
    destruct (Ascii.eqb (ascii_of_nat 10) c) eqn:E; [|reflexivity].
    apply Ascii.eqb_eq in E. subst c. discriminate. }
  rewrite (lit_eq lf (String c (y ++ lf ++ "---" ++ tail))), K.
  change (String (ascii_of_nat 10) (String c (y ++ lf ++ "---" ++ tail)))
    with (lf ++ String c y ++ (lf ++ "---") ++ tail).
  rewrite lit_eq, starts_with_self, drop_append.
  apply star_lazy_first.
  - intros b1 b2 E N. rewrite lit_eq.
    assert (J : starts_with (lf ++ "---") (b2 ++ (lf ++ "---") ++ tail)
                = false).
    { exact (junction_tail (ascii_of_nat 10) "---" (String c y) b1 b2
               ("---" ++ tail) (ascii_of_nat 10) Hy E N eq_refl). }
    now rewrite J.
  - rewrite lit_eq, starts_with_self, drop_append.
    apply star_const.
    + intros m r x. destruct (line_end r); [now intros [= <-]|discriminate].
    + now rewrite Ht.
Qed.

Lemma search_anchored_none (R : Type) (m : string -> string -> option R) :
  forall s before,
    (forall b u t, s = u ++ t -> m b t = None) ->
    search_anchored m before s = None.
Proof.
  induction s as [|c s IH]; intros before H; cbn [search_anchored].
  - now rewrite (H before EmptyString EmptyString eq_refl).
  - rewrite (H before EmptyString (String c s) eq_refl).
    apply IH. intros b u t E. apply (H b (String c u) t).
    cbn [append]. now rewrite E.
Qed.

Lemma extract_none (content : string) :
  includes "---" content = false -> extractYamlFrontMatter content = None.
Proof.
  intros H. unfold extractYamlFrontMatter. apply search_anchored_none.
  intros b u t E. unfold front_matter. rewrite lit_eq.
  rewrite (free_suffix _ _ _ _ H E). now destruct (line_start b).
Qed.

Lemma extract_hit (c : ascii) (y tail : string) :
  is_space c = false ->
  includes (lf ++ "---") (String c y) = false ->
  line_end tail = true ->
  extractYamlFrontMatter ("---" ++ lf ++ String c y ++ lf ++ "---" ++ tail)
  = Some (String c y).
Proof.
  intros Hc Hy Ht. unfold extractYamlFrontMatter.
  pose proof (front_matter_hit c y tail Hc Hy Ht) as H.
  cbn [append search_anchored] in *. now rewrite H.
Qed.

(** X20.  A text that begins with a line of three dashes, goes on with a
    block that does not begin with white space and holds no line beginning
    with three dashes, and then has a line of three dashes, has that block
    as its front matter; a text without three dashes in a row has none.
    [loadExtendConfig] passes over a settings file that cannot be read and
    over one without front matter, and returns the settings of the first
    file that has front matter, whatever the files behind it hold: the
    settings of two files are never merged. *)
Theorem loadExtendConfig_first_file :
  (forall c y tail,
     is_space c = false ->
     includes (lf ++ "---") (String c y) = false ->
     line_end tail = true ->
     extractYamlFrontMatter ("---" ++ lf ++ String c y ++ lf ++ "---" ++ tail)
     = Some (String c y)
     /\ forall rest,
          loadExtendConfig
            (Some ("---" ++ lf ++ String c y ++ lf ++ "---" ++ tail) :: rest)
          = parseExtendYaml (String c y))
  /\ (forall content,
        includes "---" content = false ->
        extractYamlFrontMatter content = None
        /\ forall rest,
             loadExtendConfig (Some content :: rest) = loadExtendConfig rest)
  /\ (forall rest, loadExtendConfig (None :: rest) = loadExtendConfig rest)
  /\ loadExtendConfig [] = Extend.empty.
Proof.
  refine (conj _ (conj _ (conj (fun _ => eq_refl) eq_refl))).
  - intros c y tail Hc Hy Ht.
    pose proof (extract_hit c y tail Hc Hy Ht) as E.
    split; [exact E|]. intros rest. cbn [loadExtendConfig]. now rewrite E.
  - intros content H. pose proof (extract_none content H) as E.
    split; [exact E|]. intros rest. cbn [loadExtendConfig]. now rewrite E.
Qed.

(** The settings file of the working directory sets the legend only; the
    citations that the one of the home directory turns on stay off. *)
Lemma loadExtendConfig_first_file_witness :
  let project := "---" ++ lf ++ "legend: none" ++ lf ++ "---" ++ lf ++ "notes" in
  let home := "---" ++ lf ++ "cite: true" ++ lf ++ "---" in
  loadExtendConfig [Some project; Some home] = parseExtendYaml "legend: none"
  /\ Extend.cite (loadExtendConfig [Some project; Some home]) = None
  /\ loadExtendConfig [Some "no settings"; Some home]
     = loadExtendConfig [Some home].
Proof.
  intros project home.
  destruct loadExtendConfig_first_file as (A & B & _).
  destruct (A "l"%char "egend: none" (lf ++ "notes") eq_refl eq_refl eq_refl)
    as [_ L].
  destruct (B "no settings" eq_refl) as [_ S].
  refine (conj (L [Some home]) (conj _ (S [Some home]))).
  unfold project. now rewrite (L [Some home]).
Defined.

(** ** Style attributes *)

Section ScanWith.

Variable X : Type.
Variable m : string -> option (X * string).
Variable f : X -> string.

(** Replacement by a text made from the captures alone. *)
Local Abbreviation made := (fun (x : X) (_ _ : string) => f x).

Lemma replace_made_before : forall s k b b',
  Rx.replace_go m made k b s = Rx.replace_go m made k b' s.
Proof.
  induction s as [|c s IH]; intros k b b'; cbn [Rx.replace_go]; auto.
  destruct k as [|k]; [|apply IH].
  destruct (m (String c s)) as [[x rest]|];
    now rewrite (IH _ (b ++ String c EmptyString) (b' ++ String c EmptyString)).
Qed.

Lemma replace_made_skip : forall u rest b,
  Rx.replace_go m made (String.length u) b (u ++ rest)
  = Rx.replace_all m made rest.
Proof.
  induction u as [|c u IH]; intros rest b; cbn [String.length append].
  - apply replace_made_before.
  - cbn [Rx.replace_go]. apply IH.
Qed.

Lemma made_pass (c : ascii) (s : string) :
  m (String c s) = None ->
  Rx.replace_all m made (String c s) = String c (Rx.replace_all m made s).
Proof.
  intros H. unfold Rx.replace_all. cbn [Rx.replace_go]. rewrite H.
  f_equal. apply replace_made_before.
Qed.

Lemma made_match (u rest : string) (x : X) :
  u <> EmptyString ->
  m (u ++ rest) = Some (x, rest) ->
  Rx.replace_all m made (u ++ rest) = f x ++ Rx.replace_all m made rest.
Proof.
  destruct u as [|c u]; [contradiction|]. intros _ H.
  unfold Rx.replace_all at 1. cbn [append Rx.replace_go].
  cbn [append] in H. rewrite H. f_equal.
  replace (String.length (String c (u ++ rest)) - String.length rest - 1)
    with (String.length u)
    by (cbn [String.length]; rewrite length_append; lia).
  apply replace_made_skip.
Qed.

Lemma made_prefix (s : string) : forall pre,
  (forall u t, pre = u ++ t -> t <> EmptyString -> m (t ++ s) = None) ->
  Rx.replace_all m made (pre ++ s) = pre ++ Rx.replace_all m made s.
Proof.
  induction pre as [|c pre IH]; intros H; [reflexivity|].
  assert (E0 : m (String c pre ++ s) = None)
    by (apply (H EmptyString (String c pre) eq_refl); discriminate).
  cbn [append] in *. rewrite made_pass by exact E0.
  rewrite IH; [reflexivity|].
  intros u t E. apply (H (String c u) t). cbn [append]. now rewrite E.
Qed.

Lemma made_none (s : string) :
  (forall u t, s = u ++ t -> m t = None) -> Rx.replace_all m made s = s.
Proof. intros H. unfold Rx.replace_all. now apply replace_go_none. Qed.

End ScanWith.

Lemma includes_app_cases (w S : string) : forall A,
  includes w (A ++ S) = true ->
  (exists u t, A = u ++ t /\ t <> EmptyString
               /\ starts_with w (t ++ S) = true)
  \/ includes w S = true.
Proof.
  induction A as [|c A IH]; intros H; [now right|].
  cbn [append includes] in H. apply orb_true_iff in H. destruct H as [H|H].
  - left. exists EmptyString, (String c A). repeat split; [discriminate|exact H].
  - destruct (IH H) as [(u & t & -> & N & E)|R]; [left|now right].
    exists (String c u), t. repeat split; auto.
Qed.

Lemma includes_app_junction (a : ascii) (w A B : string) (c : ascii) :
  includes (String a w) A = false ->
  includes (String c EmptyString) w = false ->
  includes (String a w) (String c B) = false ->
  includes (String a w) (A ++ String c B) = false.
Proof.
  intros HA Hc HB.
  destruct (includes (String a w) (A ++ String c B)) eqn:E; [|reflexivity].
  apply includes_app_cases in E.
  destruct E as [(u & t & Eu & N & E)|E]; [|congruence].
  now rewrite (junction_tail a w A u t B c HA Eu N Hc) in E.
Qed.

Lemma all_clash_suffix (w : string) : forall u t,
  all_clash w (u ++ t) = true -> t <> EmptyString -> clash w t = true.
Proof.
  induction u as [|c u IH]; intros t H N.
  - destruct t as [|d t]; [contradiction|].
    cbn [append all_clash] in H. now apply andb_true_iff in H.
  - cbn [append all_clash] in H. apply andb_true_iff in H.
    destruct H as [_ H]. now apply IH.
Qed.

Lemma includes_app_clash (w A B : string) :
  all_clash w A = true -> includes w B = false ->
  includes w (A ++ B) = false.
Proof.
  intros HA HB.
  destruct (includes w (A ++ B)) eqn:E; [|reflexivity].
  apply includes_app_cases in E.
  destruct E as [(u & t & -> & N & E)|E]; [|congruence].
  now rewrite (clash_sound w t B (all_clash_suffix w u t HA N)) in E.
Qed.

Lemma includes_longer (w x s : string) :
  includes w s = false -> includes (w ++ x) s = false.
Proof.
  induction s as [|c s IH]; intros H.
  - cbn [includes] in *. rewrite orb_false_r in *.
    destruct (starts_with (w ++ x) EmptyString) eqn:E; [|reflexivity].
    rewrite starts_with_app in E. apply andb_true_iff in E.
    destruct E as [E _]. congruence.
  - cbn [includes] in *. apply orb_false_iff in H. destruct H as [H1 H2].
    rewrite (IH H2), orb_false_r.
    destruct (starts_with (w ++ x) (String c s)) eqn:E; [|reflexivity].
    rewrite starts_with_app in E. apply andb_true_iff in E.
    destruct E as [E _]. congruence.
Qed.

Lemma style_attribute_needs (q t : string) :
  starts_with (up ("style=" ++ q)) (up t) = false ->
  style_attribute q t = None.
Proof.
  intros H. unfold style_attribute.
  destruct (Rx.lit_ci ("style=" ++ q) t _) as [r|] eqn:E; [|reflexivity].
  apply lit_ci_sound in E. destruct E as (m & rest & -> & Hm & _).
  rewrite (up_append m rest), Hm, starts_with_self in H. discriminate.
Qed.

Lemma style_block_needs (t : string) :
  includes "</STYLE>" (up t) = false -> style_block t = None.
Proof.
  intros H. unfold style_block.
  destruct (Rx.lit_ci "<style" t _) as [r|] eqn:E; [|reflexivity].
  exfalso.
  apply lit_ci_sound in E. destruct E as (m1 & r1 & -> & _ & E).
  apply star_sound in E. destruct E as (attrs & r2 & -> & E).
  apply lit_sound in E. destruct E as (r3 & -> & E).
  apply star_lazy_sound in E. destruct E as (css & r4 & -> & E).
  apply lit_ci_sound in E. destruct E as (m2 & r5 & -> & Hm & _).
  rewrite !up_append, Hm in H.
  do 4 apply includes_suffix in H.
  change (up "</style>") with "</STYLE>" in H.
  now rewrite includes_self in H.
Qed.

Lemma lit_ci_hit (R : Type) (w r : string)
      (k : string -> string -> option R) :
  Rx.lit_ci w (w ++ r) k = k w r.
Proof.
  revert k. induction w as [|a w IH]; intros k; [reflexivity|].
  cbn [append Rx.lit_ci]. unfold Rx.eqb_ci. rewrite Ascii.eqb_refl.
  now rewrite IH.
Qed.

Lemma none_of_chars (q css : string) :
  (forall c, includes (String c EmptyString) css = true ->
             includes (String c EmptyString) q = false) ->
  forall c, includes (String c EmptyString) css = true ->
            Rx.none_of q c = true.
Proof. intros H c Hc. unfold Rx.none_of. now rewrite (H c Hc). Qed.

Lemma no_quote_chars (q : ascii) (css : string) :
  includes (String q EmptyString) css = false ->
  forall c, includes (String c EmptyString) css = true ->
            includes (String c EmptyString) (String q EmptyString) = false.
Proof.
  intros H c Hc. cbn [includes starts_with]. rewrite andb_true_r, orb_false_r.
  destruct (Ascii.eqb c q) eqn:E; [|reflexivity].
  apply Ascii.eqb_eq in E. subst c. congruence.
Qed.

Lemma style_attribute_hit (q : ascii) (css post : string) :
  includes (String q EmptyString) css = false ->
  style_attribute (String q EmptyString)
    (("style=" ++ String q EmptyString) ++ css ++ String q post)
  = Some (css, post).
Proof.
  intros H. unfold style_attribute. rewrite lit_ci_hit.
  apply star_stops.
  - unfold Rx.none_of. cbn [includes starts_with].
    now rewrite Ascii.eqb_refl.
  - apply none_of_chars. now apply no_quote_chars.
  - cbn [Rx.lit]. now rewrite Ascii.eqb_refl.
Qed.

Lemma up_nonempty (t : string) : t <> EmptyString -> up t <> EmptyString.
Proof. destruct t; [contradiction|discriminate]. Qed.

Lemma attribute_free (q : ascii) (f : string -> string) (s : string) :
  includes (up ("style=" ++ String q EmptyString)) (up s) = false ->
  Rx.replace_all (style_attribute (String q EmptyString)) (fun x _ _ => f x) s
  = s.
Proof.
  intros H. apply made_none. intros u t E. apply style_attribute_needs.
  subst s. rewrite (up_append u t) in H.
  exact (includes_head _ _ (includes_suffix _ _ _ H)).
Qed.

(** One pass over a text with one style attribute in the quotes of the
    pass. *)
Lemma attribute_pass (q : ascii) (f : string -> string)
      (pre css post : string) :
  up ("style=" ++ String q EmptyString) = "STYLE=" ++ String q EmptyString ->
  Ascii.eqb "S" q = false ->
  includes "STYLE=" (up pre) = false ->
  includes (String q EmptyString) css = false ->
  includes "STYLE=" (up post) = false ->
  Rx.replace_all (style_attribute (String q EmptyString)) (fun x _ _ => f x)
    (pre ++ ("style=" ++ String q EmptyString) ++ css ++ String q post)
  = pre ++ f css ++ post.
Proof.
  intros Hq Hs Hpre Hcss Hpost.
  rewrite made_prefix.
  - f_equal.
    replace (("style=" ++ String q EmptyString) ++ css ++ String q post)
      with ((("style=" ++ String q EmptyString) ++ css
             ++ String q EmptyString) ++ post)
      by (now rewrite !append_assoc).
    rewrite (made_match _ _ f _ post css).
    + f_equal. apply attribute_free. rewrite Hq.
      exact (includes_longer "STYLE=" _ _ Hpost).
    + discriminate.
    + replace ((("style=" ++ String q EmptyString) ++ css
                ++ String q EmptyString) ++ post)
        with (("style=" ++ String q EmptyString) ++ css ++ String q post)
        by (now rewrite !append_assoc).
      now apply style_attribute_hit.
  - intros u t E N. apply style_attribute_needs. rewrite Hq.
    rewrite (up_append t).
    change (up (("style=" ++ String q EmptyString) ++ css ++ String q post))
      with (String "S" (up ("tyle=" ++ String q EmptyString ++ css
                            ++ String q post))).
    apply (junction_tail "S" ("TYLE=" ++ String q EmptyString) (up pre) (up u)).
    + exact (includes_longer "STYLE=" _ _ Hpre).
    + now rewrite E, up_append.
    + now apply up_nonempty.
    + cbn [append includes starts_with]. now rewrite Hs.
Qed.

(** A text with one style attribute in one kind of quotes holds none in
    the other kind. *)
Lemma other_quote_free (q q' : ascii) (pre mid post : string) :
  up ("style=" ++ String q EmptyString) = "STYLE=" ++ String q EmptyString ->
  Rx.upper q = q ->
  all_clash ("STYLE=" ++ String q' EmptyString)
            ("STYLE=" ++ String q EmptyString) = true ->
  all_clash ("STYLE=" ++ String q' EmptyString) (String q EmptyString) = true ->
  includes "S" ("TYLE=" ++ String q' EmptyString) = false ->
  includes (String q EmptyString) ("TYLE=" ++ String q' EmptyString) = false ->
  includes "STYLE=" (up pre) = false ->
  includes "STYLE=" (up mid) = false ->
  includes "STYLE=" (up post) = false ->
  includes ("STYLE=" ++ String q' EmptyString)
           (up (pre ++ ("style=" ++ String q EmptyString) ++ mid
                ++ String q post)) = false.
Proof.
  intros Hq Hu C1 C2 N1 N2 Hpre Hmid Hpost.
  rewrite (up_append pre), (up_append ("style=" ++ String q EmptyString)),
    (up_append mid), Hq.
  change (up (String q post)) with (String (Rx.upper q) (up post)).
  rewrite Hu.
  change (("STYLE=" ++ String q EmptyString) ++ up mid ++ String q (up post))
    with (String "S" (("TYLE=" ++ String q EmptyString) ++ up mid
                      ++ String q (up post))).
  apply (includes_app_junction "S" ("TYLE=" ++ String q' EmptyString));
    [exact (includes_longer "STYLE=" _ _ Hpre)|exact N1|].
  change (String "S" (("TYLE=" ++ String q EmptyString) ++ up mid
                      ++ String q (up post)))
    with (("STYLE=" ++ String q EmptyString) ++ up mid ++ String q (up post)).
  apply includes_app_clash; [exact C1|].
  apply (includes_app_junction "S" ("TYLE=" ++ String q' EmptyString));
    [exact (includes_longer "STYLE=" _ _ Hmid)|exact N2|].
  change (String q (up post)) with (String q EmptyString ++ up post).
  apply includes_app_clash; [exact C2|].
  exact (includes_longer "STYLE=" _ _ Hpost).
Qed.

(** X21.  In a document without the closing tag of a style element,
    [normalizeInlineCss] replaces the content of a style attribute by what
    [normalizeCssText] makes of it and leaves the rest as it is: for an
    attribute in double quotes whose content holds no double quote, and for
    one in single quotes whose content holds no single quote, when the text
    before it, the text behind it and the content, for double quotes the
    content as replaced, hold no further style attribute. *)
Theorem normalizeInlineCss_attribute :
  forall (pre css post : string) (style : StyleConfig),
    includes "STYLE=" (up pre) = false ->
    includes "STYLE=" (up post) = false ->
    (includes "</STYLE>"
              (up (pre ++ "style=" ++ dq ++ css ++ dq ++ post)) = false ->
     includes dq css = false ->
     includes "STYLE=" (up (normalizeCssText css style)) = false ->
     normalizeInlineCss (pre ++ "style=" ++ dq ++ css ++ dq ++ post) style
     = pre ++ "style=" ++ dq ++ normalizeCssText css style ++ dq ++ post)
    /\ (includes "</STYLE>"
                 (up (pre ++ "style='" ++ css ++ "'" ++ post)) = false ->
        includes "'" css = false ->
        includes "STYLE=" (up css) = false ->
        normalizeInlineCss (pre ++ "style='" ++ css ++ "'" ++ post) style
        = pre ++ "style='" ++ normalizeCssText css style ++ "'" ++ post).
Proof.
  intros pre css post style Hpre Hpost.
  unfold normalizeInlineCss, dq. cbv zeta. split.
  - intros Hblock Hcss Hnew.
    rewrite (made_none _ style_block
               (fun x => "<style" ++ fst x ++ ">"
                         ++ normalizeCssText (snd x) style ++ "</style>"))
      by (intros u t E; apply style_block_needs; rewrite E, up_append in Hblock;
          exact (includes_suffix _ _ _ Hblock)).
    change (pre ++ "style=" ++ String (ascii_of_nat 34) EmptyString ++ css
            ++ String (ascii_of_nat 34) EmptyString ++ post)
      with (pre ++ ("style=" ++ String (ascii_of_nat 34) EmptyString) ++ css
            ++ String (ascii_of_nat 34) post).
    rewrite (attribute_pass (ascii_of_nat 34)
               (fun cssText =>
                  "style=" ++ String (ascii_of_nat 34) EmptyString
                  ++ normalizeCssText cssText style
                  ++ String (ascii_of_nat 34) EmptyString)
               pre css post eq_refl eq_refl Hpre Hcss Hpost).
    replace (pre ++ ("style=" ++ String (ascii_of_nat 34) EmptyString
                     ++ normalizeCssText css style
                     ++ String (ascii_of_nat 34) EmptyString) ++ post)
      with (pre ++ ("style=" ++ String (ascii_of_nat 34) EmptyString)
            ++ normalizeCssText css style ++ String (ascii_of_nat 34) post)
      by (rewrite !append_assoc; reflexivity).
    apply (attribute_free "'"
             (fun cssText => "style='" ++ normalizeCssText cssText style ++ "'")).
    exact (other_quote_free (ascii_of_nat 34) "'" pre _ post eq_refl eq_refl
             eq_refl eq_refl eq_refl eq_refl Hpre Hnew Hpost).
  - intros Hblock Hcss Hold.
    rewrite (made_none _ style_block
               (fun x => "<style" ++ fst x ++ ">"
                         ++ normalizeCssText (snd x) style ++ "</style>"))
      by (intros u t E; apply style_block_needs; rewrite E, up_append in Hblock;
          exact (includes_suffix _ _ _ Hblock)).
    rewrite (attribute_free (ascii_of_nat 34)
               (fun cssText =>
                  "style=" ++ String (ascii_of_nat 34) EmptyString
                  ++ normalizeCssText cssText style
                  ++ String (ascii_of_nat 34) EmptyString))
      by (exact (other_quote_free "'" (ascii_of_nat 34) pre css post eq_refl
                   eq_refl eq_refl eq_refl eq_refl eq_refl Hpre Hold Hpost)).
    change (pre ++ "style='" ++ css ++ "'" ++ post)
      with (pre ++ ("style=" ++ String "'" EmptyString) ++ css
            ++ String "'" post).
    rewrite (attribute_pass "'"
               (fun cssText =>
                  "style='" ++ normalizeCssText cssText style ++ "'")
               pre css post eq_refl eq_refl Hpre Hcss Hpost).
    rewrite !append_assoc. reflexivity.
Qed.

Lemma normalizeInlineCss_attribute_witness :
  normalizeInlineCss
    ("<p style=" ++ dq ++ "color: var(--md-primary-color)" ++ dq ++ ">x</p>")
    DEFAULT_STYLE
  = "<p style=" ++ dq ++ "color: #0F4C81" ++ dq ++ ">x</p>".
Proof.
  destruct (normalizeInlineCss_attribute "<p " "color: var(--md-primary-color)"
              ">x</p>" DEFAULT_STYLE eq_refl eq_refl) as [D _].
  exact (D eq_refl eq_refl eq_refl).
Defined.

(** ** Style elements *)

Lemma lit_ci_needs (R : Type) (w s : string)
      (k : string -> string -> option R) :
  starts_with (up w) (up s) = false -> Rx.lit_ci w s k = None.
Proof.
  intros H. destruct (Rx.lit_ci w s k) as [r|] eqn:E; [|reflexivity].
  apply lit_ci_sound in E. destruct E as (m & rest & -> & Hm & _).
  rewrite (up_append m rest), Hm, starts_with_self in H. discriminate.
Qed.

Lemma includes_needs_char (e : ascii) (w : string) : forall A,
  includes (String e EmptyString) A = false ->
  includes (String e EmptyString) w = true ->
  includes w A = false.
Proof.
  intros A HA Hw.
  destruct (includes w A) eqn:E; [|reflexivity]. exfalso.
  revert HA E. induction A as [|c A IH]; intros HA E.
  - cbn [includes] in E. rewrite orb_false_r in E.
    destruct w; [discriminate|discriminate].
  - cbn [includes] in E. apply orb_true_iff in E. destruct E as [E|E].
    + apply starts_with_split in E. destruct E as (r & E).
      rewrite E in HA.
      assert (T : includes (String e EmptyString) (w ++ r) = true)
        by (now apply includes_app_l).
      congruence.
    + apply IH; [|exact E]. exact (includes_tail _ _ _ HA).
Qed.

Lemma lit_ci_match (R : Type) (r : string) : forall (w m : string)
    (k : string -> string -> option R),
  up m = up w -> Rx.lit_ci w (m ++ r) k = k m r.
Proof.
  induction w as [|a w IH]; intros m k H.
  - destruct m; [reflexivity|discriminate].
  - destruct m as [|b m]; [discriminate|].
    injection H as Hb Hm.
    cbn [append Rx.lit_ci]. unfold Rx.eqb_ci. rewrite Hb, Ascii.eqb_refl.
    now rewrite (IH m _ Hm).
Qed.

Lemma style_block_hit (open close attrs css post : string) :
  up open = "<STYLE" -> up close = "</STYLE>" ->
  includes ">" attrs = false ->
  includes "</STYLE>" (up css) = false ->
  style_block (open ++ attrs ++ ">" ++ css ++ close ++ post)
  = Some ((attrs, css), post).
Proof.
  intros Ho Hcl Ha Hc. unfold style_block.
  rewrite (lit_ci_match _ _ "<style" open) by exact Ho.
  apply star_stops.
  - reflexivity.
  - intros c Hc'. exact (none_of_gt attrs c Ha Hc').
  - rewrite lit_eq, starts_with_self, drop_append.
    apply star_lazy_first.
    + intros b1 b2 E N. apply lit_ci_needs.
      rewrite (up_append b2), (up_append close), Hcl.
      change ("</STYLE>" ++ up post) with (String "<" ("/STYLE>" ++ up post)).
      apply (junction_tail "<" "/STYLE>" (up css) (up b1)).
      * exact Hc.
      * now rewrite E, up_append.
      * now apply up_nonempty.
      * reflexivity.
    + now rewrite (lit_ci_match _ _ "</style>" close) by exact Hcl.
Qed.

(** X22.  [normalizeInlineCss] replaces the content of a style element,
    its tags in any mix of upper and lower case, by what [normalizeCssText]
    makes of it, writes the tags in lower case and leaves the rest as it is,
    when: the text before holds no opening of a style element; the
    attributes of the element hold no closing angle bracket and no equals
    sign; the content holds no closing tag of a style element, nor does the
    text behind; and neither the text before, nor the content as replaced,
    nor the text behind holds a style attribute. *)
Theorem normalizeInlineCss_block :
  forall (pre open attrs css close post : string) (style : StyleConfig),
    up open = "<STYLE" ->
    up close = "</STYLE>" ->
    includes "<STYLE" (up pre) = false ->
    includes "STYLE=" (up pre) = false ->
    includes ">" attrs = false ->
    includes "=" (up attrs) = false ->
    includes "</STYLE>" (up css) = false ->
    includes "STYLE=" (up (normalizeCssText css style)) = false ->
    includes "</STYLE>" (up post) = false ->
    includes "STYLE=" (up post) = false ->
    normalizeInlineCss (pre ++ open ++ attrs ++ ">" ++ css ++ close ++ post)
                       style
    = pre ++ "<style" ++ attrs ++ ">" ++ normalizeCssText css style
      ++ "</style>" ++ post.
Proof.
  intros pre open attrs css close post style Ho Hcl Hp1 Hp2 Ha1 Ha2 Hc Hn
         Ht1 Ht2.
  unfold normalizeInlineCss, dq. cbv zeta.
  pose (f := fun x : string * string =>
               "<style" ++ fst x ++ ">" ++ normalizeCssText (snd x) style
               ++ "</style>").
  change (fun (x : string * string) (_ _ : string) =>
            "<style" ++ fst x ++ ">" ++ normalizeCssText (snd x) style
            ++ "</style>")
    with (fun (x : string * string) (_ _ : string) => f x).
  assert (P1 : Rx.replace_all style_block (fun x _ _ => f x)
                 (pre ++ open ++ attrs ++ ">" ++ css ++ close ++ post)
               = pre ++ "<style" ++ attrs ++ ">" ++ normalizeCssText css style
                 ++ "</style>" ++ post).
  { rewrite made_prefix.
    - f_equal.
      replace (open ++ attrs ++ ">" ++ css ++ close ++ post)
        with ((open ++ attrs ++ ">" ++ css ++ close) ++ post)
        by (now rewrite !append_assoc).
      rewrite (made_match _ _ f _ post (attrs, css)).
      + rewrite (made_none _ style_block f post)
          by (intros u t E; apply style_block_needs;
              rewrite E, up_append in Ht1;
              exact (includes_suffix _ _ _ Ht1)).
        unfold f. cbn [fst snd]. now rewrite !append_assoc.
      + destruct open; [discriminate|discriminate].
      + rewrite !append_assoc. now apply style_block_hit.
    - intros u t E N. unfold style_block. apply lit_ci_needs.
      rewrite (up_append t), (up_append open), Ho.
      change ("<STYLE" ++ up (attrs ++ ">" ++ css ++ close ++ post))
        with (String "<" ("STYLE" ++ up (attrs ++ ">" ++ css ++ close ++ post))).
      apply (junction_tail "<" "STYLE" (up pre) (up u)).
      + exact Hp1.
      + now rewrite E, up_append.
      + now apply up_nonempty.
      + reflexivity. }
  rewrite P1.
  assert (Free : forall q,
             includes (String q EmptyString) "TYLE=" = false ->
             Ascii.eqb "<" q = false -> Ascii.eqb ">" q = false ->
             includes ("STYLE=" ++ String q EmptyString)
                      (up (pre ++ "<style" ++ attrs ++ ">"
                           ++ normalizeCssText css style ++ "</style>" ++ post))
             = false).
  { intros q Hq Hlt Hgt.
    assert (Nq : forall c, Ascii.eqb c q = false ->
                           includes (String c EmptyString) "TYLE=" = false ->
                           includes (String c EmptyString)
                                    ("TYLE=" ++ String q EmptyString) = false).
    { intros c Hcq Hc'. cbn [append includes starts_with] in *.
      rewrite !andb_true_r in *. rewrite Hcq.
      repeat (apply orb_false_iff in Hc'; destruct Hc' as [? Hc']).
      repeat (apply orb_false_iff; split); auto. }
    rewrite (up_append pre), (up_append "<style"), (up_append attrs).
    change (up "<style") with "<STYLE".
    change (up (">" ++ normalizeCssText css style ++ "</style>" ++ post))
      with (String ">" (up (normalizeCssText css style ++ "</style>" ++ post))).
    rewrite (up_append (normalizeCssText css style)).
    change (up ("</style>" ++ post)) with (String "<" ("/STYLE>" ++ up post)).
    change ("<STYLE" ++ up attrs
            ++ String ">" (up (normalizeCssText css style)
                           ++ String "<" ("/STYLE>" ++ up post)))
      with (String "<" ("STYLE" ++ up attrs
              ++ String ">" (up (normalizeCssText css style)
                             ++ String "<" ("/STYLE>" ++ up post)))).
    apply (includes_app_junction "S" ("TYLE=" ++ String q EmptyString));
      [exact (includes_longer "STYLE=" _ _ Hp2)
      |apply Nq; [rewrite Ascii.eqb_sym; exact Hlt|reflexivity]|].
    change (String "<" ("STYLE" ++ up attrs
              ++ String ">" (up (normalizeCssText css style)
                             ++ String "<" ("/STYLE>" ++ up post))))
      with (("<STYLE" ++ up attrs)
            ++ String ">" (up (normalizeCssText css style)
                           ++ String "<" ("/STYLE>" ++ up post))).
    apply (includes_app_junction "S" ("TYLE=" ++ String q EmptyString)).
    - apply (includes_needs_char "=").
      + now rewrite includes_char_append, Ha2.
      + reflexivity.
    - apply Nq; [rewrite Ascii.eqb_sym; exact Hgt|reflexivity].
    - change (String ">" (up (normalizeCssText css style)
                          ++ String "<" ("/STYLE>" ++ up post)))
        with (">" ++ up (normalizeCssText css style)
              ++ String "<" ("/STYLE>" ++ up post)).
      apply includes_app_clash; [reflexivity|].
      apply (includes_app_junction "S" ("TYLE=" ++ String q EmptyString));
        [exact (includes_longer "STYLE=" _ _ Hn)
        |apply Nq; [rewrite Ascii.eqb_sym; exact Hlt|reflexivity]|].
      change (String "<" ("/STYLE>" ++ up post)) with ("</STYLE>" ++ up post).
      apply includes_app_clash; [|exact (includes_longer "STYLE=" _ _ Ht2)].
      cbn [all_clash clash append negb orb andb Ascii.eqb Bool.eqb].
      destruct (Ascii.eqb "=" ">"); reflexivity. }
  rewrite (attribute_free (ascii_of_nat 34)
             (fun cssText =>
                "style=" ++ String (ascii_of_nat 34) EmptyString
                ++ normalizeCssText cssText style
                ++ String (ascii_of_nat 34) EmptyString))
    by (exact (Free (ascii_of_nat 34) eq_refl eq_refl eq_refl)).
  apply (attribute_free "'"
           (fun cssText => "style='" ++ normalizeCssText cssText style ++ "'")).
  exact (Free "'"%char eq_refl eq_refl eq_refl).
Qed.

Lemma normalizeInlineCss_block_witness :
  normalizeInlineCss
    ("<head><STYLE>p { color: var(--md-accent-color) }</Style></head>")
    DEFAULT_STYLE
  = "<head><style>p { color: #6B7280 }</style></head>".
Proof.
  exact (normalizeInlineCss_block "<head>" "<STYLE" EmptyString
           "p { color: var(--md-accent-color) }" "</Style>" "</head>"
           DEFAULT_STYLE eq_refl eq_refl eq_refl eq_refl eq_refl eq_refl
           eq_refl eq_refl eq_refl eq_refl).
Defined.

(** ** The base address of the image service *)

Lemma star_run (R : Type) (p : ascii -> bool) : forall (s : string)
    (k : string -> string -> option R) (r : R),
  Rx.star p s k = Some r ->
  exists m rest, s = m ++ rest /\ k m rest = Some r
                 /\ forall c, includes (String c EmptyString) m = true ->
                              p c = true.
Proof.
  induction s as [|c s IH]; intros k r; cbn [Rx.star].
  - intros H. exists EmptyString, EmptyString.
    repeat split; [exact H|discriminate].
  - destruct (p c) eqn:Pc.
    + destruct (Rx.star p s _) eqn:E.
      * intros [= ->]. destruct (IH _ _ E) as (m & rest & -> & Hk & Hm).
        exists (String c m), rest. repeat split; [exact Hk|].
        intros d Hd. cbn [includes starts_with] in Hd.
        rewrite andb_true_r in Hd. apply orb_true_iff in Hd.
        destruct Hd as [Hd|Hd]; [|now apply Hm].
        apply Ascii.eqb_eq in Hd. now subst d.
      * intros H. exists EmptyString, (String c s).
        repeat split; [exact H|discriminate].
    + intros H. exists EmptyString, (String c s).
      repeat split; [exact H|discriminate].
Qed.

Lemma open_end_snoc (s : string) (c : ascii) :
  open_end (s ++ String c EmptyString) = negb (Ascii.eqb c "/").
Proof. unfold open_end. now rewrite rev_snoc. Qed.

Lemma last_char (t : string) :
  t <> EmptyString -> exists t' c, t = t' ++ String c EmptyString.
Proof.
  induction t as [|a t IH]; [contradiction|]. intros _.
  destruct t as [|b t].
  - now exists EmptyString, a.
  - destruct IH as (t' & c & E); [discriminate|].
    exists (String a t'), c. cbn [append]. now rewrite <- E.
Qed.

Lemma trailing_needs (s u t : string) (n : nat) :
  open_end s = true -> s = u ++ t -> t <> EmptyString ->
  trailing_slashes (t ++ slashes n) = None.
Proof.
  intros Hs -> Nt.
  destruct (trailing_slashes (t ++ slashes n)) as [r|] eqn:E; [|reflexivity].
  exfalso. unfold trailing_slashes, Rx.plus in E.
  destruct (t ++ slashes n) as [|c x] eqn:Ex; [discriminate|].
  destruct (Ascii.eqb c "/") eqn:Pc; [|discriminate].
  apply star_run in E. destruct E as (m & rest & -> & E & Hm).
  destruct rest; [|discriminate].
  rewrite append_empty_r in Ex.
  destruct (last_char t Nt) as (t' & d & ->).
  assert (Hd : Ascii.eqb d "/" = true).
  { assert (I : includes (String d EmptyString) (String c m) = true).
    { rewrite <- Ex. apply includes_app_l.
      apply includes_app_r. cbn. now rewrite Ascii.eqb_refl. }
    cbn [includes starts_with] in I. rewrite andb_true_r in I.
    apply orb_true_iff in I. destruct I as [I|I].
    - apply Ascii.eqb_eq in I. now subst d.
    - now apply Hm. }
  rewrite <- append_assoc, open_end_snoc, Hd in Hs. discriminate.
Qed.

Lemma trailing_hit (n : nat) :
  trailing_slashes (slashes (S n)) = Some (tt, EmptyString).
Proof.
  unfold trailing_slashes. cbn [slashes Rx.plus].
  change (Ascii.eqb "/" "/") with true. cbv iota.
  rewrite <- (append_empty_r (slashes n)).
  apply star_stops; [exact I| |reflexivity].
  induction n as [|n IH]; intros c Hc; [discriminate|].
  cbn [slashes includes starts_with] in Hc. rewrite andb_true_r in Hc.
  apply orb_true_iff in Hc. destruct Hc as [Hc|Hc]; [|now apply IH].
  apply Ascii.eqb_eq in Hc. now subst c.
Qed.

Lemma slashes_snoc (n : nat) :
  slashes n ++ "/" = slashes (S n).
Proof.
  induction n as [|n IH]; [reflexivity|]. cbn [slashes append].
  now rewrite IH.
Qed.

(** Every text is a text that does not end with a slash followed by a run
    of slashes. *)
Lemma split_run (base : string) :
  exists s n, base = s ++ slashes n /\ open_end s = true.
Proof.
  remember (String.length base) as len eqn:L. revert base L.
  induction len as [|len IH]; intros base L.
  - destruct base; [|discriminate]. now exists EmptyString, 0.
  - destruct base as [|a b]; [discriminate|].
    destruct (last_char (String a b)) as (t & c & E); [discriminate|].
    destruct (Ascii.eqb c "/") eqn:C.
    + apply Ascii.eqb_eq in C. subst c.
      assert (Lt : len = String.length t).
      { apply (f_equal String.length) in E. rewrite length_append in E.
        cbn [String.length] in *. lia. }
      destruct (IH t Lt) as (s & n & -> & Hs).
      exists s, (S n). split; [|exact Hs].
      now rewrite E, append_assoc, slashes_snoc.
    + exists (String a b), 0. split; [now rewrite append_empty_r|].
      rewrite E, open_end_snoc, C. reflexivity.
Qed.

Lemma strip_open (s : string) (n : nat) :
  open_end s = true ->
  Rx.replace_all trailing_slashes (fun _ _ _ => EmptyString) (s ++ slashes n)
  = s.
Proof.
  intros Hs. rewrite scan_prefix.
  - destruct n as [|n]; [now rewrite !append_empty_r|].
    rewrite <- (append_empty_r (slashes (S n))) at 1.
    rewrite (scan_match _ trailing_slashes EmptyString (slashes (S n))
               EmptyString tt).
    + now rewrite append_empty_r.
    + discriminate.
    + rewrite append_empty_r. apply trailing_hit.
  - intros u t E N. exact (trailing_needs s u t n Hs E N).
Qed.

(** X23.  [getBaseUrl] removes the slashes at the end of the base address,
    all of them, and nothing else: an address that does not end with a slash
    comes back as it is, and so it does with any number of slashes added to
    it; what is returned never ends with a slash.  Without the environment
    variable, or with an empty one, the address is that of the service. *)
Theorem getBaseUrl_strips_trailing_slashes :
  (forall (s : string) (n : nat),
     s <> EmptyString -> open_end s = true ->
     getBaseUrl (Some (s ++ slashes n)) = s)
  /\ (forall env, open_end (getBaseUrl env) = true)
  /\ getBaseUrl None = "https://dashscope.aliyuncs.com"
  /\ getBaseUrl (Some EmptyString) = "https://dashscope.aliyuncs.com".
Proof.
  refine (conj _ (conj _ (conj eq_refl eq_refl))).
  - intros s n Ns Hs. unfold getBaseUrl. cbv zeta.
    assert (T : or_else (Some (s ++ slashes n)) "https://dashscope.aliyuncs.com"
                = s ++ slashes n)
      by (destruct s; [contradiction|reflexivity]).
    rewrite T. now apply strip_open.
  - intros env. unfold getBaseUrl. cbv zeta.
    generalize (or_else env "https://dashscope.aliyuncs.com"). intros base.
    destruct (split_run base) as (s & n & -> & Hs).
    now rewrite (strip_open s n Hs).
Qed.

Lemma getBaseUrl_strips_trailing_slashes_witness :
  getBaseUrl (Some "http://localhost:8080/v1//") = "http://localhost:8080/v1".
Proof.
  destruct getBaseUrl_strips_trailing_slashes as (H & _).
  apply (H "http://localhost:8080/v1" 2); [discriminate|reflexivity].
Defined.

(** ** Model names of the second image service *)

Lemma split_two (sep : ascii) (a b : string) :
  includes (String sep EmptyString) a = false ->
  includes (String sep EmptyString) b = false ->
  split_on sep (a ++ String sep b) = [a; b].
Proof.
  intros Ha Hb. rewrite (split_on_append sep a b Ha).
  now rewrite (split_on_plain sep b Hb).
Qed.

Lemma split_head (sep : ascii) (s a : string) (rest : list string) :
  split_on sep s = a :: rest ->
  includes (String sep EmptyString) a = false
  /\ starts_with a s = true
  /\ match rest with
     | [] => True
     | b :: _ => includes (String sep EmptyString) b = false
     end.
Proof.
  intros E. pose proof (split_on_no_sep sep s) as F.
  pose proof (concat_split_on sep s) as C. rewrite E in F, C.
  pose proof (Forall_inv F) as Fa. pose proof (Forall_inv_tail F) as Fr.
  cbv beta in Fa. refine (conj Fa (conj _ _)).
  - rewrite <- C. destruct rest as [|b rest]; cbn [String.concat].
    + rewrite <- (append_empty_r a) at 2. apply starts_with_self.
    + apply starts_with_self.
  - destruct rest as [|b rest]; [trivial|]. exact (Forall_inv Fr).
Qed.

(** X24.  [parseModelId] reads back what was put together: an owner and a
    name, neither empty and neither with a slash or a colon, joined by a
    slash, are returned as they are, without a version, and with the
    version added behind a colon, when it is not empty and holds no colon.
    What it returns without an error has an owner and a name that are not
    empty and hold no slash and no colon, the model begins with the two
    joined by a slash, and a version returned is not empty and holds no
    colon. *)
Theorem parseModelId_round_trip :
  (forall owner name,
     owner <> EmptyString -> name <> EmptyString ->
     includes "/" owner = false -> includes ":" owner = false ->
     includes "/" name = false -> includes ":" name = false ->
     Replicate.parseModelId (owner ++ "/" ++ name)
     = inl (Replicate.mkModelId owner name None)
     /\ forall version,
          includes ":" version = false ->
          Replicate.parseModelId (owner ++ "/" ++ name ++ ":" ++ version)
          = inl (Replicate.mkModelId owner name
                   (if truthy version then Some version else None)))
  /\ (forall model id,
        Replicate.parseModelId model = inl id ->
        Replicate.owner id <> EmptyString
        /\ Replicate.name id <> EmptyString
        /\ includes "/" (Replicate.owner id) = false
        /\ includes ":" (Replicate.owner id) = false
        /\ includes "/" (Replicate.name id) = false
        /\ includes ":" (Replicate.name id) = false
        /\ starts_with (Replicate.owner id ++ "/" ++ Replicate.name id) model
           = true
        /\ forall v, Replicate.version id = Some v ->
                     v <> EmptyString /\ includes ":" v = false).
Proof.
  split.
  - intros owner name No Nn Ho1 Ho2 Hn1 Hn2.
    assert (Hon : includes ":" (owner ++ "/" ++ name) = false).
    { change (owner ++ "/" ++ name) with (owner ++ String "/" name).
      rewrite includes_char_append, Ho2.
      change (String "/" name) with ("/" ++ name).
      now rewrite includes_char_append, Hn2. }
    assert (T : negb (truthy owner) || negb (truthy name) = false)
      by (destruct owner, name; try contradiction; reflexivity).
    split.
    + unfold Replicate.parseModelId.
      rewrite (split_on_plain ":" _ Hon).
      change (owner ++ "/" ++ name) with (owner ++ String "/" name).
      rewrite (split_two "/" owner name Ho1 Hn1), T. reflexivity.
    + intros version Hv. unfold Replicate.parseModelId.
      replace (owner ++ "/" ++ name ++ ":" ++ version)
        with ((owner ++ "/" ++ name) ++ String ":" version)
        by (now rewrite !append_assoc).
      rewrite (split_two ":" _ version Hon Hv).
      change (owner ++ "/" ++ name) with (owner ++ String "/" name).
      rewrite (split_two "/" owner name Ho1 Hn1), T.
      cbn [hd_error otruthy]. now destruct version.
  - intros model id H. unfold Replicate.parseModelId in H.
    destruct (split_on ":" model) as [|ownerName rest] eqn:E1; [discriminate|].
    destruct (split_head ":" model ownerName rest E1) as (C1 & S1 & V1).
    destruct (split_on "/" ownerName) as [|a [|b [|c l]]] eqn:E2;
      try discriminate.
    destruct (negb (truthy a) || negb (truthy b)) eqn:T; [discriminate|].
    injection H as <-. cbn [Replicate.owner Replicate.name Replicate.version].
    apply orb_false_iff in T. destruct T as [Ta Tb].
    apply negb_false_iff in Ta, Tb.
    destruct (split_head "/" ownerName a [b] E2) as (A1 & _ & B1).
    pose proof (concat_split_on "/" ownerName) as J. rewrite E2 in J.
    cbn [String.concat] in J.
    assert (J' : ownerName = a ++ String "/" b) by (now rewrite <- J).
    rewrite J' in C1. rewrite includes_char_append in C1.
    apply orb_false_iff in C1. destruct C1 as [Ca Cb].
    change (String "/" b) with ("/" ++ b) in Cb.
    rewrite includes_char_append in Cb. cbn [orb] in Cb.
    refine (conj _ (conj _ (conj A1 (conj Ca (conj B1 (conj Cb (conj _ _))))))).
    + intros ->. discriminate.
    + intros ->. discriminate.
    + change (a ++ "/" ++ b) with (a ++ String "/" b). now rewrite <- J'.
    + intros v Hv. destruct rest as [|r rest]; cbn [hd_error otruthy] in Hv;
        [discriminate|].
      destruct (truthy r) eqn:Tr; [|discriminate].
      injection Hv as <-. split; [intros ->; discriminate|exact V1].
Qed.

Lemma parseModelId_round_trip_witness :
  Replicate.parseModelId "google/nano-banana-pro"
  = inl (Replicate.mkModelId "google" "nano-banana-pro" None)
  /\ Replicate.parseModelId "google/nano-banana-pro:4f2a"
     = inl (Replicate.mkModelId "google" "nano-banana-pro" (Some "4f2a")).
Proof.
  destruct parseModelId_round_trip as (R & _).
  assert (No : "google" <> EmptyString) by discriminate.
  assert (Nn : "nano-banana-pro" <> EmptyString) by discriminate.
  destruct (R "google" "nano-banana-pro" No Nn eq_refl eq_refl eq_refl eq_refl)
    as [A B].
  exact (conj A (B "4f2a" eq_refl)).
Defined.

(** ** Declarations stripped whole *)

Lemma declaration_miss (name s : string) :
  starts_with ("--" ++ name ++ ":") s = false -> declaration name s = None.
Proof. intros H. unfold declaration. now rewrite lit_eq, H. Qed.










Lemma declares_none_of (name s : string) :
  In name stripped_properties -> declares_none s = true ->
  includes ("--" ++ name ++ ":") s = false.
Proof.
  intros H D. unfold declares_none in D. rewrite forallb_forall in D.
  now apply negb_true_iff, D.
Qed.









(** A document with a style block and both forms of style attribute, whose
    references are all to the fixed list. *)
Example normalizeInlineCss_document :
  normalizeInlineCss
    ("<style>:root { --md-primary-color: #0F4C81; --foreground: 0 0% 3.9%; } "
     ++ "h1 { color: var(--md-primary-color) }</style>"
     ++ "<p style=" ++ dq ++ "font-size: var(--md-font-size); color: hsl(var(--foreground))" ++ dq ++ ">a</p>"
     ++ "<P STYLE='background: var(--blockquote-background)'>b</P>")
    DEFAULT_STYLE
  = "<style>:root {   } h1 { color: #0F4C81 }</style>"
    ++ "<p style=" ++ dq ++ "font-size: 16px; color: #3f3f3f" ++ dq ++ ">a</p>"
    ++ "<P style='background: #f7f7f7'>b</P>".
Proof. vm_compute. reflexivity. Qed.

(** Where a declaration is not whole.  The pattern stops at a quote: of the
    declaration of the serif font family of [FONT_FAMILY_MAP], the part
    from its first quote on stays.  And what a declaration holds goes with
    it, a reference to another custom property included. *)
Example normalizeCssText_cuts_at_quote :
  normalizeCssText
    ":root { --md-font-family: Optima-Regular, Optima, PingFangSC-light, PingFangTC-light, 'PingFang SC', Cambria, Cochin, Georgia, Times, 'Times New Roman', serif; } p { margin: 0 }"
    DEFAULT_STYLE
  = ":root { 'PingFang SC', Cambria, Cochin, Georgia, Times, 'Times New Roman', serif; } p { margin: 0 }"
  /\ normalizeCssText "--md-primary-color: var(--brand-color); color: red"
       DEFAULT_STYLE
     = " color: red".
Proof. split; vm_compute; reflexivity. Qed.

(** ** Texts out of reach of the normalisation *)

Lemma replace_literal_absent (w v s : string) :
  includes w s = false -> Rx.replace_literal w v s = s.
Proof.
  intros H. unfold Rx.replace_literal, Rx.replace_all.
  apply replace_go_none. intros u t E. apply literal_miss.
  now apply (free_suffix w s u t).
Qed.

Lemma strip_declaration_absent (name s : string) :
  includes ("--" ++ name ++ ":") s = false -> strip_declaration name s = s.
Proof.
  intros H. unfold strip_declaration.
  apply scan_none. intros u t E. apply declaration_miss.
  now apply (free_suffix _ s u t).
Qed.

(** X25.  [normalizeCssText] returns as it is a text that holds none of
    the six references [var(--name)] it resolves, no
    [hsl(var(--foreground))] and no [--name:] of the seven properties whose
    declarations it strips, whatever the style and whatever else the text
    holds: a reference to any other custom property stays where it is. *)
Theorem normalizeCssText_out_of_reach :
  forall (cssText : string) (style : StyleConfig),
    out_of_reach cssText = true ->
    normalizeCssText cssText style = cssText.
Proof.
  intros s style H. unfold out_of_reach in H.
  apply andb_true_iff in H. destruct H as [R D].
  rewrite forallb_forall in R.
  assert (R' : forall w, In w resolved_references -> includes w s = false)
    by (intros w Hw; now apply negb_true_iff, R).
  assert (D' : forall name, In name stripped_properties ->
                            strip_declaration name s = s)
    by (intros name Hn; now apply strip_declaration_absent, declares_none_of).
  unfold normalizeCssText, resolve_var. cbv zeta.
  rewrite (replace_literal_absent ("var(--" ++ "md-primary-color" ++ ")") _ s)
    by (apply R'; cbn; tauto).
  rewrite (replace_literal_absent ("var(--" ++ "md-font-family" ++ ")") _ s)
    by (apply R'; cbn; tauto).
  rewrite (replace_literal_absent ("var(--" ++ "md-font-size" ++ ")") _ s)
    by (apply R'; cbn; tauto).
  rewrite (replace_literal_absent ("var(--" ++ "blockquote-background" ++ ")") _ s)
    by (apply R'; cbn; tauto).
  rewrite (replace_literal_absent ("var(--" ++ "md-accent-color" ++ ")") _ s)
    by (apply R'; cbn; tauto).
  rewrite (replace_literal_absent ("var(--" ++ "md-container-bg" ++ ")") _ s)
    by (apply R'; cbn; tauto).
  rewrite (replace_literal_absent "hsl(var(--foreground))" _ s)
    by (apply R'; cbn; tauto).
  rewrite !D' by (cbn; tauto).
  reflexivity.
Qed.

Lemma normalizeCssText_out_of_reach_witness :
  let s := "--brand-color: #123456; color: var(--brand-color); border-color: var(--foreground)" in
  out_of_reach s = true
  /\ has_var_reference s = true
  /\ normalizeCssText s MODERN_STYLE = s.
Proof.
  intros s. split; [reflexivity|]. split; [reflexivity|].
  apply normalizeCssText_out_of_reach. reflexivity.
Defined.
